(** * The recording processing pipeline of clueso-backend

    A shallow embedding of the recording model ([models/recording.model.ts]),
    the job queue helpers ([queues/recording.queue.ts]), the unified worker
    and the stage-specific workers ([workers/]), the synthesis client
    ([services/pythonAI.service.ts]), the transcription client
    ([services/deepgram.service.ts]), the upload / process / delete
    controllers and the raw-video and download endpoints
    ([controllers/recordings.controller.ts]) and the parser of token
    lifetimes ([utils/jwt.util.ts]).

    The document store is a finite map from recording ids to records, the
    file system a finite map from paths to file contents, the queue a list
    of jobs.  Every handler is a computation in a state-and-exception monad
    over that world; the outcome of each external collaborator (ffmpeg, the
    speech-to-text service, the synthesis server, the clock) is an input of
    the handler run. *)

From Stdlib Require Import ZArith NArith List Ascii String Bool Lia.
From stdpp Require Import base option strings pretty list gmap fin_maps relations.

Local Open Scope string_scope.
Local Open Scope list_scope.

(** ** Enumerations *)

Module RecordingStatus.
Inductive t := UPLOADED | PROCESSING | DRAFT_READY | COMPLETED | FAILED.

Definition value (s : t) : string :=
  match s with
  | UPLOADED => "uploaded"
  | PROCESSING => "processing"
  | DRAFT_READY => "draft_ready"
  | COMPLETED => "completed"
  | FAILED => "failed"
  end.

Definition eqb (a b : t) : bool :=
  match a, b with
  | UPLOADED, UPLOADED | PROCESSING, PROCESSING | DRAFT_READY, DRAFT_READY
  | COMPLETED, COMPLETED | FAILED, FAILED => true
  | _, _ => false
  end.
End RecordingStatus.

Module ProcessingStep.
Inductive t :=
| EXTRACTING_AUDIO | TRANSCRIBING | AI_PROCESSING | APPLYING_ZOOM_EFFECTS
| MERGING | COMPLETED | FAILED.

Definition value (s : t) : string :=
  match s with
  | EXTRACTING_AUDIO => "extracting-audio"
  | TRANSCRIBING => "transcribing"
  | AI_PROCESSING => "ai-processing"
  | APPLYING_ZOOM_EFFECTS => "applying-zoom-effects"
  | MERGING => "merging"
  | COMPLETED => "completed"
  | FAILED => "failed"
  end.
End ProcessingStep.

Module JobType.
Inductive t :=
| START_PROCESSING | EXTRACT_AUDIO | TRANSCRIBE | AI_PROCESS | APPLY_ZOOM | MERGE.

Definition value (j : t) : string :=
  match j with
  | START_PROCESSING => "startProcessing"
  | EXTRACT_AUDIO => "extractAudio"
  | TRANSCRIBE => "transcribe"
  | AI_PROCESS => "aiProcess"
  | APPLY_ZOOM => "applyZoom"
  | MERGE => "merge"
  end.

Definition eqb (a b : t) : bool :=
  match a, b with
  | START_PROCESSING, START_PROCESSING | EXTRACT_AUDIO, EXTRACT_AUDIO
  | TRANSCRIBE, TRANSCRIBE | AI_PROCESS, AI_PROCESS
  | APPLY_ZOOM, APPLY_ZOOM | MERGE, MERGE => true
  | _, _ => false
  end.
End JobType.

(** ** Interaction events and the recording document *)

(** [DOMEvent]: the pipeline only ever inspects [type] and the presence of
    [coordinates]; [target], [scrollPosition] and [data] are carried by the
    collaborators alone and are left out.

    The upload accepts any JSON array as the events ([Array.isArray] is its
    only check), so the events of a recording are a
    [list (option DOMEvent)]: [None] is a [null] element, the one JSON value
    of which no property can be read; [Some e] is any other element -- of
    an element that is no event object the pipeline reads a [type] that is
    not "click" and no [coordinates]. *)
Record DOMEvent := {
  type : string;
  timestamp : Z;
  coordinates : option (Z * Z);
  viewport : option (Z * Z)
}.

(** The language of a process request or of a job, as JSON carries it: a
    string, or [null].  A field that is absent ([undefined]) is the [None]
    of an [option Language].  The default of a parameter ([= "en"])
    replaces [undefined] and nothing else, so a [null] travels on as it is.
    A value of another JSON type is converted or refused by the schema of
    the store when the record is saved; that conversion is the store's, and
    such values are left out. *)
Inductive Language :=
| Lang (code : string)
| NullLanguage.

(** [IRecording].  Optional fields are [option]s ([None] is JavaScript's
    [undefined]); dates are milliseconds since the epoch.  [createdAt] and
    [updatedAt] are maintained by the store itself and written by no
    handler; they are not part of the model. *)
Record Recording := {
  _id : string;
  filePath : string;
  eventsPath : string;
  audioPath : option string;
  transcriptPath : option string;
  zoomedVideoPath : option string;
  voiceoverPath : option string;
  finalVideoPath : option string;
  cleanedScript : option string;
  transcript : option string;
  status : RecordingStatus.t;
  currentStep : option ProcessingStep.t;
  title : option string;
  description : option string;
  targetLanguage : option Language;
  userId : option string;
  errorMessage : option string;
  processingStartedAt : option N;
  processingCompletedAt : option N
}.

(** One entry of the update document handed to [findByIdAndUpdate] (or one
    assignment to a loaded document before [save]). *)
Inductive Assign :=
| Set_audioPath (v : string)
| Set_transcriptPath (v : string)
| Set_zoomedVideoPath (v : string)
| Set_voiceoverPath (v : string)
| Set_finalVideoPath (v : string)
| Set_cleanedScript (v : string)
| Set_transcript (v : string)
| Set_status (v : RecordingStatus.t)
| Set_currentStep (v : ProcessingStep.t)
| Set_targetLanguage (v : Language)
| Set_errorMessage (v : string)
| Unset_errorMessage
| Set_processingStartedAt (v : N)
| Set_processingCompletedAt (v : N).

Definition assign (u : Assign) (r : Recording) : Recording :=
  let '(Build_Recording i fp ep ap tp zp vp fv cs tr st cu ti de tl us er ps pc) := r in
  match u with
  | Set_audioPath v =>
      Build_Recording i fp ep (Some v) tp zp vp fv cs tr st cu ti de tl us er ps pc
  | Set_transcriptPath v =>
      Build_Recording i fp ep ap (Some v) zp vp fv cs tr st cu ti de tl us er ps pc
  | Set_zoomedVideoPath v =>
      Build_Recording i fp ep ap tp (Some v) vp fv cs tr st cu ti de tl us er ps pc
  | Set_voiceoverPath v =>
      Build_Recording i fp ep ap tp zp (Some v) fv cs tr st cu ti de tl us er ps pc
  | Set_finalVideoPath v =>
      Build_Recording i fp ep ap tp zp vp (Some v) cs tr st cu ti de tl us er ps pc
  | Set_cleanedScript v =>
      Build_Recording i fp ep ap tp zp vp fv (Some v) tr st cu ti de tl us er ps pc
  | Set_transcript v =>
      Build_Recording i fp ep ap tp zp vp fv cs (Some v) st cu ti de tl us er ps pc
  | Set_status v =>
      Build_Recording i fp ep ap tp zp vp fv cs tr v cu ti de tl us er ps pc
  | Set_currentStep v =>
      Build_Recording i fp ep ap tp zp vp fv cs tr st (Some v) ti de tl us er ps pc
  | Set_targetLanguage v =>
      Build_Recording i fp ep ap tp zp vp fv cs tr st cu ti de (Some v) us er ps pc
  | Set_errorMessage v =>
      Build_Recording i fp ep ap tp zp vp fv cs tr st cu ti de tl us (Some v) ps pc
  | Unset_errorMessage =>
      Build_Recording i fp ep ap tp zp vp fv cs tr st cu ti de tl us None ps pc
  | Set_processingStartedAt v =>
      Build_Recording i fp ep ap tp zp vp fv cs tr st cu ti de tl us er (Some v) pc
  | Set_processingCompletedAt v =>
      Build_Recording i fp ep ap tp zp vp fv cs tr st cu ti de tl us er ps (Some v)
  end.

(** The whole update document: its entries applied in order. *)
Definition assignAll (us : list Assign) (r : Recording) : Recording :=
  fold_left (fun acc u => assign u acc) us r.

(** ** Files, jobs, status events and the world *)

(** What a file holds: text written by the core, the JSON array of
    interaction events written at upload ([null] elements included), or
    media bytes (an upload, a collaborator's output, or decoded base64),
    kept opaque. *)
Inductive FileData :=
| Text (s : string)
| Json (events : list (option DOMEvent))
| Media (bytes : string).

Inductive JobState :=
| Waiting
| Active
| Delayed (delay : N)
| Completed
| Parked.

Record RecordingJobData := {
  recordingId : string;
  data_targetLanguage : option Language
}.

Record Job := {
  name : JobType.t;
  data : RecordingJobData;
  jobId : string;
  attemptsMade : nat;
  state : JobState
}.

Inductive Channel := PROCESSING_UPDATE | PROCESSING_ERROR.

(** The published payload, without its [timestamp]. *)
Record StatusEvent := {
  channel : Channel;
  ev_recordingId : string;
  ev_step : ProcessingStep.t;
  ev_error : option string
}.

(** One call of the synthesis server and one call of the mux. *)
Record SynthesisCall := {
  sc_transcript : string;
  sc_domEvents : list (option DOMEvent);
  sc_target_language : Language
}.

Record MuxCall := {
  mux_video : string;
  mux_audio : string;
  mux_output : string
}.

Record World := {
  db : gmap string Recording;
  files : gmap string FileData;
  queue : list Job;
  published : list StatusEvent;
  synthesisCalls : list SynthesisCall;
  muxCalls : list MuxCall
}.

Definition with_db (f : gmap string Recording -> gmap string Recording) (w : World) : World :=
  {| db := f (db w); files := files w; queue := queue w; published := published w;
     synthesisCalls := synthesisCalls w; muxCalls := muxCalls w |}.

Definition with_files (f : gmap string FileData -> gmap string FileData) (w : World) : World :=
  {| db := db w; files := f (files w); queue := queue w; published := published w;
     synthesisCalls := synthesisCalls w; muxCalls := muxCalls w |}.

Definition with_queue (f : list Job -> list Job) (w : World) : World :=
  {| db := db w; files := files w; queue := f (queue w); published := published w;
     synthesisCalls := synthesisCalls w; muxCalls := muxCalls w |}.

Definition with_published (f : list StatusEvent -> list StatusEvent) (w : World) : World :=
  {| db := db w; files := files w; queue := queue w; published := f (published w);
     synthesisCalls := synthesisCalls w; muxCalls := muxCalls w |}.

Definition with_synthesisCalls (f : list SynthesisCall -> list SynthesisCall) (w : World) : World :=
  {| db := db w; files := files w; queue := queue w; published := published w;
     synthesisCalls := f (synthesisCalls w); muxCalls := muxCalls w |}.

Definition with_muxCalls (f : list MuxCall -> list MuxCall) (w : World) : World :=
  {| db := db w; files := files w; queue := queue w; published := published w;
     synthesisCalls := synthesisCalls w; muxCalls := f (muxCalls w) |}.

Definition emptyWorld : World :=
  {| db := ∅; files := ∅; queue := []; published := [];
     synthesisCalls := []; muxCalls := [] |}.

(** ** Exceptions and the handler monad *)

(** A thrown value.  The pipeline reads its class ([instanceof]), its
    [message] and, of an axios error, [code], [response.status] and
    [response.data.detail]. *)
Inductive ErrorClass :=
| PlainError
| ProcessingError
| NotFoundError
| AxiosError (code : option string) (status : option N) (detail : option string)
| NotAnError.

Record Error := { class : ErrorClass; message : string }.

Definition isProcessingError (e : Error) : bool :=
  match class e with ProcessingError => true | _ => false end.

(** [error instanceof Error] *)
Definition isError (e : Error) : bool :=
  match class e with NotAnError => false | _ => true end.

Inductive Result (A : Type) :=
| Ok (a : A)
| Throw (e : Error).
Arguments Ok {A} a.
Arguments Throw {A} e.

Definition M (A : Type) : Type := World -> Result A * World.

Definition ret {A} (a : A) : M A := fun w => (Ok a, w).

Definition throw {A} (e : Error) : M A := fun w => (Throw e, w).

Definition bind {A B} (m : M A) (k : A -> M B) : M B :=
  fun w =>
    match m w with
    | (Ok a, w') => k a w'
    | (Throw e, w') => (Throw e, w')
    end.

(** [try { m } catch (error) { h error }] *)
Definition tryCatch {A} (m : M A) (h : Error -> M A) : M A :=
  fun w =>
    match m w with
    | (Ok a, w') => (Ok a, w')
    | (Throw e, w') => h e w'
    end.

Definition modify (f : World -> World) : M unit := fun w => (Ok tt, f w).

Definition gets {A} (f : World -> A) : M A := fun w => (Ok (f w), w).

Notation "'let!' x ':=' m 'in' k" := (bind m (fun x => k))
  (at level 10, x name, m at level 100, k at level 200).
Notation "m '>>' k" := (bind m (fun _ => k))
  (at level 90, right associativity).

(** ** JavaScript helpers *)

(** Truthiness of a string: every string but the empty one. *)
Definition truthy (s : string) : bool :=
  match s with
  | EmptyString => false
  | String _ _ => true
  end.

(** [a || d] on an optional string. *)
Definition orElse (a : option string) (d : string) : string :=
  match a with
  | Some s => if truthy s then s else d
  | None => d
  end.

(** The white space [String.prototype.trim] removes, among the code units
    a [string] here can hold: TAB, LF, VT, FF, CR, SPACE and NBSP. *)
Definition isWhiteSpace (c : ascii) : bool :=
  let n := nat_of_ascii c in
  ((9 <=? n)%nat && (n <=? 13)%nat) || (n =? 32)%nat || (n =? 160)%nat.

Fixpoint trimStart (s : string) : string :=
  match s with
  | EmptyString => EmptyString
  | String c s' => if isWhiteSpace c then trimStart s' else s
  end.

Fixpoint trimEnd (s : string) : string :=
  match s with
  | EmptyString => EmptyString
  | String c s' =>
      match trimEnd s' with
      | EmptyString => if isWhiteSpace c then EmptyString else String c EmptyString
      | t => String c t
      end
  end.

Definition trim (s : string) : string := trimEnd (trimStart s).

(** [id.substring(0, n)] *)
Definition substring0 (n : nat) (s : string) : string := String.substring 0 n s.

(** The [TypeError] thrown when a property of [null] is read.  It is an
    [Error] ([instanceof Error] holds) and the pipeline reads nothing of it
    but its message. *)
Definition nullTypeError (property : string) : Error :=
  {| class := PlainError;
     message := "Cannot read properties of null (reading '" +:+ property +:+ "')" |}.

(** [domEvents.filter((e) => keep(e))] for a callback that starts by
    reading [e.type]: the elements are visited in order, and the callback
    throws at a [null] one -- [None] is that throw. *)
Fixpoint filterEvents (keep : DOMEvent -> bool) (domEvents : list (option DOMEvent))
    : option (list DOMEvent) :=
  match domEvents with
  | [] => Some []
  | None :: _ => None
  | Some e :: rest =>
      match filterEvents keep rest with
      | Some kept => Some (if keep e then e :: kept else kept)
      | None => None
      end
  end.

(** ** Collaborators *)

(** A settled promise of an external call. *)
Inductive Reply (A : Type) :=
| Resolved (a : A)
| Rejected (e : Error).
Arguments Resolved {A} a.
Arguments Rejected {A} e.

(** What the outside world answers during one handler run: the clock, the
    ffmpeg runs, the speech-to-text call ([result] transcript and [error]
    message of the SDK's reply) and the HTTP post to the synthesis server
    ([cleanedScript] and [voiceoverBase64] of the response body). *)
Record Collab := {
  now : N;
  ffmpeg_extractAudio : Reply FileData;
  deepgram_transcribeFile : Reply (option string * option string);
  axios_post : Reply (option string * option string);
  ffmpeg_applyZoomEffects : Reply FileData;
  ffmpeg_mergeAudioVideo : Reply FileData
}.

(** The paths of one recording ([fileService.getRecordingPaths]). *)
Module Paths.
Record t := {
  directory : string;
  rawVideo : string;
  events : string;
  audio : string;
  transcript : string;
  voiceover : string;
  zoomedVideo : string;
  finalVideo : string
}.
End Paths.

(** What a job handler returns to the queue. *)
Inductive JobReturn :=
| Success (field : string) (value : string)
| UnknownJob (error : string)
| Skipped.

(** ** The queue (BullMQ) *)

(** [defaultJobOptions] of [recordingQueue]. *)
Definition attempts : nat := 2.
Definition backoff_delay : N := 30000.

Definition live (j : Job) : bool :=
  match state j with
  | Waiting | Active | Delayed _ => true
  | Completed | Parked => false
  end.

Definition keyLive (k : string) (q : list Job) : bool :=
  existsb (fun j => live j && String.eqb (jobId j) k) q.

(** Modelled from the spec: the queue library's [add] with a [jobId] is not
    part of the sources.  "[enqueue] inserts a job unless one with the same
    dedup key is already pending/active, in which case the call is a
    no-op." *)
Definition enqueue (n : JobType.t) (d : RecordingJobData) (k : string) (q : list Job) : list Job :=
  if keyLive k q then q
  else q ++ [ {| name := n; data := d; jobId := k; attemptsMade := 0; state := Waiting |} ].

(** Modelled from the spec: the queue library's failure policy is not part
    of the sources.  "On handler exception, retry up to a fixed attempt
    ceiling with exponential backoff (seconds-scale delay, doubling), after
    which the job is parked in a dead state."  [n] is the number of
    attempts made, the failed one included. *)
Definition afterFailure (n : nat) : JobState :=
  if (n <? attempts)%nat then Delayed (backoff_delay * 2 ^ N.of_nat (n - 1)) else Parked.

Definition setState (s : JobState) (j : Job) : Job :=
  {| name := name j; data := data j; jobId := jobId j;
     attemptsMade := attemptsMade j; state := s |}.

Definition countAttempt (j : Job) : Job :=
  {| name := name j; data := data j; jobId := jobId j;
     attemptsMade := S (attemptsMade j); state := state j |}.

(** ** The record store, the file service and the status publisher *)

Definition findById (id : string) : M (option Recording) :=
  gets (fun w => db w !! id).

(** A partial update by id; a missing document is left missing and nothing
    is thrown. *)
Definition findByIdAndUpdate (id : string) (us : list Assign) : M unit :=
  modify (with_db (alter (assignAll us) id)).

Definition findByIdAndDelete (id : string) : M unit :=
  modify (with_db (delete id)).

(** [new Recording({...}).save()] *)
Definition saveNew (r : Recording) : M unit :=
  modify (with_db <[_id r := r]>).

Definition enoent (p : string) : Error :=
  {| class := PlainError;
     message := "ENOENT: no such file or directory, open '" +:+ p +:+ "'" |}.

Definition path_join (a b : string) : string := a +:+ "/" +:+ b.

Definition saveFile (filePath : string) (d : FileData) : M unit :=
  modify (with_files <[filePath := d]>).

Definition readFileSync (filePath : string) : M FileData :=
  fun w =>
    match files w !! filePath with
    | Some d => (Ok d, w)
    | None => (Throw (enoent filePath), w)
    end.

(** [JSON.parse] of the file's text: only the events array written at
    upload parses to a list of events. *)
Definition readJsonFile (filePath : string) : M (list (option DOMEvent)) :=
  let! d := readFileSync filePath in
  match d with
  | Json evs => ret evs
  | Text _ | Media _ =>
      throw {| class := PlainError; message := "Unexpected token in JSON" |}
  end.

Definition saveBase64File (filePath base64Data : string) : M unit :=
  saveFile filePath (Media base64Data).

Definition existsSync (p : string) : M bool :=
  gets (fun w => match files w !! p with Some _ => true | None => false end).

Definition copyFileSync (src dest : string) : M unit :=
  let! d := readFileSync src in
  saveFile dest d.

Definition writeFileSync (p : string) (s : string) : M unit :=
  saveFile p (Text s).

(** [fs.rm(dirPath, { recursive: true, force: true })] *)
Definition deleteDirectory (dirPath : string) : M unit :=
  modify (with_files (filter (fun kv => String.prefix (dirPath +:+ "/") (fst kv) = false))).

(** [console.log]: no effect on the world. *)
Definition consoleLog (msg : string) : M unit := ret tt.

Definition emitProcessingUpdate (rid : string) (step : ProcessingStep.t) : M unit :=
  modify (with_published (fun l => l ++
    [ {| channel := PROCESSING_UPDATE; ev_recordingId := rid;
         ev_step := step; ev_error := None |} ])).

Definition emitError (rid : string) (error : string) : M unit :=
  modify (with_published (fun l => l ++
    [ {| channel := PROCESSING_ERROR; ev_recordingId := rid;
         ev_step := ProcessingStep.FAILED; ev_error := Some error |} ])).

(** ** The collaborators' clients *)

Definition processingError (msg : string) : Error :=
  {| class := ProcessingError; message := msg |}.

(** [ffmpegService.extractAudio]: on success ffmpeg has written the output. *)
Definition extractAudio (c : Collab) (inputPath outputPath : string) : M unit :=
  match ffmpeg_extractAudio c with
  | Resolved d => saveFile outputPath d
  | Rejected err => throw (processingError ("Audio extraction failed: " +:+ message err))
  end.

(** [event.type === "click" && event.coordinates && event.viewport] *)
Definition isClickWithViewport (e : DOMEvent) : bool :=
  String.eqb (type e) "click" &&
  match coordinates e with Some _ => true | None => false end &&
  match viewport e with Some _ => true | None => false end.

(** [ffmpegService.applyZoomEffects].  The ffmpeg runs it makes (the probe
    of the metadata, then the render) are one reply of the collaborator,
    kept opaque: the rendered video, or the rejection of the run that
    failed.  Between the probe and the render the service filters the
    events itself, which throws at a [null] element before anything is
    rendered. *)
Definition applyZoomEffects (c : Collab) (inputPath outputPath : string)
    (domEvents : list (option DOMEvent)) (rid : string) : M unit :=
  match ffmpeg_applyZoomEffects c with
  | Resolved d =>
      match filterEvents isClickWithViewport domEvents with
      | Some clickEvents => saveFile outputPath d
      | None => throw (nullTypeError "type")
      end
  | Rejected err => throw err
  end.

(** [ffmpegService.mergeAudioVideo] *)
Definition mergeAudioVideo (c : Collab) (videoPath audioPath outputPath rid : string) : M unit :=
  modify (with_muxCalls (fun l => l ++
    [ {| mux_video := videoPath; mux_audio := audioPath; mux_output := outputPath |} ])) >>
  match ffmpeg_mergeAudioVideo c with
  | Resolved d => saveFile outputPath d
  | Rejected err => throw (processingError ("Merge failed: " +:+ message err))
  end.

(** [deepgramService.transcribeAudio] *)
Definition transcribeAudio (c : Collab) (audioPath rid : string) : M string :=
  tryCatch
    (let! audioBuffer := readFileSync audioPath in
     match deepgram_transcribeFile c with
     | Rejected err => throw err
     | Resolved (_, Some error) =>
         throw (processingError ("Deepgram transcription error: " +:+ error))
     | Resolved (result, None) => ret (orElse result EmptyString)
     end)
    (fun error =>
       if isProcessingError error then throw error
       else throw (processingError ("Transcription failed: " +:+
              (if isError error then message error else "Unknown error")))).

(** [pythonAIService.processWithAI] *)
Definition processWithAI (c : Collab) (transcript : string)
    (domEvents : list (option DOMEvent)) (rid : string)
    (targetLanguage : option Language) : M (string * string) :=
  let targetLanguage := default (Lang "en") targetLanguage in
  tryCatch
    (modify (with_synthesisCalls (fun l => l ++
       [ {| sc_transcript := transcript; sc_domEvents := domEvents;
            sc_target_language := targetLanguage |} ])) >>
     match axios_post c with
     | Rejected err => throw err
     | Resolved (cleanedScript, voiceoverBase64) =>
         if negb (truthy (default EmptyString cleanedScript)) || negb (truthy (default EmptyString voiceoverBase64))
         then throw (processingError
           "Invalid response from Python AI server: missing cleanedScript or voiceoverBase64")
         else ret (default EmptyString cleanedScript, default EmptyString voiceoverBase64)
     end)
    (fun error =>
       if isProcessingError error then throw error
       else match class error with
       | AxiosError code status detail =>
           if bool_decide (code = Some "ECONNREFUSED")
           then throw (processingError "Python AI server is not available")
           else if bool_decide (code = Some "ETIMEDOUT") || bool_decide (code = Some "ECONNABORTED")
           then throw (processingError "Python AI server request timed out")
           else if bool_decide (status = Some 400%N)
           then throw (processingError ("Python AI server rejected request: " +:+
                  orElse detail (message error)))
           else throw (processingError ("Python AI server error: " +:+ message error))
       | _ =>
           throw (processingError ("AI processing failed: " +:+
             (if isError error then message error else "Unknown error")))
       end).

(** ** The queue helpers ([queues/recording.queue.ts]) *)

Definition recordingQueue_add (n : JobType.t) (d : RecordingJobData) (jobId : string) : M unit :=
  modify (with_queue (enqueue n d jobId)).

Definition addProcessingJob (rid : string) : M unit :=
  recordingQueue_add JobType.EXTRACT_AUDIO
    {| recordingId := rid; data_targetLanguage := None |}
    ("extract-audio-" +:+ rid).

Definition nextJobMap (currentJobType : JobType.t) : option JobType.t :=
  match currentJobType with
  | JobType.START_PROCESSING => Some JobType.EXTRACT_AUDIO
  | JobType.EXTRACT_AUDIO => Some JobType.TRANSCRIBE
  | JobType.TRANSCRIBE => None
  | JobType.AI_PROCESS => Some JobType.APPLY_ZOOM
  | JobType.APPLY_ZOOM => Some JobType.MERGE
  | JobType.MERGE => None
  end.

Definition addNextJob (currentJobType : JobType.t) (rid : string) : M unit :=
  match nextJobMap currentJobType with
  | Some nextJob =>
      recordingQueue_add nextJob
        {| recordingId := rid; data_targetLanguage := None |}
        (JobType.value nextJob +:+ "-" +:+ rid)
  | None => ret tt
  end.

(** [dateNow] is the value of [Date.now()] at the call. *)
Definition addFinalProcessingJob (dateNow : N) (rid : string)
    (targetLanguage : option Language) : M unit :=
  let targetLanguage := default (Lang "en") targetLanguage in
  recordingQueue_add JobType.AI_PROCESS
    {| recordingId := rid; data_targetLanguage := Some targetLanguage |}
    ("ai-process-" +:+ rid +:+ "-" +:+ pretty dateNow).

(** ** The read-only controllers ([controllers/recordings.controller.ts]) *)

(** The errors these controllers throw ([utils/errors.ts]):
    [NotFoundError(resource)] and [ValidationError(message, errors)]. *)
Inductive AppError :=
| NotFound (resource : string)
| Validation (reason : string) (errors : list (string * string)).

Definition statusCode (e : AppError) : N :=
  match e with
  | NotFound _ => 404
  | Validation _ _ => 400
  end.

Definition appMessage (e : AppError) : string :=
  match e with
  | NotFound resource => resource +:+ " not found"
  | Validation reason _ => reason
  end.

(** The value handed to [res.setHeader("Content-Type", ...)]: a string, or
    a value inherited from [Object.prototype] by the lookup in [mimeTypes]. *)
Inductive HeaderValue :=
| HeaderString (s : string)
| HeaderObject.

(** A file streamed to the client.  [body] is what the read stream of
    [streamedPath] delivers; the Content-Length header is its size
    ([stats.size]) and is not kept apart from it. *)
Record FileResponse := {
  contentType : HeaderValue;
  contentDisposition : option string;
  acceptRanges : option string;
  streamedPath : string;
  body : FileData
}.

Definition dquote : string := String "034"%char EmptyString.

(** [downloadRecording]: [fileService.fileExists], [getFileStats] and
    [createReadStream] all look at the same path of the file system. *)
Definition downloadRecording (id : string) (w : World) : AppError + FileResponse :=
  match db w !! id with
  | None => inl (NotFound "Recording")
  | Some recording =>
      if negb (RecordingStatus.eqb (status recording) RecordingStatus.COMPLETED) then
        inl (Validation "Recording is not ready for download"
               [ ("status", "Current status: " +:+ RecordingStatus.value (status recording)) ])
      else if negb (truthy (default EmptyString (finalVideoPath recording))) then
        inl (NotFound "Final video file")
      else
        let finalVideoPath := default EmptyString (finalVideoPath recording) in
        match files w !! finalVideoPath with
        | None => inl (NotFound "Final video file")
        | Some d =>
            inr {| contentType := HeaderString "video/mp4";
                   contentDisposition :=
                     Some ("attachment; filename=" +:+ dquote +:+
                           orElse (title recording) id +:+ ".mp4" +:+ dquote);
                   acceptRanges := None;
                   streamedPath := finalVideoPath;
                   body := d |}
        end
  end.

Definition containsDot (s : string) : bool :=
  existsb (Ascii.eqb ".") (list_ascii_of_string s).

(** [s.split(".").pop()]: what follows the last dot, the whole string when
    there is none. *)
Fixpoint lastSegment (s : string) : string :=
  match s with
  | EmptyString => EmptyString
  | String ch rest =>
      if containsDot rest then lastSegment rest
      else if Ascii.eqb ch "." then rest
      else s
  end.

(** [toLowerCase] on the code units a [string] here can hold: A-Z and the
    capital letters of Latin-1 (all of 192-222 but the multiplication
    sign). *)
Definition toLowerChar (ch : ascii) : ascii :=
  let n := nat_of_ascii ch in
  if ((65 <=? n)%nat && (n <=? 90)%nat) ||
     ((192 <=? n)%nat && (n <=? 222)%nat && negb (n =? 215)%nat)
  then ascii_of_nat (n + 32)
  else ch.

Fixpoint toLowerCase (s : string) : string :=
  match s with
  | EmptyString => EmptyString
  | String ch rest => String (toLowerChar ch) (toLowerCase rest)
  end.

(** The lookup of the extension in [mimeTypes] (an absent extension is
    looked up as the empty string), with "video/mp4" for a name that is not
    found.  Of the names every object inherits, the two written in lower
    case, "constructor" and "__proto__", are found by the lookup and are
    truthy. *)
Definition mimeTypeOf (ext : string) : HeaderValue :=
  if String.eqb ext "webm" then HeaderString "video/webm"
  else if String.eqb ext "mp4" then HeaderString "video/mp4"
  else if String.eqb ext "avi" then HeaderString "video/avi"
  else if String.eqb ext "mov" then HeaderString "video/quicktime"
  else if String.eqb ext "constructor" || String.eqb ext "__proto__" then HeaderObject
  else HeaderString "video/mp4".

Definition streamRawVideo (id : string) (w : World) : AppError + FileResponse :=
  match db w !! id with
  | None => inl (NotFound "Recording")
  | Some recording =>
      if negb (truthy (filePath recording)) then inl (NotFound "Raw video file")
      else
        match files w !! filePath recording with
        | None => inl (NotFound "Raw video file")
        | Some d =>
            let ext := toLowerCase (lastSegment (filePath recording)) in
            inr {| contentType := mimeTypeOf ext;
                   contentDisposition := None;
                   acceptRanges := Some "bytes";
                   streamedPath := filePath recording;
                   body := d |}
        end
  end.

(** ** Token lifetimes ([utils/jwt.util.ts]) *)

Definition isDigit (ch : ascii) : bool :=
  let n := nat_of_ascii ch in (48 <=? n)%nat && (n <=? 57)%nat.

Fixpoint allDigits (s : string) : bool :=
  match s with
  | EmptyString => true
  | String ch rest => isDigit ch && allDigits rest
  end.

Definition digitValue (ch : ascii) : N := N.of_nat (nat_of_ascii ch - 48).

(** [parseInt(digits, 10)] on a string of decimal digits, read from the
    left.  Numbers are natural numbers here; JavaScript's are doubles, which
    agree with them below 2^53. *)
Fixpoint parseIntFrom (acc : N) (digits : string) : N :=
  match digits with
  | EmptyString => acc
  | String ch rest => parseIntFrom (acc * 10 + digitValue ch) rest
  end.

Definition parseInt (digits : string) : N := parseIntFrom 0 digits.

(** A string without its last character, and that character. *)
Fixpoint splitLast (s : string) : option (string * ascii) :=
  match s with
  | EmptyString => None
  | String ch rest =>
      match splitLast rest with
      | None => Some (EmptyString, ch)
      | Some (init, last) => Some (String ch init, last)
      end
  end.

Definition isUnit (ch : ascii) : bool :=
  Ascii.eqb ch "s" || Ascii.eqb ch "m" || Ascii.eqb ch "h" || Ascii.eqb ch "d".

(** [expiry.match(/^(\d+)([smhd])$/)]: the two groups of a match. *)
Definition matchExpiry (expiry : string) : option (string * ascii) :=
  match splitLast expiry with
  | Some (digits, unit) =>
      if truthy digits && allDigits digits && isUnit unit then Some (digits, unit) else None
  | None => None
  end.

Definition parseExpiryToMs (expiry : string) : N :=
  match matchExpiry expiry with
  | None => 7 * 24 * 60 * 60 * 1000
  | Some (digits, unit) =>
      let value := parseInt digits in
      if Ascii.eqb unit "s" then value * 1000
      else if Ascii.eqb unit "m" then value * 60 * 1000
      else if Ascii.eqb unit "h" then value * 60 * 60 * 1000
      else if Ascii.eqb unit "d" then value * 24 * 60 * 60 * 1000
      else 7 * 24 * 60 * 60 * 1000
  end%N.

(** ** Authentication ([middleware/auth.middleware.ts]) *)

(** [DecodedToken]: what a verified token carries. *)
Record DecodedToken := { tok_userId : string; tok_email : string }.

(** [req.query.token]: absent, a string, or a parsed array or object. *)
Inductive QueryValue :=
| QueryAbsent
| QueryString (s : string)
| QueryOther.

(** What the middleware reads of a request; [req.user] is not set when the
    request comes in. *)
Record Request := {
  authorization : option string;
  query_token : QueryValue
}.

(** The middleware either calls [next()] with [req.user] set, or answers. *)
Inductive AuthResult :=
| Next (user : DecodedToken)
| Denied (httpStatus : N) (error : string) (code : string).

(** What follows the first space of a string, if it has one. *)
Fixpoint afterSpace (s : string) : option string :=
  match s with
  | EmptyString => None
  | String ch rest => if Ascii.eqb ch " " then Some rest else afterSpace rest
  end.

(** A string up to its first space. *)
Fixpoint untilSpace (s : string) : string :=
  match s with
  | EmptyString => EmptyString
  | String ch rest => if Ascii.eqb ch " " then EmptyString else String ch (untilSpace rest)
  end.

(** [s.split(" ")[1]]: [None] is [undefined]. *)
Definition secondWord (s : string) : option string :=
  option_map untilSpace (afterSpace s).

(** [authHeader && authHeader.startsWith("Bearer ")] *)
Definition isBearer (authHeader : option string) : bool :=
  match authHeader with
  | Some h => truthy h && String.prefix "Bearer " h
  | None => false
  end.

Section Auth.

(** [verifyAccessToken]: the signature check of the token library, which
    returns [null] instead of throwing. *)
Variable verifyAccessToken : string -> option DecodedToken.

Definition authMiddleware (req : Request) : AuthResult :=
  let token :=
    if isBearer (authorization req)
    then secondWord (default EmptyString (authorization req))
    else match query_token req with
         | QueryString s => if truthy s then Some s else None
         | QueryAbsent | QueryOther => None
         end in
  if negb (truthy (default EmptyString token)) then
    Denied 401 "Access token required" "NO_TOKEN"
  else
    match verifyAccessToken (default EmptyString token) with
    | None => Denied 401 "Invalid or expired access token" "INVALID_TOKEN"
    | Some decoded => Next decoded
    end.

(** [optionalAuthMiddleware] always calls [next()]; the result is
    [req.user]. *)
Definition optionalAuthMiddleware (req : Request) : option DecodedToken :=
  if isBearer (authorization req)
  then verifyAccessToken
         (default EmptyString (secondWord (default EmptyString (authorization req))))
  else None.

End Auth.

(** ** The workers and the controllers *)

Section Pipeline.

(** [env.UPLOAD_DIR] *)
Variable UPLOAD_DIR : string.

Definition getRecordingDirectory (rid : string) : string :=
  path_join UPLOAD_DIR rid.

Definition getRecordingPaths (rid : string) : Paths.t :=
  let dir := getRecordingDirectory rid in
  {| Paths.directory := dir;
     Paths.rawVideo := path_join dir "raw.webm";
     Paths.events := path_join dir "events.json";
     Paths.audio := path_join dir "audio.wav";
     Paths.transcript := path_join dir "transcript.txt";
     Paths.voiceover := path_join dir "voiceover.wav";
     Paths.zoomedVideo := path_join dir "zoomed.mp4";
     Paths.finalVideo := path_join dir "final.mp4" |}.

(** *** The unified worker ([recordingWorker]) *)

Definition processExtractAudio (c : Collab) (rid : string) : M JobReturn :=
  findByIdAndUpdate rid
    [ Set_status RecordingStatus.PROCESSING;
      Set_currentStep ProcessingStep.EXTRACTING_AUDIO;
      Set_processingStartedAt (now c) ] >>
  emitProcessingUpdate rid ProcessingStep.EXTRACTING_AUDIO >>
  let paths := getRecordingPaths rid in
  extractAudio c (Paths.rawVideo paths) (Paths.audio paths) >>
  findByIdAndUpdate rid [ Set_audioPath (Paths.audio paths) ] >>
  addNextJob JobType.EXTRACT_AUDIO rid >>
  ret (Success "audioPath" (Paths.audio paths)).

Definition processTranscribe (c : Collab) (rid : string) : M JobReturn :=
  findByIdAndUpdate rid [ Set_currentStep ProcessingStep.TRANSCRIBING ] >>
  emitProcessingUpdate rid ProcessingStep.TRANSCRIBING >>
  let paths := getRecordingPaths rid in
  let! transcript := transcribeAudio c (Paths.audio paths) rid in
  saveFile (Paths.transcript paths) (Text transcript) >>
  findByIdAndUpdate rid
    [ Set_transcript transcript; Set_transcriptPath (Paths.transcript paths) ] >>
  findByIdAndUpdate rid
    [ Set_status RecordingStatus.DRAFT_READY;
      Set_currentStep ProcessingStep.COMPLETED ] >>
  emitProcessingUpdate rid ProcessingStep.COMPLETED >>
  ret (Success "transcript" transcript).

Definition NO_TRANSCRIPT : string := "[No transcript available]".

Definition processAI (c : Collab) (rid : string) (targetLanguage : option Language)
    : M JobReturn :=
  let targetLanguage := default (Lang "en") targetLanguage in
  findByIdAndUpdate rid [ Set_currentStep ProcessingStep.AI_PROCESSING ] >>
  emitProcessingUpdate rid ProcessingStep.AI_PROCESSING >>
  let! recording := findById rid in
  match recording with
  | None => throw {| class := PlainError; message := "Recording not found: " +:+ rid |}
  | Some recording =>
      let paths := getRecordingPaths rid in
      let transcript := orElse (transcript recording) EmptyString in
      let! domEvents := readJsonFile (Paths.events paths) in
      if negb (truthy transcript) || (String.length (trim transcript) =? 0)%nat then
        (let! audioExists := existsSync (Paths.audio paths) in
         if audioExists
         then copyFileSync (Paths.audio paths) (Paths.voiceover paths)
         else writeFileSync (Paths.voiceover paths) EmptyString) >>
        findByIdAndUpdate rid
          [ Set_cleanedScript NO_TRANSCRIPT;
            Set_voiceoverPath (Paths.voiceover paths) ] >>
        addNextJob JobType.AI_PROCESS rid >>
        ret (Success "cleanedScript" NO_TRANSCRIPT)
      else
        let! result := processWithAI c transcript domEvents rid (Some targetLanguage) in
        saveBase64File (Paths.voiceover paths) (snd result) >>
        findByIdAndUpdate rid
          [ Set_cleanedScript (fst result);
            Set_voiceoverPath (Paths.voiceover paths) ] >>
        addNextJob JobType.AI_PROCESS rid >>
        ret (Success "cleanedScript" (fst result))
  end.

(** [e.type === "click" && e.coordinates] *)
Definition isClickWithCoordinates (e : DOMEvent) : bool :=
  String.eqb (type e) "click" &&
  match coordinates e with Some _ => true | None => false end.

Definition processZoom (c : Collab) (rid : string) : M JobReturn :=
  findByIdAndUpdate rid [ Set_currentStep ProcessingStep.APPLYING_ZOOM_EFFECTS ] >>
  emitProcessingUpdate rid ProcessingStep.APPLYING_ZOOM_EFFECTS >>
  let paths := getRecordingPaths rid in
  let! domEvents :=
    tryCatch (readJsonFile (Paths.events paths)) (fun err => ret []) in
  let! clickEvents :=
    match filterEvents isClickWithCoordinates domEvents with
    | Some clickEvents => ret clickEvents
    | None => throw (nullTypeError "type")
    end in
  tryCatch
    (if (0 <? length clickEvents)%nat then
       applyZoomEffects c (Paths.rawVideo paths) (Paths.zoomedVideo paths) domEvents rid >>
       findByIdAndUpdate rid [ Set_zoomedVideoPath (Paths.zoomedVideo paths) ]
     else
       findByIdAndUpdate rid [ Set_zoomedVideoPath (Paths.rawVideo paths) ])
    (fun error =>
       findByIdAndUpdate rid [ Set_zoomedVideoPath (Paths.rawVideo paths) ]) >>
  addNextJob JobType.APPLY_ZOOM rid >>
  ret (Success "zoomedVideoPath"
         (orElse (Some (Paths.zoomedVideo paths)) (Paths.rawVideo paths))).

Definition processMerge (c : Collab) (rid : string) : M JobReturn :=
  findByIdAndUpdate rid [ Set_currentStep ProcessingStep.MERGING ] >>
  emitProcessingUpdate rid ProcessingStep.MERGING >>
  let! recording := findById rid in
  match recording with
  | None => throw {| class := PlainError; message := "Recording not found: " +:+ rid |}
  | Some recording =>
      let paths := getRecordingPaths rid in
      let videoPath := orElse (zoomedVideoPath recording) (Paths.rawVideo paths) in
      mergeAudioVideo c videoPath (Paths.voiceover paths) (Paths.finalVideo paths) rid >>
      findByIdAndUpdate rid
        [ Set_status RecordingStatus.COMPLETED;
          Set_currentStep ProcessingStep.COMPLETED;
          Set_finalVideoPath (Paths.finalVideo paths);
          Set_processingCompletedAt (now c) ] >>
      emitProcessingUpdate rid ProcessingStep.COMPLETED >>
      ret (Success "finalVideoPath" (Paths.finalVideo paths))
  end.

(** The processor of [recordingWorker]: a switch on [job.name]. *)
Definition recordingWorker (c : Collab) (job : Job) : M JobReturn :=
  let rid := recordingId (data job) in
  tryCatch
    (match name job with
     | JobType.EXTRACT_AUDIO => processExtractAudio c rid
     | JobType.TRANSCRIBE => processTranscribe c rid
     | JobType.AI_PROCESS => processAI c rid (data_targetLanguage (data job))
     | JobType.APPLY_ZOOM => processZoom c rid
     | JobType.MERGE => processMerge c rid
     | JobType.START_PROCESSING =>
         ret (UnknownJob ("Unknown job type: " +:+ JobType.value (name job)))
     end)
    (fun error => throw error).

(** [recordingWorker.on("failed", ...)] *)
Definition onFailed (job : Job) (error : Error) : M unit :=
  if truthy (recordingId (data job)) then
    let errorMessage :=
      if truthy (message error) then message error
      else "Unknown error occurred during processing" in
    findByIdAndUpdate (recordingId (data job))
      [ Set_status RecordingStatus.FAILED;
        Set_currentStep ProcessingStep.FAILED;
        Set_errorMessage errorMessage ] >>
    emitProcessingUpdate (recordingId (data job)) ProcessingStep.FAILED >>
    emitError (recordingId (data job)) errorMessage
  else ret tt.

(** *** The controllers *)

(** [uploadRecording], after validation: [rid] is the generated uuid,
    [video] what the uploaded file holds and [events] the parsed array
    (any array passes the validation).  The schema of the store gives a new
    record the target language "en". *)
Definition uploadRecording (rid : string) (video : FileData)
    (events : list (option DOMEvent)) (title description userId : option string) : M unit :=
  let paths := getRecordingPaths rid in
  tryCatch
    (saveFile (Paths.rawVideo paths) video >>
     saveFile (Paths.events paths) (Json events) >>
     saveNew
     {| _id := rid;
        filePath := Paths.rawVideo paths;
        eventsPath := Paths.events paths;
        audioPath := None; transcriptPath := None; zoomedVideoPath := None;
        voiceoverPath := None; finalVideoPath := None;
        cleanedScript := None; transcript := None;
        status := RecordingStatus.UPLOADED;
        currentStep := None;
        title := Some (if truthy (default EmptyString title) then default EmptyString title
                       else "Recording " +:+ substring0 8 rid);
        description := description;
        targetLanguage := Some (Lang "en");
        userId := userId;
        errorMessage := None;
        processingStartedAt := None; processingCompletedAt := None |} >>
     addProcessingJob rid)
    (fun error => deleteDirectory (Paths.directory paths) >> throw error).

Definition notFound : Error :=
  {| class := NotFoundError; message := "Recording not found" |}.

(** [processRecording]: [language] is [req.body.language], which the route
    hands over as the request carries it: absent, a string, or [null]. *)
Definition processRecording (dateNow : N) (id : string) (language : option Language)
    : M unit :=
  let language := default (Lang "en") language in
  let! recording := findById id in
  match recording with
  | None => throw notFound
  | Some recording =>
      (if negb (RecordingStatus.eqb (status recording) RecordingStatus.DRAFT_READY) &&
          negb (RecordingStatus.eqb (status recording) RecordingStatus.COMPLETED) &&
          negb (RecordingStatus.eqb (status recording) RecordingStatus.FAILED)
       then consoleLog ("[PROCESS] Recording status is " +:+
                        RecordingStatus.value (status recording) +:+ ", expected DRAFT_READY")
       else ret tt) >>
      findByIdAndUpdate id
        [ Set_status RecordingStatus.PROCESSING;
          Set_currentStep ProcessingStep.AI_PROCESSING;
          Set_targetLanguage language;
          Unset_errorMessage ] >>
      addFinalProcessingJob dateNow id (Some language)
  end.

Definition deleteRecording (id : string) : M unit :=
  let! recording := findById id in
  match recording with
  | None => throw notFound
  | Some _ =>
      deleteDirectory (Paths.directory (getRecordingPaths id)) >>
      findByIdAndDelete id
  end.

(** *** The stage-specific workers

    [transcriptionWorker], [aiWorker], [zoomWorker] and [mergeWorker] are
    separate consumers of the same queue, each handling one job name and
    returning at once on any other.  The unified worker above does not load
    them. *)

Definition failedWith (rid : string) (error : Error) (fallback : string) : M unit :=
  findByIdAndUpdate rid
    [ Set_status RecordingStatus.FAILED;
      Set_currentStep ProcessingStep.FAILED;
      Set_errorMessage (if isError error then message error else fallback) ] >>
  emitProcessingUpdate rid ProcessingStep.FAILED.

Definition transcriptionWorker (c : Collab) (job : Job) : M JobReturn :=
  if negb (JobType.eqb (name job) JobType.TRANSCRIBE) then ret Skipped
  else
    let rid := recordingId (data job) in
    tryCatch
      (findByIdAndUpdate rid [ Set_currentStep ProcessingStep.TRANSCRIBING ] >>
       emitProcessingUpdate rid ProcessingStep.TRANSCRIBING >>
       let paths := getRecordingPaths rid in
       let! transcript := transcribeAudio c (Paths.audio paths) rid in
       saveFile (Paths.transcript paths) (Text transcript) >>
       findByIdAndUpdate rid
         [ Set_transcript transcript; Set_transcriptPath (Paths.transcript paths) ] >>
       addNextJob JobType.TRANSCRIBE rid >>
       ret (Success "transcript" transcript))
      (fun error => failedWith rid error "Transcription failed" >> throw error).

Definition aiWorker (c : Collab) (job : Job) : M JobReturn :=
  if negb (JobType.eqb (name job) JobType.AI_PROCESS) then ret Skipped
  else
    let rid := recordingId (data job) in
    tryCatch
      (findByIdAndUpdate rid [ Set_currentStep ProcessingStep.AI_PROCESSING ] >>
       emitProcessingUpdate rid ProcessingStep.AI_PROCESSING >>
       let! recording := findById rid in
       match recording with
       | None => throw {| class := PlainError; message := "Recording not found: " +:+ rid |}
       | Some recording =>
           let paths := getRecordingPaths rid in
           let transcript := orElse (transcript recording) EmptyString in
           let! domEvents := readJsonFile (Paths.events paths) in
           let! result := processWithAI c transcript domEvents rid None in
           saveBase64File (Paths.voiceover paths) (snd result) >>
           findByIdAndUpdate rid
             [ Set_cleanedScript (fst result);
               Set_voiceoverPath (Paths.voiceover paths) ] >>
           addNextJob JobType.AI_PROCESS rid >>
           ret (Success "cleanedScript" (fst result))
       end)
      (fun error => failedWith rid error "AI processing failed" >> throw error).

Definition zoomWorker (c : Collab) (job : Job) : M JobReturn :=
  if negb (JobType.eqb (name job) JobType.APPLY_ZOOM) then ret Skipped
  else
    let rid := recordingId (data job) in
    tryCatch
      (findByIdAndUpdate rid [ Set_currentStep ProcessingStep.APPLYING_ZOOM_EFFECTS ] >>
       emitProcessingUpdate rid ProcessingStep.APPLYING_ZOOM_EFFECTS >>
       let paths := getRecordingPaths rid in
       let! domEvents := readJsonFile (Paths.events paths) in
       applyZoomEffects c (Paths.rawVideo paths) (Paths.zoomedVideo paths) domEvents rid >>
       findByIdAndUpdate rid [ Set_zoomedVideoPath (Paths.zoomedVideo paths) ] >>
       addNextJob JobType.APPLY_ZOOM rid >>
       ret (Success "zoomedVideoPath" (Paths.zoomedVideo paths)))
      (fun error => failedWith rid error "Zoom effects failed" >> throw error).

Definition mergeWorker (c : Collab) (job : Job) : M JobReturn :=
  if negb (JobType.eqb (name job) JobType.MERGE) then ret Skipped
  else
    let rid := recordingId (data job) in
    tryCatch
      (findByIdAndUpdate rid [ Set_currentStep ProcessingStep.MERGING ] >>
       emitProcessingUpdate rid ProcessingStep.APPLYING_ZOOM_EFFECTS >>
       let paths := getRecordingPaths rid in
       mergeAudioVideo c (Paths.zoomedVideo paths) (Paths.voiceover paths)
         (Paths.finalVideo paths) rid >>
       findByIdAndUpdate rid
         [ Set_status RecordingStatus.COMPLETED;
           Set_currentStep ProcessingStep.COMPLETED;
           Set_finalVideoPath (Paths.finalVideo paths);
           Set_processingCompletedAt (now c) ] >>
       emitProcessingUpdate rid ProcessingStep.COMPLETED >>
       ret (Success "finalVideoPath" (Paths.finalVideo paths)))
      (fun error => failedWith rid error "Merge failed" >> throw error).

(** [extractAudioWorker], the stage-specific worker of the first stage. *)
Definition extractAudioWorker (c : Collab) (job : Job) : M JobReturn :=
  if negb (JobType.eqb (name job) JobType.EXTRACT_AUDIO) then ret Skipped
  else
    let rid := recordingId (data job) in
    tryCatch
      (findByIdAndUpdate rid
         [ Set_status RecordingStatus.PROCESSING;
           Set_currentStep ProcessingStep.EXTRACTING_AUDIO;
           Set_processingStartedAt (now c) ] >>
       emitProcessingUpdate rid ProcessingStep.EXTRACTING_AUDIO >>
       let paths := getRecordingPaths rid in
       extractAudio c (Paths.rawVideo paths) (Paths.audio paths) >>
       findByIdAndUpdate rid [ Set_audioPath (Paths.audio paths) ] >>
       addNextJob JobType.EXTRACT_AUDIO rid >>
       ret (Success "audioPath" (Paths.audio paths)))
      (fun error => failedWith rid error "Audio extraction failed" >> throw error).

(** [router.post("/", optionalAuthMiddleware, upload.single("video"),
    uploadRecording)]: the uploader is [req.user?.userId]. *)
Definition postRecording (verifyAccessToken : string -> option DecodedToken) (req : Request)
    (rid : string) (video : FileData) (events : list (option DOMEvent))
    (title description : option string) : M unit :=
  let user := optionalAuthMiddleware verifyAccessToken req in
  uploadRecording rid video events title description (option_map tok_userId user).

(** *** Running the queue *)

Definition runnable (job : Job) : bool :=
  match state job with
  | Waiting | Delayed _ => true
  | Active | Completed | Parked => false
  end.

(** Modelled from the spec: the queue library's delivery of a job to the
    worker is not part of the sources.  The job at position [i] becomes
    active and is handed to [recordingWorker]; when the processor returns
    the job is completed; when it throws, the attempt is counted, the job
    is delayed for a retry or parked ([afterFailure]) and the worker's
    "failed" listener runs. *)
Definition runJob (c : Collab) (i : nat) (job : Job) : M unit :=
  fun w =>
    let w1 := with_queue <[i := setState Active job]> w in
    match recordingWorker c job w1 with
    | (Ok _, w2) => (Ok tt, with_queue <[i := setState Completed job]> w2)
    | (Throw error, w2) =>
        let job' := countAttempt job in
        onFailed job' error
          (with_queue <[i := setState (afterFailure (attemptsMade job')) job']> w2)
    end.

(** One step of the system: an upload (with a fresh id, as a uuid is), a
    process request, a deletion, or the run of a pending job by the unified
    worker under some answers of the collaborators.  A request or a job run
    is one step: what two of them do when they overlap in time is not
    modelled. *)
Inductive step : World -> World -> Prop :=
| step_upload rid video events title description userId w :
    db w !! rid = None ->
    (forall j, j ∈ queue w -> recordingId (data j) <> rid) ->
    step w (snd (uploadRecording rid video events title description userId w))
| step_process dateNow id language w :
    step w (snd (processRecording dateNow id language w))
| step_delete id w :
    step w (snd (deleteRecording id w))
| step_job c i job w :
    queue w !! i = Some job ->
    runnable job = true ->
    step w (snd (runJob c i job w)).

Definition reachable (w : World) : Prop := rtc step emptyWorld w.

(** ** Specification vocabulary *)

(** *** A small program logic for handlers

    [hoare P m Q E]: from a world satisfying [P], the computation [m] ends in
    a world satisfying [Q a] when it returns [a] and [E] when it throws. *)
Definition Assertion : Type := World -> Prop.

Definition hoare {A} (P : Assertion) (m : M A) (Q : A -> Assertion) (E : Assertion) : Prop :=
  forall w, P w ->
    match m w with
    | (Ok a, w') => Q a w'
    | (Throw _, w') => E w'
    end.

(** [m] touches neither the record store nor the queue. *)
Definition frame {A} (m : M A) : Prop :=
  forall w, db (snd (m w)) = db w /\ queue (snd (m w)) = queue w.

(** An assertion that reads only the record store and the queue. *)
Definition storeOnly (P : Assertion) : Prop :=
  forall w w', db w' = db w -> queue w' = queue w -> P w -> P w'.

(** *** The status invariant *)

Definition rec_ok (r : Recording) : Prop :=
  (status r = RecordingStatus.COMPLETED ->
     is_Some (finalVideoPath r) /\ is_Some (voiceoverPath r) /\
     is_Some (zoomedVideoPath r)) /\
  (status r = RecordingStatus.FAILED -> is_Some (errorMessage r)).

(** What a queued job may rely on in the record it targets. *)
Definition job_ok (n : JobType.t) (r : Recording) : Prop :=
  (n = JobType.APPLY_ZOOM -> is_Some (voiceoverPath r)) /\
  (n = JobType.MERGE -> is_Some (voiceoverPath r) /\ is_Some (zoomedVideoPath r)).

Definition Inv : Assertion := fun w =>
  (forall id r, db w !! id = Some r -> rec_ok r) /\
  (forall j r, j ∈ queue w -> db w !! recordingId (data j) = Some r -> job_ok (name j) r).

Definition voiceoverKnown (rid : string) : Assertion := fun w =>
  forall r, db w !! rid = Some r -> is_Some (voiceoverPath r).

Definition zoomedKnown (rid : string) : Assertion := fun w =>
  forall r, db w !! rid = Some r -> is_Some (zoomedVideoPath r).

(** The invariant together with what is known of the record [rid]. *)
Definition K (v z : bool) (rid : string) : Assertion := fun w =>
  Inv w /\ (v = true -> voiceoverKnown rid w) /\ (z = true -> zoomedKnown rid w).

Definition setsVoiceover (us : list Assign) : bool :=
  existsb (fun u => match u with Set_voiceoverPath _ => true | _ => false end) us.

Definition setsZoomed (us : list Assign) : bool :=
  existsb (fun u => match u with Set_zoomedVideoPath _ => true | _ => false end) us.

(** An update document that keeps [rec_ok], given what is known. *)
Definition admissible (v z : bool) (us : list Assign) : Prop :=
  forall r, rec_ok r ->
    (v = true -> is_Some (voiceoverPath r)) ->
    (z = true -> is_Some (zoomedVideoPath r)) ->
    rec_ok (assignAll us r).

(** *** The fields re-processing must leave alone *)

Definition sameInputs (r r' : Recording) : Prop :=
  _id r' = _id r /\ filePath r' = filePath r /\ eventsPath r' = eventsPath r /\
  audioPath r' = audioPath r /\ transcriptPath r' = transcriptPath r /\
  transcript r' = transcript r /\ title r' = title r /\
  description r' = description r /\ userId r' = userId r.

Definition keepsInputs (r0 : Recording) (rid : string) : Assertion := fun w =>
  exists r, db w !! rid = Some r /\ sameInputs r0 r.

(** *** Empty transcripts *)

Definition onlyWhiteSpace (s : string) : Prop :=
  Forall (fun c => isWhiteSpace c = true) (list_ascii_of_string s).

Definition emptyTranscript (r : Recording) : Prop :=
  match transcript r with
  | None => True
  | Some s => onlyWhiteSpace s
  end.

(** *** Vocabulary of the stages, the keys and the retries *)

(** What the job [n] needs to be known of its record before it is queued. *)
Definition needs (n : JobType.t) (v z : bool) : Prop :=
  (n = JobType.APPLY_ZOOM -> v = true) /\
  (n = JobType.MERGE -> v = true /\ z = true).

(** What is known of the record a queued job of name [n] targets. *)
Definition knows (n : JobType.t) : bool * bool :=
  match n with
  | JobType.APPLY_ZOOM => (true, false)
  | JobType.MERGE => (true, true)
  | _ => (false, false)
  end.

Definition J (job : Job) : Assertion :=
  K (fst (knows (name job))) (snd (knows (name job))) (recordingId (data job)).

(** The interaction events the zoom stage reads: those of the events file,
    [null] elements included, and none when the file cannot be read. *)
Definition recordedEvents (w : World) (rid : string) : list (option DOMEvent) :=
  match files w !! Paths.events (getRecordingPaths rid) with
  | Some (Json evs) => evs
  | _ => []
  end.

Definition aiProcessKey (id : string) (t : N) : string :=
  "ai-process-" +:+ id +:+ "-" +:+ pretty t.

Definition aiProcessJob (id : string) (lang : Language) (t : N) : Job :=
  {| name := JobType.AI_PROCESS;
     data := {| recordingId := id; data_targetLanguage := Some lang |};
     jobId := aiProcessKey id t;
     attemptsMade := 0;
     state := Waiting |}.

(** The assignments of the AI stage and later. *)
Definition lateField (u : Assign) : bool :=
  match u with
  | Set_audioPath _ | Set_transcriptPath _ | Set_transcript _ => false
  | _ => true
  end.

(** The key under which the job of a stage is queued by [addNextJob]. *)
Definition stageKey (stage : JobType.t) (rid : string) : string :=
  JobType.value stage +:+ "-" +:+ rid.

(** The pending or active jobs of a queue that carry the key [k]. *)
Definition liveWithKey (k : string) (q : list Job) : list Job :=
  List.filter (fun j => live j && String.eqb (jobId j) k) q.

(** The three failures [processWithAI] tells apart in an axios error. *)
Inductive SynthesisFailure := Unreachable | TimedOut | RejectedInput.

Definition failureKind (e : Error) : option SynthesisFailure :=
  match class e with
  | AxiosError code status detail =>
      if bool_decide (code = Some "ECONNREFUSED") then Some Unreachable
      else if bool_decide (code = Some "ETIMEDOUT") || bool_decide (code = Some "ECONNABORTED")
      then Some TimedOut
      else if bool_decide (status = Some 400%N) then Some RejectedInput
      else None
  | _ => None
  end.

(** The record's transcript is sent to the synthesis server: it is neither
    empty nor blank. *)
Definition needsSynthesis (r : Recording) : bool :=
  negb (negb (truthy (orElse (transcript r) EmptyString)) ||
        (String.length (trim (orElse (transcript r) EmptyString)) =? 0)%nat).

(** A job that failed and is scheduled for another attempt. *)
Definition retried (j : Job) : Prop := exists delay, state j = Delayed delay.

Definition synthesisMessage (e : Error) : string :=
  match class e with
  | AxiosError code status detail =>
      if bool_decide (code = Some "ECONNREFUSED") then "Python AI server is not available"
      else if bool_decide (code = Some "ETIMEDOUT") || bool_decide (code = Some "ECONNABORTED")
      then "Python AI server request timed out"
      else if bool_decide (status = Some 400%N)
      then "Python AI server rejected request: " +:+ orElse detail (message e)
      else "Python AI server error: " +:+ message e
  | ProcessingError => message e
  | _ => "AI processing failed: " +:+ (if isError e then message e else "Unknown error")
  end.

(** *** Vocabulary of the further properties *)

(** Every change made to the record store [d0] is a change of the record
    [rid]. *)
Definition altersOnly (rid : string) (d0 : gmap string Recording) : Assertion :=
  fun w => exists f, db w = alter f rid d0.

(** Between [w] and [w'] no record but [rid] has changed, and no record
    has been created or removed. *)
Definition sameRecordsBut (rid : string) (w w' : World) : Prop :=
  (forall id, id <> rid -> db w' !! id = db w !! id) /\
  (forall id, is_Some (db w' !! id) <-> is_Some (db w !! id)).

(** [p] lies in the directory [dirPath]. *)
Definition inDirectory (dirPath p : string) : bool :=
  String.prefix (dirPath +:+ "/") p.

(** [m] leaves every file outside the directory [dirPath] as it is. *)
Definition writesUnder {A} (dirPath : string) (m : M A) : Prop :=
  forall w p, inDirectory dirPath p = false -> files (snd (m w)) !! p = files w !! p.

(** The units [parseExpiryToMs] knows, in milliseconds. *)
Definition unitMs (u : ascii) : N :=
  if Ascii.eqb u "s" then 1000
  else if Ascii.eqb u "m" then 60000
  else if Ascii.eqb u "h" then 3600000
  else 86400000.

(** The record stored under [id] follows the file layout of its recording:
    it carries that id, every path it holds is the conventional path of the
    artifact (the zoomed video may also be the raw video), and the fields
    written together are set together. *)
Definition conventional (id : string) (r : Recording) : Prop :=
  let paths := getRecordingPaths id in
  _id r = id /\
  filePath r = Paths.rawVideo paths /\
  eventsPath r = Paths.events paths /\
  (forall p, audioPath r = Some p -> p = Paths.audio paths) /\
  (forall p, transcriptPath r = Some p -> p = Paths.transcript paths) /\
  (forall p, voiceoverPath r = Some p -> p = Paths.voiceover paths) /\
  (forall p, zoomedVideoPath r = Some p ->
     p = Paths.zoomedVideo paths \/ p = Paths.rawVideo paths) /\
  (forall p, finalVideoPath r = Some p -> p = Paths.finalVideo paths) /\
  (is_Some (transcript r) <-> is_Some (transcriptPath r)) /\
  (is_Some (cleanedScript r) <-> is_Some (voiceoverPath r)) /\
  (is_Some (finalVideoPath r) <-> is_Some (processingCompletedAt r)) /\
  (exists t, title r = Some t /\ truthy t = true).

Definition Conventional : Assertion := fun w =>
  forall id r, db w !! id = Some r -> conventional id r.

(** The status update published for a step of a recording. *)
Definition stepUpdate (rid : string) (step : ProcessingStep.t) : StatusEvent :=
  {| channel := PROCESSING_UPDATE; ev_recordingId := rid; ev_step := step; ev_error := None |}.

(** The error event published for a recording. *)
Definition errorEvent (rid : string) (error : string) : StatusEvent :=
  {| channel := PROCESSING_ERROR; ev_recordingId := rid;
     ev_step := ProcessingStep.FAILED; ev_error := Some error |}.

(** The job [addNextJob] submits for a stage. *)
Definition stageData (rid : string) : RecordingJobData :=
  {| recordingId := rid; data_targetLanguage := None |}.

(** A reply of the synthesis server that [processWithAI] accepts: both
    fields present and not empty. *)
Definition validReply (c : Collab) (cs vo : string) : Prop :=
  axios_post c = Resolved (Some cs, Some vo) /\ truthy cs = true /\ truthy vo = true.

(** No element of the events is [null]. *)
Definition noNull (domEvents : list (option DOMEvent)) : bool :=
  forallb (fun e => match e with Some _ => true | None => false end) domEvents.

(** The clicks with coordinates among the events that are not [null]. *)
Definition clicks (domEvents : list (option DOMEvent)) : list DOMEvent :=
  List.filter isClickWithCoordinates (omap id domEvents).

(** What the zoom stage renders from events without a [null] element: the
    output of the zoom-effects collaborator when the recorded events hold a
    click with coordinates and the collaborator succeeds, nothing
    otherwise. *)
Definition rendered (c : Collab) (w : World) (rid : string) : option FileData :=
  match clicks (recordedEvents w rid), ffmpeg_applyZoomEffects c with
  | _ :: _, Resolved d => Some d
  | _, _ => None
  end.

(** The error message the "failed" listener stores and publishes. *)
Definition failureMessage (error : Error) : string :=
  if truthy (message error) then message error
  else "Unknown error occurred during processing".

(** The fields no stage handler of the final pipeline and no failure
    listener writes: the artifacts. *)
Definition sameArtifacts (r r' : Recording) : Prop :=
  audioPath r' = audioPath r /\ transcriptPath r' = transcriptPath r /\
  zoomedVideoPath r' = zoomedVideoPath r /\ voiceoverPath r' = voiceoverPath r /\
  finalVideoPath r' = finalVideoPath r /\ cleanedScript r' = cleanedScript r /\
  transcript r' = transcript r.

(** The stage-specific workers, each with the message it stores when the
    value it caught is not an [Error]. *)
Definition stageWorkers : list ((Collab -> Job -> M JobReturn) * JobType.t * string) :=
  [ (extractAudioWorker, JobType.EXTRACT_AUDIO, "Audio extraction failed");
    (transcriptionWorker, JobType.TRANSCRIBE, "Transcription failed");
    (aiWorker, JobType.AI_PROCESS, "AI processing failed");
    (zoomWorker, JobType.APPLY_ZOOM, "Zoom effects failed");
    (mergeWorker, JobType.MERGE, "Merge failed") ].

(** The record [rid] exists and satisfies [P]. *)
Definition recordHas (P : Recording -> Prop) (rid : string) : Assertion :=
  fun w => exists r, db w !! rid = Some r /\ P r.

(** A string without a space. *)
Fixpoint noSpace (s : string) : bool :=
  match s with
  | EmptyString => true
  | String ch rest => negb (Ascii.eqb ch " ") && noSpace rest
  end.

(** What [authMiddleware] makes of the token [t]. *)
Definition judged (verifyAccessToken : string -> option DecodedToken) (t : string)
    : AuthResult :=
  if truthy t then
    match verifyAccessToken t with
    | Some decoded => Next decoded
    | None => Denied 401 "Invalid or expired access token" "INVALID_TOKEN"
    end
  else Denied 401 "Access token required" "NO_TOKEN".

(** ** Statements of the specification, as it words them *)

Definition artifactsSet (r : Recording) : Prop :=
  is_Some (finalVideoPath r) /\ is_Some (audioPath r) /\ is_Some (transcriptPath r) /\
  is_Some (voiceoverPath r) /\ is_Some (zoomedVideoPath r).

(** "For all recordings, status=COMPLETED if and only if finalVideoPath is
    set and every upstream artifact path is set", with "status=FAILED
    implies errorMessage set". *)
Definition completed_iff_artifacts : Prop :=
  forall w id r,
    reachable w ->
    db w !! id = Some r ->
    (status r = RecordingStatus.COMPLETED <-> artifactsSet r) /\
    (status r = RecordingStatus.FAILED -> is_Some (errorMessage r)).

(** "The core must not retry a rejected-input failure." *)
Definition rejected_input_not_retried : Prop :=
  forall c i job w r evs e,
    queue w !! i = Some job ->
    name job = JobType.AI_PROCESS ->
    recordingId (data job) <> EmptyString ->
    db w !! recordingId (data job) = Some r ->
    needsSynthesis r = true ->
    files w !! Paths.events (getRecordingPaths (recordingId (data job))) = Some (Json evs) ->
    axios_post c = Rejected e ->
    failureKind e = Some RejectedInput ->
    forall j', queue (snd (runJob c i job w)) !! i = Some j' -> ~ retried j'.

(** The specification speaks of "the stage handler" of a stage.  The
    sources hold two for each of the stages below: the processor of the
    unified worker ([recordingWorker], which runs [processTranscribe],
    [processAI], [processZoom] or [processMerge]) and the stage-specific
    worker.  Each statement is therefore said of a handler of jobs. *)

(** "When the TRANSCRIBE stage handler succeeds for a recording, it sets
    status to DRAFT_READY and currentStep to COMPLETED and enqueues no
    successor job." *)
Definition pauses_at_draft (handler : Collab -> Job -> M JobReturn) : Prop :=
  forall c job w r a,
    name job = JobType.TRANSCRIBE ->
    db w !! recordingId (data job) = Some r ->
    fst (handler c job w) = Ok a ->
    queue (snd (handler c job w)) = queue w /\
    exists r', db (snd (handler c job w)) !! recordingId (data job) = Some r' /\
      status r' = RecordingStatus.DRAFT_READY /\
      currentStep r' = Some ProcessingStep.COMPLETED.

(** "For every recording whose transcript is empty (absent or only
    whitespace), the AI_PROCESS stage handler never calls the synthesis
    collaborator; instead it sets cleanedScript to the sentinel value, sets
    voiceoverPath to a copy of the extracted audio (or to an empty file when
    no audio exists), and then enqueues the APPLY_ZOOM job." *)
Definition skips_synthesis (handler : Collab -> Job -> M JobReturn) : Prop :=
  forall c job w r,
    name job = JobType.AI_PROCESS ->
    db w !! recordingId (data job) = Some r ->
    emptyTranscript r ->
    let rid := recordingId (data job) in
    let paths := getRecordingPaths rid in
    let w' := snd (handler c job w) in
    synthesisCalls w' = synthesisCalls w /\
    (exists r', db w' !! rid = Some r' /\
       cleanedScript r' = Some NO_TRANSCRIPT /\
       voiceoverPath r' = Some (Paths.voiceover paths)) /\
    files w' !! Paths.voiceover paths =
      Some (default (Text EmptyString) (files w !! Paths.audio paths)) /\
    (exists j, j ∈ queue w' /\ name j = JobType.APPLY_ZOOM /\ recordingId (data j) = rid).

(** "If the recording's interaction events contain no click events carrying
    coordinates, zoomedVideoPath is set equal to the raw video path; if
    click events exist and the zoom-effects collaborator fails, the stage
    absorbs the error, sets zoomedVideoPath to the raw video path, and
    still enqueues MERGE -- a zoom-render failure never drives the
    recording to FAILED." *)
Definition absorbs_zoom_failure (handler : Collab -> Job -> M JobReturn) : Prop :=
  forall c job w r,
    name job = JobType.APPLY_ZOOM ->
    db w !! recordingId (data job) = Some r ->
    let rid := recordingId (data job) in
    let paths := getRecordingPaths rid in
    let w' := snd (handler c job w) in
    (clicks (recordedEvents w rid) = [] ->
       exists r', db w' !! rid = Some r' /\
         zoomedVideoPath r' = Some (Paths.rawVideo paths)) /\
    (clicks (recordedEvents w rid) <> [] ->
     (exists e, ffmpeg_applyZoomEffects c = Rejected e) ->
       (exists a, fst (handler c job w) = Ok a) /\
       (exists r', db w' !! rid = Some r' /\
          zoomedVideoPath r' = Some (Paths.rawVideo paths) /\
          status r' = status r) /\
       (exists j, j ∈ queue w' /\ name j = JobType.MERGE /\ recordingId (data j) = rid)).

(** "The MERGE stage reads the zoomedVideoPath currently recorded on the
    Recording Record and passes that path, not the conventional zoomed-file
    location, as the video input to the mux collaborator." *)
Definition muxes_recorded_path (handler : Collab -> Job -> M JobReturn) : Prop :=
  forall c job w r p,
    name job = JobType.MERGE ->
    db w !! recordingId (data job) = Some r ->
    zoomedVideoPath r = Some p ->
    p <> EmptyString ->
    exists call,
      muxCalls (snd (handler c job w)) = muxCalls w ++ [call] /\ mux_video call = p.

(** "For every stage except AI-processing, the enqueued job's dedup key is a
    deterministic function of the stage and the recording ID alone": one
    function of the stage and of the id gives the key of every job that
    [addProcessingJob] and [addNextJob] submit. *)
Definition key_of_stage_and_id : Prop :=
  exists key : JobType.t -> string -> string,
    forall rid w j,
      (j ∈ queue (snd (addProcessingJob rid w)) \/
       exists cur, j ∈ queue (snd (addNextJob cur rid w))) ->
      j ∉ queue w ->
      jobId j = key (name j) (recordingId (data j)).

(** "Multiple AI-processing submissions for the same recording coexist
    rather than being deduplicated": two submissions, neither of whose keys
    is pending or active beforehand, both join the queue. *)
Definition ai_submissions_coexist : Prop :=
  forall id lang1 lang2 t1 t2 w,
    keyLive (aiProcessKey id t1) (queue w) = false ->
    keyLive (aiProcessKey id t2) (queue w) = false ->
    queue (snd (addFinalProcessingJob t2 id lang2
                  (snd (addFinalProcessingJob t1 id lang1 w)))) =
      queue w ++ [ aiProcessJob id (default (Lang "en") lang1) t1;
                   aiProcessJob id (default (Lang "en") lang2) t2 ].

(** * Proofs *)

(** ** Rules of the program logic *)

Lemma hoare_ret {A} (P : Assertion) (a : A) (Q : A -> Assertion) (E : Assertion) :
  (forall w, P w -> Q a w) -> hoare P (ret a) Q E.
Proof. intros H w Hw. now apply H. Qed.

Lemma hoare_throw {A} (P : Assertion) (e : Error) (Q : A -> Assertion) (E : Assertion) :
  (forall w, P w -> E w) -> hoare P (throw e) Q E.
Proof. intros H w Hw. now apply H. Qed.

Lemma hoare_bind {A B} (P : Assertion) (m : M A) (k : A -> M B)
    (Q : A -> Assertion) (R : B -> Assertion) (E : Assertion) :
  hoare P m Q E -> (forall a, hoare (Q a) (k a) R E) -> hoare P (bind m k) R E.
Proof.
  intros Hm Hk w Hw. unfold bind. specialize (Hm w Hw).
  destruct (m w) as [[a|e] w']; [now apply Hk | exact Hm].
Qed.

Lemma hoare_tryCatch {A} (P : Assertion) (m : M A) (h : Error -> M A)
    (Q : A -> Assertion) (E' E : Assertion) :
  hoare P m Q E' -> (forall e, hoare E' (h e) Q E) -> hoare P (tryCatch m h) Q E.
Proof.
  intros Hm Hh w Hw. unfold tryCatch. specialize (Hm w Hw).
  destruct (m w) as [[a|e] w']; [exact Hm | now apply Hh].
Qed.

Lemma hoare_weaken {A} (P P' : Assertion) (m : M A) (Q Q' : A -> Assertion) (E E' : Assertion) :
  hoare P' m Q' E' ->
  (forall w, P w -> P' w) -> (forall a w, Q' a w -> Q a w) -> (forall w, E' w -> E w) ->
  hoare P m Q E.
Proof.
  intros Hm HP HQ HE w Hw. specialize (Hm w (HP w Hw)).
  destruct (m w) as [[a|e] w']; auto.
Qed.

Lemma hoare_frame {A} (P : Assertion) (m : M A) :
  storeOnly P -> frame m -> hoare P m (fun _ => P) P.
Proof.
  intros HP Hm w Hw. destruct (Hm w) as [Hd Hq].
  destruct (m w) as [[a|e] w']; simpl in *; eauto.
Qed.

(** The outcome of a computation that is known to satisfy a triple. *)
Lemma hoare_snd {A} (P : Assertion) (m : M A) (Q : Assertion) w :
  hoare P m (fun _ => Q) Q -> P w -> Q (snd (m w)).
Proof.
  intros Hm Hw. specialize (Hm w Hw). now destruct (m w) as [[a|e] w'].
Qed.

(** ** Computations that leave the store and the queue alone *)

Lemma frame_ret {A} (a : A) : frame (ret a).
Proof. now intros w. Qed.

Lemma frame_throw {A} (e : Error) : frame (@throw A e).
Proof. now intros w. Qed.

Lemma frame_bind {A B} (m : M A) (k : A -> M B) :
  frame m -> (forall a, frame (k a)) -> frame (bind m k).
Proof.
  intros Hm Hk w. unfold bind. specialize (Hm w).
  destruct (m w) as [[a|e] w']; simpl in *; [|exact Hm].
  destruct (Hk a w') as [Hd Hq]. destruct Hm as [Hd' Hq']. split; congruence.
Qed.

Lemma frame_tryCatch {A} (m : M A) (h : Error -> M A) :
  frame m -> (forall e, frame (h e)) -> frame (tryCatch m h).
Proof.
  intros Hm Hh w. unfold tryCatch. specialize (Hm w).
  destruct (m w) as [[a|e] w']; simpl in *; [exact Hm|].
  destruct (Hh e w') as [Hd Hq]. destruct Hm as [Hd' Hq']. split; congruence.
Qed.

Lemma frame_saveFile p d : frame (saveFile p d).
Proof. now intros w. Qed.

Lemma frame_readFileSync p : frame (readFileSync p).
Proof. intros w. unfold readFileSync. now destruct (files w !! p). Qed.

Lemma frame_readJsonFile p : frame (readJsonFile p).
Proof.
  apply frame_bind; [apply frame_readFileSync|].
  intros [s|evs|b]; first [apply frame_ret | apply frame_throw].
Qed.

Lemma frame_existsSync p : frame (existsSync p).
Proof. now intros w. Qed.

Lemma frame_copyFileSync a b : frame (copyFileSync a b).
Proof.
  apply frame_bind; [apply frame_readFileSync | intros d; apply frame_saveFile].
Qed.

Lemma frame_writeFileSync p s : frame (writeFileSync p s).
Proof. apply frame_saveFile. Qed.

Lemma frame_saveBase64File p s : frame (saveBase64File p s).
Proof. apply frame_saveFile. Qed.

Lemma frame_deleteDirectory p : frame (deleteDirectory p).
Proof. now intros w. Qed.

Lemma frame_consoleLog s : frame (consoleLog s).
Proof. now intros w. Qed.

Lemma frame_emitProcessingUpdate rid s : frame (emitProcessingUpdate rid s).
Proof. now intros w. Qed.

Lemma frame_emitError rid s : frame (emitError rid s).
Proof. now intros w. Qed.

Lemma frame_extractAudio c a b : frame (extractAudio c a b).
Proof.
  unfold extractAudio. destruct (ffmpeg_extractAudio c);
    [apply frame_saveFile | apply frame_throw].
Qed.

Lemma frame_applyZoomEffects c a b evs rid : frame (applyZoomEffects c a b evs rid).
Proof.
  unfold applyZoomEffects. destruct (ffmpeg_applyZoomEffects c); [|apply frame_throw].
  destruct (filterEvents _ evs); [apply frame_saveFile | apply frame_throw].
Qed.

Lemma frame_mergeAudioVideo c a b o rid : frame (mergeAudioVideo c a b o rid).
Proof.
  apply frame_bind; [now intros w|]. intros _.
  destruct (ffmpeg_mergeAudioVideo c); [apply frame_saveFile | apply frame_throw].
Qed.

Lemma frame_transcribeAudio c p rid : frame (transcribeAudio c p rid).
Proof.
  apply frame_tryCatch.
  - apply frame_bind; [apply frame_readFileSync|]. intros _.
    destruct (deepgram_transcribeFile c) as [[res [err|]]|err];
      first [apply frame_ret | apply frame_throw].
  - intros e. destruct (isProcessingError e); apply frame_throw.
Qed.

Lemma frame_processWithAI c t evs rid lang : frame (processWithAI c t evs rid lang).
Proof.
  apply frame_tryCatch.
  - apply frame_bind; [now intros w|]. intros _.
    destruct (axios_post c) as [[cs vo]|err]; [|apply frame_throw].
    destruct (_ || _); first [apply frame_ret | apply frame_throw].
  - intros e. destruct (isProcessingError e); [apply frame_throw|].
    destruct (class e); try apply frame_throw.
    repeat (case_match; try apply frame_throw).
Qed.

Create HintDb frames.
#[local] Hint Resolve frame_ret frame_throw frame_saveFile frame_readFileSync
  frame_readJsonFile frame_existsSync frame_copyFileSync frame_writeFileSync
  frame_saveBase64File frame_deleteDirectory frame_consoleLog
  frame_emitProcessingUpdate frame_emitError frame_extractAudio
  frame_applyZoomEffects frame_mergeAudioVideo frame_transcribeAudio
  frame_processWithAI : frames.

(** ** Updates are monotone on the artifact paths *)

Lemma assign_voiceover u r :
  is_Some (voiceoverPath r) -> is_Some (voiceoverPath (assign u r)).
Proof. destruct r, u; simpl; eauto. Qed.

Lemma assign_zoomed u r :
  is_Some (zoomedVideoPath r) -> is_Some (zoomedVideoPath (assign u r)).
Proof. destruct r, u; simpl; eauto. Qed.

Lemma assignAll_voiceover us r :
  is_Some (voiceoverPath r) -> is_Some (voiceoverPath (assignAll us r)).
Proof.
  unfold assignAll. revert r.
  induction us as [|u us IH]; intros r H; simpl; [exact H|].
  apply IH. now apply assign_voiceover.
Qed.

Lemma assignAll_zoomed us r :
  is_Some (zoomedVideoPath r) -> is_Some (zoomedVideoPath (assignAll us r)).
Proof.
  unfold assignAll. revert r.
  induction us as [|u us IH]; intros r H; simpl; [exact H|].
  apply IH. now apply assign_zoomed.
Qed.

Lemma setsVoiceover_sound us r :
  setsVoiceover us = true -> is_Some (voiceoverPath (assignAll us r)).
Proof.
  unfold assignAll, setsVoiceover. revert r.
  induction us as [|u us IH]; intros r H; simpl in *; [discriminate|].
  apply orb_true_iff in H as [H|H]; [|now apply IH].
  apply (assignAll_voiceover us). destruct u; try discriminate. destruct r; simpl; eauto.
Qed.

Lemma setsZoomed_sound us r :
  setsZoomed us = true -> is_Some (zoomedVideoPath (assignAll us r)).
Proof.
  unfold assignAll, setsZoomed. revert r.
  induction us as [|u us IH]; intros r H; simpl in *; [discriminate|].
  apply orb_true_iff in H as [H|H]; [|now apply IH].
  apply (assignAll_zoomed us). destruct u; try discriminate. destruct r; simpl; eauto.
Qed.

Lemma job_ok_assignAll n us r : job_ok n r -> job_ok n (assignAll us r).
Proof.
  intros [Hz Hm]. split.
  - intros E. apply assignAll_voiceover. auto.
  - intros E. destruct (Hm E). split; [apply assignAll_voiceover | apply assignAll_zoomed]; auto.
Qed.

(** ** The invariant through the primitives *)

Lemma K_storeOnly v z rid : storeOnly (K v z rid).
Proof.
  intros w w' Hd Hq (HI & Hv & Hz). unfold K, Inv, voiceoverKnown, zoomedKnown in *.
  rewrite Hd, Hq. auto.
Qed.

Lemma K_Inv v z rid w : K v z rid w -> Inv w.
Proof. now intros [H _]. Qed.

Lemma Inv_K rid w : Inv w -> K false false rid w.
Proof. intros H. split; [exact H | split; discriminate]. Qed.

Lemma K_weaken v z v' z' rid w :
  (v' = true -> v = true) -> (z' = true -> z = true) ->
  K v z rid w -> K v' z' rid w.
Proof. intros Hv Hz (HI & H1 & H2). split; [exact HI | split; auto]. Qed.

Lemma hoare_frame_K {A} v z rid (m : M A) (E : Assertion) :
  frame m -> (forall w, K v z rid w -> E w) ->
  hoare (K v z rid) m (fun _ => K v z rid) E.
Proof.
  intros Hm HE. eapply hoare_weaken.
  - apply hoare_frame; [apply K_storeOnly | exact Hm].
  - intros w Hw; exact Hw.
  - intros a w Hw; exact Hw.
  - exact HE.
Qed.

Lemma hoare_update v z rid us (E : Assertion) :
  admissible v z us ->
  hoare (K v z rid) (findByIdAndUpdate rid us)
        (fun _ => K (v || setsVoiceover us) (z || setsZoomed us) rid) E.
Proof.
  intros Hadm w ((Hrec & Hjob) & Hv & Hz). simpl.
  assert (Hlk : forall id r', alter (assignAll us) rid (db w) !! id = Some r' ->
            (id <> rid /\ db w !! id = Some r') \/
            (id = rid /\ exists r, db w !! rid = Some r /\ r' = assignAll us r)).
  { intros id r' H. destruct (decide (rid = id)) as [->|Hne].
    - rewrite lookup_alter_eq in H. destruct (db w !! id) as [r|] eqn:E0; [|discriminate].
      right. split; [reflexivity|]. exists r. split; [reflexivity|]. simpl in H. congruence.
    - rewrite lookup_alter_ne in H by exact Hne. left. split; [congruence | exact H]. }
  assert (Hjob' : forall j r', j ∈ queue w ->
            alter (assignAll us) rid (db w) !! recordingId (data j) = Some r' ->
            job_ok (name j) r').
  { intros j r' Hj H. apply Hlk in H as [[_ H]|[Hid (r & H & ->)]]; [now apply (Hjob j r')|].
    apply job_ok_assignAll. apply (Hjob j r Hj). now rewrite Hid. }
  split; [split|split].
  - intros id r' H. apply Hlk in H as [[_ H]|[-> (r & H & ->)]]; [now apply (Hrec id)|].
    apply Hadm; [now apply (Hrec rid) | intros Ev; now apply Hv | intros Ez; now apply Hz].
  - exact Hjob'.
  - intros Ev r' H. apply Hlk in H as [[Hne _]|[_ (r & H & ->)]]; [congruence|].
    apply orb_true_iff in Ev as [Ev|Ev];
      [apply assignAll_voiceover; now apply Hv | now apply setsVoiceover_sound].
  - intros Ez r' H. apply Hlk in H as [[Hne _]|[_ (r & H & ->)]]; [congruence|].
    apply orb_true_iff in Ez as [Ez|Ez];
      [apply assignAll_zoomed; now apply Hz | now apply setsZoomed_sound].
Qed.

Lemma elem_of_enqueue j n d k q :
  j ∈ enqueue n d k q ->
  j ∈ q \/ (name j = n /\ data j = d /\ jobId j = k /\ state j = Waiting).
Proof.
  unfold enqueue. destruct (keyLive k q); [now left|].
  intros H. apply elem_of_app in H as [H|H]; [now left|].
  apply list_elem_of_singleton in H as ->. right. now simpl.
Qed.

Lemma hoare_recordingQueue_add v z rid n lang k (E : Assertion) :
  needs n v z ->
  hoare (K v z rid)
        (recordingQueue_add n {| recordingId := rid; data_targetLanguage := lang |} k)
        (fun _ => K v z rid) E.
Proof.
  intros [Hn1 Hn2] w ((Hrec & Hjob) & Hv & Hz). simpl.
  split; [split|split]; try assumption.
  intros j r Hj Hr. simpl in *.
  apply elem_of_enqueue in Hj as [Hj|(Hname & Hdata & _)]; [now apply (Hjob j r)|].
  rewrite Hdata in Hr. simpl in Hr. rewrite Hname. split.
  - intros En. now apply (Hv (Hn1 En)).
  - intros En. destruct (Hn2 En) as [Ev Ez]. split; [now apply (Hv Ev) | now apply (Hz Ez)].
Qed.

Lemma hoare_addNextJob v z rid cur (E : Assertion) :
  (forall n, nextJobMap cur = Some n -> needs n v z) ->
  hoare (K v z rid) (addNextJob cur rid) (fun _ => K v z rid) E.
Proof.
  intros H. unfold addNextJob. destruct (nextJobMap cur) as [n|].
  - apply hoare_recordingQueue_add. now apply H.
  - apply hoare_ret. auto.
Qed.

Lemma hoare_addFinalProcessingJob v z rid t lang (E : Assertion) :
  hoare (K v z rid) (addFinalProcessingJob t rid lang) (fun _ => K v z rid) E.
Proof. apply hoare_recordingQueue_add. split; discriminate. Qed.

Lemma hoare_findById v z rid (E : Assertion) :
  hoare (K v z rid) (findById rid) (fun _ => K v z rid) E.
Proof. intros w H. exact H. Qed.

(** ** Proof automation *)

Ltac K_imp :=
  let w := fresh "w" in
  let H := fresh "H" in
  intros w H;
  first
    [ exact H
    | exact (K_Inv _ _ _ _ H)
    | refine (K_weaken _ _ _ _ _ _ _ _ H); cbn; intros; congruence ].

Ltac adm :=
  let r := fresh "r" in
  let Hc := fresh "Hc" in
  let Hf := fresh "Hf" in
  let Hv := fresh "Hv" in
  let Hz := fresh "Hz" in
  let Hs := fresh "Hs" in
  intros r [Hc Hf] Hv Hz; destruct r; unfold rec_ok, assignAll in *; cbn in *;
  split; intros Hs;
  first [ discriminate
        | solve [ eauto ]
        | try (destruct (Hc Hs) as (? & ? & ?)); repeat split; solve [ eauto ] ].

Ltac needs_ok :=
  let n := fresh "n" in
  let H := fresh "H" in
  intros n H; cbn in H; inversion H; subst; unfold needs;
  split; intros; first [discriminate | auto].

Ltac frm :=
  repeat first
    [ progress eauto with frames
    | apply frame_bind
    | apply frame_tryCatch
    | intro
    | case_match ].

Ltac hprim :=
  lazymatch goal with
  | |- hoare _ (findByIdAndUpdate _ _) _ _ =>
      first
        [ eapply hoare_update; adm
        | eapply hoare_weaken;
          [ eapply hoare_update; adm | K_imp | intros ?; K_imp | K_imp ] ]
  | |- hoare _ (addNextJob _ _) _ _ => eapply hoare_addNextJob; needs_ok
  | |- hoare _ (addFinalProcessingJob _ _ _) _ _ => eapply hoare_addFinalProcessingJob
  | |- hoare _ (findById _) _ _ => eapply hoare_findById
  | |- hoare _ (ret _) _ _ =>
      first [ eapply hoare_ret; intros ? ?; eassumption | eapply hoare_ret; K_imp ]
  | |- hoare _ (throw _) _ _ => eapply hoare_throw; K_imp
  | |- hoare _ _ _ _ => eapply hoare_frame_K; [ solve [frm] | K_imp ]
  end.

Ltac hstep :=
  cbn zeta; cbn [orb setsVoiceover setsZoomed existsb];
  lazymatch goal with
  | |- hoare _ (bind _ _) _ _ => eapply hoare_bind; [ | intros ? ]
  | |- hoare _ (tryCatch _ _) _ _ => eapply hoare_tryCatch; [ | intros ? ]
  | |- hoare _ (match ?x with _ => _ end) _ _ => destruct x
  | |- _ => hprim
  end.

(** ** The invariant through the handlers *)

Lemma processExtractAudio_K c rid :
  hoare (K false false rid) (processExtractAudio c rid)
        (fun _ => K false false rid) (K false false rid).
Proof.
  unfold processExtractAudio. repeat hstep.
Qed.

Lemma processTranscribe_K c rid :
  hoare (K false false rid) (processTranscribe c rid)
        (fun _ => K false false rid) (K false false rid).
Proof.
  unfold processTranscribe. repeat hstep.
Qed.

Lemma processAI_K c rid lang :
  hoare (K false false rid) (processAI c rid lang)
        (fun _ => K false false rid) (K false false rid).
Proof.
  unfold processAI. repeat hstep.
Qed.

Lemma processZoom_K c rid :
  hoare (K true false rid) (processZoom c rid)
        (fun _ => K true false rid) (K true false rid).
Proof.
  unfold processZoom. repeat hstep.
Qed.

Lemma processMerge_K c rid :
  hoare (K true true rid) (processMerge c rid)
        (fun _ => K true true rid) (K true true rid).
Proof.
  unfold processMerge. repeat hstep.
Qed.

Lemma J_intro job w :
  Inv w -> job ∈ queue w -> J job w.
Proof.
  intros HI Hj. split; [exact HI|]. destruct HI as [_ Hjob].
  split; intros E r Hr; destruct (Hjob job r Hj Hr) as [Hz Hm];
    destruct (name job); try discriminate; auto; now destruct Hm.
Qed.

Lemma J_job_ok job w r :
  J job w -> db w !! recordingId (data job) = Some r -> job_ok (name job) r.
Proof.
  intros (_ & Hv & Hz) Hr. split; intros E; rewrite E in *; simpl in *.
  - now apply Hv.
  - split; [now apply Hv | now apply Hz].
Qed.

Lemma J_setJob job job' i w :
  name job' = name job -> data job' = data job ->
  J job w -> J job (with_queue <[i := job']> w).
Proof.
  intros Hn Hd HJ. pose proof (J_job_ok job w) as Hok.
  destruct HJ as ((Hrec & Hjob) & Hv & Hz).
  split; [split|split]; simpl; try assumption.
  intros j r Hj Hr. apply list_elem_of_lookup_1 in Hj as [i' Hj].
  apply list_lookup_insert_Some in Hj as [(-> & <- & _)|(_ & Hj)].
  - rewrite Hn. rewrite Hd in Hr. apply Hok; [|exact Hr].
    split; [split|split]; assumption.
  - apply (Hjob j r); [|exact Hr]. now apply list_elem_of_lookup_2 in Hj.
Qed.

Lemma recordingWorker_J c job :
  hoare (J job) (recordingWorker c job) (fun _ => J job) (J job).
Proof.
  unfold recordingWorker, J. apply hoare_tryCatch with (E' := J job); unfold J.
  - destruct (name job); simpl.
    + apply hoare_ret. auto.
    + apply processExtractAudio_K.
    + apply processTranscribe_K.
    + apply processAI_K.
    + apply processZoom_K.
    + apply processMerge_K.
  - intros e. apply hoare_throw. auto.
Qed.

Lemma onFailed_K v z job error :
  hoare (K v z (recordingId (data job))) (onFailed job error)
        (fun _ => K v z (recordingId (data job))) (K v z (recordingId (data job))).
Proof.
  unfold onFailed. destruct v, z; repeat hstep.
Qed.

Lemma runJob_Inv c i job w :
  queue w !! i = Some job -> Inv w -> Inv (snd (runJob c i job w)).
Proof.
  intros Hi HI. unfold runJob.
  assert (H1 : J job (with_queue <[i := setState Active job]> w)).
  { apply J_setJob; [reflexivity | reflexivity |].
    apply J_intro; [exact HI | now apply list_elem_of_lookup_2 in Hi]. }
  pose proof (recordingWorker_J c job _ H1) as H2.
  destruct (recordingWorker c job _) as [[a|e] w2].
  - simpl. eapply K_Inv. apply (J_setJob job); [reflexivity | reflexivity | exact H2].
  - eapply K_Inv. apply (hoare_snd _ _ _ _ (onFailed_K _ _ (countAttempt job) e)).
    apply (J_setJob job); [reflexivity | reflexivity | exact H2].
Qed.

Lemma processRecording_K t id language :
  hoare (K false false id) (processRecording t id language)
        (fun _ => K false false id) (K false false id).
Proof.
  unfold processRecording. repeat hstep.
Qed.

Lemma uploadRecording_Inv rid video events title description userId w :
  db w !! rid = None ->
  (forall j, j ∈ queue w -> recordingId (data j) <> rid) ->
  Inv w ->
  Inv (snd (uploadRecording rid video events title description userId w)).
Proof.
  intros Hfresh Hq [Hrec Hjob]. simpl. split; simpl.
  - intros id r H. apply lookup_insert_Some in H as [[_ <-]|[_ H]]; [|now apply (Hrec id)].
    split; simpl; discriminate.
  - intros j r Hj Hr. apply elem_of_enqueue in Hj as [Hj|(Hn & _)].
    + rewrite lookup_insert_ne in Hr by (intros E; now apply (Hq j Hj)).
      now apply (Hjob j r).
    + rewrite Hn. split; discriminate.
Qed.

Lemma deleteRecording_Inv id w : Inv w -> Inv (snd (deleteRecording id w)).
Proof.
  intros [Hrec Hjob]. unfold deleteRecording, bind, findById, gets. simpl.
  destruct (db w !! id) as [r0|]; simpl; [|now split].
  split.
  - intros id' r H. cbn in H. apply lookup_delete_Some in H as [_ H]. now apply (Hrec id').
  - intros j r Hj H. cbn in H, Hj. apply lookup_delete_Some in H as [_ H].
    now apply (Hjob j r).
Qed.

Lemma step_Inv w w' : step w w' -> Inv w -> Inv w'.
Proof.
  intros Hs HI. destruct Hs as [rid video events title description userId w Hf Hq
                               | t id language w | id w | c i job w Hi Hrun].
  - now apply uploadRecording_Inv.
  - eapply K_Inv. apply (hoare_snd _ _ _ _ (processRecording_K t id language)).
    now apply Inv_K.
  - now apply deleteRecording_Inv.
  - now apply runJob_Inv.
Qed.

Lemma emptyWorld_Inv : Inv emptyWorld.
Proof.
  split.
  - intros id r H. simpl in H. now rewrite lookup_empty in H.
  - intros j r H. simpl in H. now apply not_elem_of_nil in H.
Qed.

Lemma reachable_Inv w : reachable w -> Inv w.
Proof.
  unfold reachable. intros H. revert w H. apply rtc_ind_r.
  - apply emptyWorld_Inv.
  - intros y z _ Hs IH. eapply step_Inv; eassumption.
Qed.

(** C1 (as amended).  In every reachable state of the pipeline, a
    recording whose status is COMPLETED has its final video path, its
    voiceover path and its zoomed video path set, and a recording whose
    status is FAILED has its error message set. *)
Theorem status_invariant w id r :
  reachable w ->
  db w !! id = Some r ->
  (status r = RecordingStatus.COMPLETED ->
     is_Some (finalVideoPath r) /\ is_Some (voiceoverPath r) /\
     is_Some (zoomedVideoPath r)) /\
  (status r = RecordingStatus.FAILED -> is_Some (errorMessage r)).
Proof.
  intros Hreach Hr. apply reachable_Inv in Hreach as [Hrec _]. exact (Hrec id r Hr).
Qed.

(** ** The stages, one by one *)

Ltac unfold_prims :=
  unfold findByIdAndUpdate, findById, emitProcessingUpdate, emitError, saveBase64File,
    writeFileSync, existsSync, copyFileSync, readJsonFile, recordingQueue_add,
    consoleLog in *;
  unfold saveFile, readFileSync, modify, gets in *;
  unfold bind, ret, throw, tryCatch in *.

Lemma processMerge_run c rid w r :
  db w !! rid = Some r ->
  let paths := getRecordingPaths rid in
  let w' := snd (processMerge c rid w) in
  muxCalls w' = muxCalls w ++
    [ {| mux_video := orElse (zoomedVideoPath r) (Paths.rawVideo paths);
         mux_audio := Paths.voiceover paths;
         mux_output := Paths.finalVideo paths |} ] /\
  (forall d, ffmpeg_mergeAudioVideo c = Resolved d ->
     fst (processMerge c rid w) = Ok (Success "finalVideoPath" (Paths.finalVideo paths)) /\
     exists r', db w' !! rid = Some r' /\
       status r' = RecordingStatus.COMPLETED /\
       currentStep r' = Some ProcessingStep.COMPLETED /\
       finalVideoPath r' = Some (Paths.finalVideo paths) /\
       processingCompletedAt r' = Some (now c)).
Proof.
  intros Hr paths w'. subst w'. unfold processMerge, mergeAudioVideo. unfold_prims.
  cbn [fst snd db with_db with_published].
  rewrite lookup_alter_eq, Hr. cbn [fmap option_fmap option_map].
  assert (Hz : zoomedVideoPath (assignAll [Set_currentStep ProcessingStep.MERGING] r)
               = zoomedVideoPath r) by now destruct r.
  rewrite Hz. destruct (ffmpeg_mergeAudioVideo c) as [d|err] eqn:Hm; cbn.
  - split; [reflexivity|]. intros d' _. split; [reflexivity|].
    rewrite !lookup_alter_eq, Hr. cbn. eexists. split; [reflexivity|].
    now destruct r.
  - split; [reflexivity|]. intros d' Hd. discriminate.
Qed.

(** C5 (as amended).  The MERGE handler of the unified worker hands the mux
    the zoomed video path recorded on the Recording Record, whatever it is
    and whatever the conventional zoomed-file location holds, and the raw
    video path when none is recorded (or an empty one); the audio is the
    voiceover file and the output the final file.  When the mux succeeds
    the record becomes COMPLETED with its step, final video path and
    completion time set. *)
Theorem processMerge_uses_recorded_path c rid w r :
  db w !! rid = Some r ->
  let paths := getRecordingPaths rid in
  let w' := snd (processMerge c rid w) in
  (exists call, muxCalls w' = muxCalls w ++ [call] /\
     (forall p, zoomedVideoPath r = Some p -> p <> EmptyString -> mux_video call = p) /\
     (zoomedVideoPath r = None \/ zoomedVideoPath r = Some EmptyString ->
        mux_video call = Paths.rawVideo paths) /\
     mux_audio call = Paths.voiceover paths /\
     mux_output call = Paths.finalVideo paths) /\
  (forall d, ffmpeg_mergeAudioVideo c = Resolved d ->
     fst (processMerge c rid w) = Ok (Success "finalVideoPath" (Paths.finalVideo paths)) /\
     exists r', db w' !! rid = Some r' /\
       status r' = RecordingStatus.COMPLETED /\
       currentStep r' = Some ProcessingStep.COMPLETED /\
       finalVideoPath r' = Some (Paths.finalVideo paths) /\
       processingCompletedAt r' = Some (now c)).
Proof.
  intros Hr paths w'. destruct (processMerge_run c rid w r Hr) as [Hcall Hdone].
  fold paths in Hcall, Hdone. fold w' in Hcall, Hdone.
  split; [|exact Hdone].
  eexists. split; [exact Hcall|]. cbn [mux_video mux_audio mux_output].
  split; [|split; [|split; reflexivity]].
  - intros p -> Hp. destruct p; [congruence | reflexivity].
  - intros [-> | ->]; reflexivity.
Qed.

(** The processor of the unified worker, given a MERGE job, does the same. *)
Lemma recordingWorker_muxes_recorded_path : muxes_recorded_path recordingWorker.
Proof.
  intros c job w r p Hn Hr Hz Hp.
  assert (Hw : snd (recordingWorker c job w) = snd (processMerge c (recordingId (data job)) w)).
  { unfold recordingWorker, tryCatch. rewrite Hn.
    now destruct (processMerge c (recordingId (data job)) w) as [[a|e] w']. }
  rewrite Hw. destruct (processMerge_run c _ w r Hr) as [Hcall _].
  eexists. split; [exact Hcall|]. cbn. rewrite Hz. destruct p; [congruence | reflexivity].
Qed.

Lemma transcribeAudio_world c p rid w :
  transcribeAudio c p rid w = (fst (transcribeAudio c p rid w), w).
Proof.
  unfold transcribeAudio. unfold_prims.
  destruct (files w !! p); [|now destruct (isProcessingError _)].
  destruct (deepgram_transcribeFile c) as [[res [err|]]|err]; simpl;
    try reflexivity; now destruct (isProcessingError _).
Qed.

Lemma transcribeAudio_empty c p rid w res :
  is_Some (files w !! p) ->
  deepgram_transcribeFile c = Resolved (res, None) ->
  fst (transcribeAudio c p rid w) = Ok (orElse res EmptyString).
Proof.
  intros [d Hd] Hc. unfold transcribeAudio. unfold_prims. now rewrite Hd, Hc.
Qed.

Lemma processTranscribe_run c rid w r a :
  db w !! rid = Some r ->
  fst (processTranscribe c rid w) = Ok a ->
  fst (transcribeAudio c (Paths.audio (getRecordingPaths rid)) rid
         (snd (emitProcessingUpdate rid ProcessingStep.TRANSCRIBING
            (snd (findByIdAndUpdate rid
                    [Set_currentStep ProcessingStep.TRANSCRIBING] w))))) =
    Ok (match a with Success _ t => t | _ => EmptyString end) /\
  queue (snd (processTranscribe c rid w)) = queue w /\
  exists r', db (snd (processTranscribe c rid w)) !! rid = Some r' /\
    status r' = RecordingStatus.DRAFT_READY /\
    currentStep r' = Some ProcessingStep.COMPLETED /\
    transcript r' = Some (match a with Success _ t => t | _ => EmptyString end).
Proof.
  intros Hr. unfold processTranscribe. unfold_prims.
  rewrite transcribeAudio_world. cbn.
  destruct (fst (transcribeAudio c _ rid _)) as [t|e]; cbn; [|discriminate].
  intros [= <-]. split; [reflexivity|]. split; [reflexivity|].
  rewrite !lookup_alter_eq, Hr. cbn. eexists. split; [reflexivity|].
  now destruct r.
Qed.

(** The processor of the unified worker, given a TRANSCRIBE job, pauses at
    the draft. *)
Lemma recordingWorker_pauses_at_draft : pauses_at_draft recordingWorker.
Proof.
  intros c job w r a Hn Hr.
  assert (Hw : recordingWorker c job w = processTranscribe c (recordingId (data job)) w).
  { unfold recordingWorker, tryCatch. rewrite Hn.
    now destruct (processTranscribe c (recordingId (data job)) w) as [[a0|e] w']. }
  rewrite Hw. intros Ha.
  destruct (processTranscribe_run c _ w r a Hr Ha) as (_ & Hq & r' & Hr' & Hs & Hc & _).
  split; [exact Hq|]. exists r'. auto.
Qed.

(** C2 (as amended).  When the TRANSCRIBE handler of the unified worker
    succeeds for a recording, the record is DRAFT_READY with step COMPLETED
    and the queue is as before: no successor job.  In particular, when the
    transcription service answers with an empty transcript (and the audio
    file is there to be read) the handler succeeds, the TRANSCRIBE job
    completes and the record is DRAFT_READY. *)
Theorem processTranscribe_pauses_at_draft c rid w r :
  db w !! rid = Some r ->
  let paths := getRecordingPaths rid in
  (forall a, fst (processTranscribe c rid w) = Ok a ->
     queue (snd (processTranscribe c rid w)) = queue w /\
     exists r', db (snd (processTranscribe c rid w)) !! rid = Some r' /\
       status r' = RecordingStatus.DRAFT_READY /\
       currentStep r' = Some ProcessingStep.COMPLETED) /\
  (forall res, is_Some (files w !! Paths.audio paths) ->
     deepgram_transcribeFile c = Resolved (res, None) ->
     orElse res EmptyString = EmptyString ->
     fst (processTranscribe c rid w) = Ok (Success "transcript" EmptyString) /\
     forall i job, queue w !! i = Some job ->
       name job = JobType.TRANSCRIBE -> recordingId (data job) = rid ->
       let w' := snd (runJob c i job w) in
       queue w' = <[i := setState Completed job]> (queue w) /\
       exists r', db w' !! rid = Some r' /\
         status r' = RecordingStatus.DRAFT_READY /\
         transcript r' = Some EmptyString).
Proof.
  intros Hr paths.
  pose proof (fun w0 Hr0 a => processTranscribe_run c rid w0 r a Hr0) as Hrun.
  split.
  - intros a Ha. destruct (Hrun w Hr a Ha) as (_ & Hq & r' & Hr' & Hs & Hc & _).
    split; [exact Hq|]. exists r'. auto.
  - intros res Hf Hc Hres.
    assert (Hok : forall w0, files w0 = files w -> db w0 !! rid = Some r ->
              fst (processTranscribe c rid w0) = Ok (Success "transcript" EmptyString)).
    { intros w0 Hfiles Hr0. unfold processTranscribe. unfold_prims.
      rewrite transcribeAudio_world.
      rewrite (transcribeAudio_empty c _ rid _ res); [| cbn; now rewrite Hfiles | exact Hc].
      rewrite Hres. reflexivity. }
    split; [apply Hok; [reflexivity | exact Hr]|].
    intros i job Hi Hn Hrid w'. subst w'. unfold runJob, recordingWorker.
    rewrite Hn, Hrid. unfold tryCatch.
    set (w1 := with_queue _ w).
    pose proof (Hok w1 eq_refl Hr) as Hok1.
    destruct (Hrun w1 Hr _ Hok1) as (_ & Hq1 & r' & Hr' & Hst & _ & Htr).
    destruct (processTranscribe c rid w1) as [[a|e] w2]; simpl in *; [|discriminate].
    split.
    + rewrite Hq1. apply list_insert_insert_eq.
    + exists r'. auto.
Qed.

Lemma trimStart_onlyWhiteSpace s : onlyWhiteSpace s -> trimStart s = EmptyString.
Proof.
  unfold onlyWhiteSpace. induction s as [|ch s IH]; simpl; intros H; [reflexivity|].
  inversion H as [|? ? Hc Hs]; subst. rewrite Hc. now apply IH.
Qed.

Lemma emptyTranscript_skips r :
  emptyTranscript r ->
  negb (truthy (orElse (transcript r) EmptyString)) ||
    (String.length (trim (orElse (transcript r) EmptyString)) =? 0)%nat = true.
Proof.
  unfold emptyTranscript, orElse. destruct (transcript r) as [s|]; [|reflexivity].
  intros H. destruct s as [|ch s]; [reflexivity|].
  cbn [truthy negb orb]. unfold trim.
  rewrite (trimStart_onlyWhiteSpace _ H). reflexivity.
Qed.

(** The events file every later stage reads is the one the upload wrote. *)
Lemma uploadRecording_writes_events rid video events title description userId w :
  files (snd (uploadRecording rid video events title description userId w))
    !! Paths.events (getRecordingPaths rid) = Some (Json events).
Proof. cbn. apply lookup_insert_eq. Qed.

(** C3 (as amended).  For a recording whose transcript is absent or only
    white space, the AI_PROCESS handler of the unified worker never calls
    the synthesis server; when the events file can be read it returns after
    setting [cleanedScript] to "[No transcript available]" and
    [voiceoverPath] to the voiceover file, which holds a copy of the
    extracted audio, or nothing when there is no audio file, and after
    enqueuing the APPLY_ZOOM job. *)
Theorem processAI_empty_transcript c rid lang w r :
  db w !! rid = Some r ->
  emptyTranscript r ->
  let paths := getRecordingPaths rid in
  let w' := snd (processAI c rid lang w) in
  synthesisCalls w' = synthesisCalls w /\
  (forall evs, files w !! Paths.events paths = Some (Json evs) ->
     fst (processAI c rid lang w) = Ok (Success "cleanedScript" NO_TRANSCRIPT) /\
     (exists r', db w' !! rid = Some r' /\
        cleanedScript r' = Some NO_TRANSCRIPT /\
        voiceoverPath r' = Some (Paths.voiceover paths)) /\
     files w' !! Paths.voiceover paths =
       Some (default (Text EmptyString) (files w !! Paths.audio paths)) /\
     queue w' = enqueue JobType.APPLY_ZOOM
                  {| recordingId := rid; data_targetLanguage := None |}
                  ("applyZoom-" +:+ rid) (queue w)).
Proof.
  intros Hr Hempty paths w'. subst w' paths. unfold processAI. unfold_prims.
  cbn [fst snd db with_db with_published files].
  rewrite lookup_alter_eq, Hr. cbn [fmap option_fmap option_map].
  assert (Ht : transcript (assignAll [Set_currentStep ProcessingStep.AI_PROCESSING] r)
               = transcript r) by now destruct r.
  rewrite Ht, (emptyTranscript_skips r Hempty). cbn.
  destruct (files w !! path_join (getRecordingDirectory rid) "events.json")
    as [[s|evs|b]|] eqn:Hev; cbn.
  1,3,4: split; [reflexivity | intros evs' Hevs'; congruence].
  destruct (files w !! path_join (getRecordingDirectory rid) "audio.wav") as [d|] eqn:Ha;
    cbn; rewrite ?Ha; cbn.
  - split; [reflexivity|]. intros evs' _. split; [reflexivity|].
    split; [|split; [apply lookup_insert_eq | reflexivity]].
    rewrite !lookup_alter_eq, Hr. cbn. eexists. split; [reflexivity|]. now destruct r.
  - split; [reflexivity|]. intros evs' _. split; [reflexivity|].
    split; [|split; [apply lookup_insert_eq | reflexivity]].
    rewrite !lookup_alter_eq, Hr. cbn. eexists. split; [reflexivity|]. now destruct r.
Qed.

Lemma orElse_same d : orElse (Some d) d = d.
Proof. unfold orElse. now destruct (truthy d). Qed.

(** The filter of the events throws exactly when one of them is [null]. *)
Lemma filterEvents_objects keep evs :
  noNull evs = true -> filterEvents keep evs = Some (List.filter keep (omap id evs)).
Proof.
  induction evs as [|[e|] evs IH]; cbn; intros Hnn; [reflexivity | | discriminate].
  now rewrite IH.
Qed.

Lemma filterEvents_null keep evs : noNull evs = false -> filterEvents keep evs = None.
Proof.
  induction evs as [|[e|] evs IH]; cbn; intros Hn; [discriminate | | reflexivity].
  now rewrite IH.
Qed.

Lemma processZoom_fallback c rid w r :
  db w !! rid = Some r ->
  noNull (recordedEvents w rid) = true ->
  clicks (recordedEvents w rid) = [] \/
    (exists e, ffmpeg_applyZoomEffects c = Rejected e) ->
  let paths := getRecordingPaths rid in
  let w' := snd (processZoom c rid w) in
  (exists a, fst (processZoom c rid w) = Ok a) /\
  db w' !! rid =
    Some (assignAll [Set_zoomedVideoPath (Paths.rawVideo paths)]
            (assignAll [Set_currentStep ProcessingStep.APPLYING_ZOOM_EFFECTS] r)) /\
  queue w' = enqueue JobType.MERGE
               {| recordingId := rid; data_targetLanguage := None |}
               ("merge-" +:+ rid) (queue w) /\
  muxCalls w' = muxCalls w.
Proof.
  intros Hr Hnn Hcase paths w'. subst w' paths. unfold recordedEvents in Hnn, Hcase.
  unfold processZoom, applyZoomEffects. unfold_prims.
  cbn [getRecordingPaths Paths.events Paths.rawVideo Paths.zoomedVideo] in *.
  cbn [fst snd files with_db with_published].
  destruct (files w !! path_join (getRecordingDirectory rid) "events.json")
    as [[s|evs|b]|] eqn:Hev; cbn.
  1,3,4: rewrite !lookup_alter_eq, Hr; cbn; eauto.
  rewrite (filterEvents_objects _ evs Hnn). fold (clicks evs).
  destruct Hcase as [Hnone|[e He]].
  - rewrite Hnone. cbn. rewrite !lookup_alter_eq, Hr. cbn. eauto.
  - rewrite He. destruct (clicks evs); cbn;
      rewrite !lookup_alter_eq, Hr; cbn; eauto.
Qed.

(** C4 (as amended).  In the APPLY_ZOOM handler of the unified worker, for
    events without a [null] element (or an events file that cannot be
    read): when the events hold no click with coordinates, or when they do
    and the zoom-effects collaborator fails, the handler returns normally,
    [zoomedVideoPath] is the raw video path, the status is untouched (no
    FAILED) and the MERGE job is enqueued; a MERGE run whose mux succeeds
    then muxes the raw video and leaves the recording COMPLETED. *)
Theorem processZoom_absorbs_failure c rid w r :
  db w !! rid = Some r ->
  noNull (recordedEvents w rid) = true ->
  clicks (recordedEvents w rid) = [] \/
    (clicks (recordedEvents w rid) <> [] /\
     exists e, ffmpeg_applyZoomEffects c = Rejected e) ->
  let paths := getRecordingPaths rid in
  let w' := snd (processZoom c rid w) in
  (exists a, fst (processZoom c rid w) = Ok a) /\
  (exists r', db w' !! rid = Some r' /\
     zoomedVideoPath r' = Some (Paths.rawVideo paths) /\
     status r' = status r /\ errorMessage r' = errorMessage r) /\
  queue w' = enqueue JobType.MERGE
               {| recordingId := rid; data_targetLanguage := None |}
               ("merge-" +:+ rid) (queue w) /\
  (forall c2 d, ffmpeg_mergeAudioVideo c2 = Resolved d ->
     let w'' := snd (processMerge c2 rid w') in
     muxCalls w'' = muxCalls w ++
       [ {| mux_video := Paths.rawVideo paths;
            mux_audio := Paths.voiceover paths;
            mux_output := Paths.finalVideo paths |} ] /\
     exists r'', db w'' !! rid = Some r'' /\
       status r'' = RecordingStatus.COMPLETED /\
       zoomedVideoPath r'' = Some (Paths.rawVideo paths) /\
       finalVideoPath r'' = Some (Paths.finalVideo paths)).
Proof.
  intros Hr Hnn Hcase paths w'.
  assert (Hcase' : clicks (recordedEvents w rid) = [] \/
                   (exists e, ffmpeg_applyZoomEffects c = Rejected e)) by tauto.
  destruct (processZoom_fallback c rid w r Hr Hnn Hcase') as (Hok & Hdb & Hq & Hmux).
  fold w' in Hdb, Hq, Hmux. fold paths in Hdb.
  split; [exact Hok|]. split; [|split; [exact Hq|]].
  - eexists. split; [exact Hdb|]. now destruct r.
  - intros c2 d Hd w''.
    destruct (processMerge_run c2 rid w' _ Hdb) as (Hcall & Hdone).
    destruct (Hdone d Hd) as (_ & r'' & Hr'' & Hst & _ & Hfin & _).
    fold w'' in Hcall, Hr''. split.
    + rewrite Hcall, Hmux. do 3 f_equal. destruct r; cbn. apply orElse_same.
    + exists r''. split; [exact Hr''|]. split; [exact Hst|]. split; [|exact Hfin].
      clear -Hr'' Hdb Hd. subst w''. revert Hr''.
      unfold processMerge, mergeAudioVideo. unfold_prims. cbn.
      rewrite lookup_alter_eq, Hdb. cbn. rewrite Hd. cbn.
      rewrite !lookup_alter_eq, Hdb. cbn. intros [= <-]. now destruct r.
Qed.

(** ** The process request *)

Lemma enqueue_fresh n d k q :
  keyLive k q = false ->
  enqueue n d k q =
    q ++ [ {| name := n; data := d; jobId := k; attemptsMade := 0; state := Waiting |} ].
Proof. intros H. unfold enqueue. now rewrite H. Qed.

Lemma enqueue_live n d k q : keyLive k q = true -> enqueue n d k q = q.
Proof. intros H. unfold enqueue. now rewrite H. Qed.

Lemma processRecording_run t id language w r :
  db w !! id = Some r ->
  let lang := default (Lang "en") language in
  let w' := snd (processRecording t id language w) in
  fst (processRecording t id language w) = Ok tt /\
  db w' !! id =
    Some (assignAll [ Set_status RecordingStatus.PROCESSING;
                      Set_currentStep ProcessingStep.AI_PROCESSING;
                      Set_targetLanguage lang;
                      Unset_errorMessage ] r) /\
  (forall id', id' <> id -> db w' !! id' = db w !! id') /\
  queue w' = enqueue JobType.AI_PROCESS
               {| recordingId := id; data_targetLanguage := Some lang |}
               (aiProcessKey id t) (queue w) /\
  files w' = files w.
Proof.
  intros Hr lang w'. subst w' lang. unfold processRecording, addFinalProcessingJob.
  unfold_prims. rewrite Hr.
  destruct (negb _ && negb _ && negb _); cbn;
    (split; [reflexivity|]); (split; [now rewrite lookup_alter_eq, Hr|]);
    (split; [intros id' Hne; now rewrite lookup_alter_ne|]); now split.
Qed.


(** C10.  The process request does not depend on the status of the
    recording: for any recording that exists -- UPLOADED or PROCESSING as
    well, and whatever jobs of an earlier run are still pending or active
    in the queue -- it succeeds, sets the status to PROCESSING and the step
    to AI_PROCESSING, clears the error message and submits an AI_PROCESS
    job. *)
Theorem processRecording_any_status t id language w r :
  db w !! id = Some r ->
  let lang := default (Lang "en") language in
  let w' := snd (processRecording t id language w) in
  fst (processRecording t id language w) = Ok tt /\
  (exists r', db w' !! id = Some r' /\
     status r' = RecordingStatus.PROCESSING /\
     currentStep r' = Some ProcessingStep.AI_PROCESSING /\
     errorMessage r' = None) /\
  queue w' = enqueue JobType.AI_PROCESS
               {| recordingId := id; data_targetLanguage := Some lang |}
               (aiProcessKey id t) (queue w) /\
  (keyLive (aiProcessKey id t) (queue w) = false ->
     queue w' = queue w ++ [ aiProcessJob id lang t ]).
Proof.
  intros Hr lang w'.
  destruct (processRecording_run t id language w r Hr) as (Hok & Hdb & _ & Hq & _).
  fold w' in Hdb, Hq. fold lang in Hdb, Hq.
  split; [exact Hok|]. split; [|split; [exact Hq|]].
  - eexists. split; [exact Hdb|]. now destruct r.
  - intros Hfresh. rewrite Hq. now apply enqueue_fresh.
Qed.

(** ** Re-processing leaves the inputs alone *)

Lemma assign_sameInputs u r : lateField u = true -> sameInputs r (assign u r).
Proof.
  unfold sameInputs. destruct r, u; cbn; intros H; try discriminate;
    repeat split; reflexivity.
Qed.

Lemma sameInputs_trans r1 r2 r3 : sameInputs r1 r2 -> sameInputs r2 r3 -> sameInputs r1 r3.
Proof. unfold sameInputs. intuition congruence. Qed.

Lemma sameInputs_refl r : sameInputs r r.
Proof. unfold sameInputs. repeat split; reflexivity. Qed.

Lemma assignAll_sameInputs us r :
  forallb lateField us = true -> sameInputs r (assignAll us r).
Proof.
  unfold assignAll. revert r. induction us as [|u us IH]; intros r H; simpl in *.
  - apply sameInputs_refl.
  - apply andb_true_iff in H as [Hu Hus].
    eapply sameInputs_trans; [apply assign_sameInputs; exact Hu | apply IH; exact Hus].
Qed.

Lemma keepsInputs_storeOnly r0 rid : storeOnly (keepsInputs r0 rid).
Proof. intros w w' Hd _ (r & Hr & Hs). exists r. now rewrite Hd. Qed.

Lemma keeps_update r0 rid id us (E : Assertion) :
  forallb lateField us = true ->
  hoare (keepsInputs r0 rid) (findByIdAndUpdate id us) (fun _ => keepsInputs r0 rid) E.
Proof.
  intros Hlate w (r & Hr & Hs). simpl. destruct (decide (id = rid)) as [->|Hne].
  - exists (assignAll us r). cbn [db with_db]. rewrite lookup_alter_eq, Hr.
    split; [reflexivity|].
    eapply sameInputs_trans; [exact Hs | now apply assignAll_sameInputs].
  - exists r. cbn [db with_db]. now rewrite lookup_alter_ne.
Qed.

Lemma keeps_recordingQueue_add r0 rid n d k (E : Assertion) :
  hoare (keepsInputs r0 rid) (recordingQueue_add n d k) (fun _ => keepsInputs r0 rid) E.
Proof. intros w H. exact H. Qed.

Lemma keeps_addNextJob r0 rid cur id (E : Assertion) :
  hoare (keepsInputs r0 rid) (addNextJob cur id) (fun _ => keepsInputs r0 rid) E.
Proof.
  unfold addNextJob. destruct (nextJobMap cur).
  - apply keeps_recordingQueue_add.
  - now apply hoare_ret.
Qed.

Lemma keeps_frame {A} r0 rid (m : M A) :
  frame m -> hoare (keepsInputs r0 rid) m (fun _ => keepsInputs r0 rid) (keepsInputs r0 rid).
Proof. intros Hm. apply hoare_frame; [apply keepsInputs_storeOnly | exact Hm]. Qed.

Ltac kstep :=
  cbn zeta;
  lazymatch goal with
  | |- hoare _ (bind _ _) _ _ => eapply hoare_bind; [ | intros ? ]
  | |- hoare _ (tryCatch _ _) _ _ => eapply hoare_tryCatch; [ | intros ? ]
  | |- hoare _ (match ?x with _ => _ end) _ _ => destruct x
  | |- hoare _ (findByIdAndUpdate _ _) _ _ => apply keeps_update; reflexivity
  | |- hoare _ (addNextJob _ _) _ _ => apply keeps_addNextJob
  | |- hoare _ (addFinalProcessingJob _ _ _) _ _ => apply keeps_recordingQueue_add
  | |- hoare _ (ret _) _ _ => apply hoare_ret; intros ? H; exact H
  | |- hoare _ (throw _) _ _ => apply hoare_throw; intros ? H; exact H
  | |- hoare _ _ _ _ => apply keeps_frame; solve [frm]
  end.

Lemma processRecording_keeps r0 rid t id language :
  hoare (keepsInputs r0 rid) (processRecording t id language)
        (fun _ => keepsInputs r0 rid) (keepsInputs r0 rid).
Proof. unfold processRecording. repeat kstep. Qed.

Lemma processAI_keeps r0 rid c id lang :
  hoare (keepsInputs r0 rid) (processAI c id lang)
        (fun _ => keepsInputs r0 rid) (keepsInputs r0 rid).
Proof. unfold processAI. repeat kstep. Qed.

Lemma processZoom_keeps r0 rid c id :
  hoare (keepsInputs r0 rid) (processZoom c id)
        (fun _ => keepsInputs r0 rid) (keepsInputs r0 rid).
Proof. unfold processZoom. repeat kstep. Qed.

Lemma processMerge_keeps r0 rid c id :
  hoare (keepsInputs r0 rid) (processMerge c id)
        (fun _ => keepsInputs r0 rid) (keepsInputs r0 rid).
Proof. unfold processMerge. repeat kstep. Qed.

Lemma onFailed_keeps r0 rid job error :
  hoare (keepsInputs r0 rid) (onFailed job error)
        (fun _ => keepsInputs r0 rid) (keepsInputs r0 rid).
Proof. unfold onFailed. repeat kstep. Qed.

(** The same through the queue: running an AI_PROCESS, APPLY_ZOOM or MERGE
    job, whether it completes or fails and is marked FAILED. *)
Lemma runJob_keeps r0 rid c i job w :
  name job = JobType.AI_PROCESS \/ name job = JobType.APPLY_ZOOM \/
    name job = JobType.MERGE ->
  keepsInputs r0 rid w -> keepsInputs r0 rid (snd (runJob c i job w)).
Proof.
  intros Hn Hk. unfold runJob.
  set (w1 := with_queue _ w).
  assert (H1 : keepsInputs r0 rid w1) by exact Hk.
  assert (Hw : hoare (keepsInputs r0 rid) (recordingWorker c job)
                 (fun _ => keepsInputs r0 rid) (keepsInputs r0 rid)).
  { unfold recordingWorker. apply hoare_tryCatch with (E' := keepsInputs r0 rid).
    - destruct Hn as [->|[->| ->]];
        [apply processAI_keeps | apply processZoom_keeps | apply processMerge_keeps].
    - intros e. apply hoare_throw. auto. }
  specialize (Hw w1 H1). destruct (recordingWorker c job w1) as [[a|e] w2].
  - exact Hw.
  - apply (hoare_snd _ _ _ _ (onFailed_keeps r0 rid (countAttempt job) e)). exact Hw.
Qed.

(** C8.  Re-processing a COMPLETED recording -- the process request with a
    target language, then the AI_PROCESS, APPLY_ZOOM and MERGE handlers,
    whatever the collaborators answer -- leaves [transcriptPath],
    [audioPath], [transcript], [filePath] and [eventsPath] (and [_id],
    [title], [description], [userId]) as they were after every one of the
    four; any field that changes is among [cleanedScript], [voiceoverPath],
    [zoomedVideoPath], [finalVideoPath], [status], [currentStep],
    [errorMessage], [targetLanguage] and the processing timestamps. *)
Theorem reprocessing_keeps_inputs t language c1 c2 c3 rid w r :
  db w !! rid = Some r ->
  status r = RecordingStatus.COMPLETED ->
  let w1 := snd (processRecording t rid language w) in
  let w2 := snd (processAI c1 rid (Some (default (Lang "en") language)) w1) in
  let w3 := snd (processZoom c2 rid w2) in
  let w4 := snd (processMerge c3 rid w3) in
  keepsInputs r rid w1 /\ keepsInputs r rid w2 /\
  keepsInputs r rid w3 /\ keepsInputs r rid w4.
Proof.
  intros Hr _ w1 w2 w3 w4.
  assert (H0 : keepsInputs r rid w) by (exists r; split; [exact Hr | apply sameInputs_refl]).
  assert (H1 : keepsInputs r rid w1)
    by exact (hoare_snd _ _ _ _ (processRecording_keeps r rid t rid language) H0).
  assert (H2 : keepsInputs r rid w2)
    by exact (hoare_snd _ _ _ _ (processAI_keeps r rid c1 rid _) H1).
  assert (H3 : keepsInputs r rid w3)
    by exact (hoare_snd _ _ _ _ (processZoom_keeps r rid c2 rid) H2).
  assert (H4 : keepsInputs r rid w4)
    by exact (hoare_snd _ _ _ _ (processMerge_keeps r rid c3 rid) H3).
  auto.
Qed.

(** ** Dedup keys *)

Lemma append_inj_r s a b : s +:+ a = s +:+ b -> a = b.
Proof. induction s as [|ch s IH]; simpl; intros H; [exact H|]. injection H. exact IH. Qed.

Lemma aiProcessKey_inj id t1 t2 : aiProcessKey id t1 = aiProcessKey id t2 -> t1 = t2.
Proof.
  unfold aiProcessKey. intros H.
  do 3 apply append_inj_r in H. now apply (inj pretty) in H.
Qed.

Lemma keyLive_app k q1 q2 : keyLive k (q1 ++ q2) = keyLive k q1 || keyLive k q2.
Proof. unfold keyLive. apply existsb_app. Qed.

Lemma keyLive_enqueue n d k q : keyLive k (enqueue n d k q) = true.
Proof.
  unfold enqueue. destruct (keyLive k q) eqn:E; [exact E|].
  rewrite keyLive_app, E. unfold keyLive. simpl. now rewrite String.eqb_refl.
Qed.

Lemma liveWithKey_none k q : keyLive k q = false -> liveWithKey k q = [].
Proof.
  unfold keyLive, liveWithKey. induction q as [|j q IH]; simpl; [reflexivity|].
  intros H. apply orb_false_iff in H as [Hj Hq]. rewrite Hj. now apply IH.
Qed.

Lemma liveWithKey_enqueue n d k q :
  keyLive k q = false -> length (liveWithKey k (enqueue n d k q)) = 1.
Proof.
  intros H. rewrite (enqueue_fresh _ _ _ _ H). unfold liveWithKey.
  rewrite List.filter_app. fold (liveWithKey k q). rewrite (liveWithKey_none k q H).
  simpl. now rewrite String.eqb_refl.
Qed.

Lemma keyLive_setState k q i j s :
  q !! i = Some j -> live j = true -> live (setState s j) = true ->
  keyLive k (<[i := setState s j]> q) = keyLive k q.
Proof.
  unfold keyLive. revert i. induction q as [|j0 q IH]; intros i Hi Hl Hl'; [reflexivity|].
  destruct i as [|i]; simpl in *.
  - injection Hi as ->. now rewrite Hl, Hl'.
  - f_equal. now apply IH.
Qed.

(** Two submissions within the same millisecond share their key: the second
    one is dropped while the first is pending. *)
Lemma same_millisecond_submissions id lang1 lang2 t w :
  queue (snd (addFinalProcessingJob t id lang2
                (snd (addFinalProcessingJob t id lang1 w)))) =
  queue (snd (addFinalProcessingJob t id lang1 w)).
Proof.
  unfold addFinalProcessingJob. unfold_prims. cbn.
  apply enqueue_live, keyLive_enqueue.
Qed.

Lemma stageKey_extractAudio rid :
  stageKey JobType.EXTRACT_AUDIO rid <> "extract-audio-" +:+ rid.
Proof. intros H. vm_compute in H. discriminate. Qed.

(** C6 (as amended).  Each queue helper computes the key of a job of a stage
    other than AI-processing from the stage and the recording id alone:
    "extract-audio-" and the id in [addProcessingJob], the name of the
    next stage, "-" and the id in [addNextJob] -- so an EXTRACT_AUDIO job
    has one key from the first helper and another from the second.  A job
    is queued under a key only if none with that key is pending or active,
    so submitting one twice, through the same helper, leaves exactly one
    pending job of that key, also after the first has become active.  The
    AI-processing job's key ends with the submission time in milliseconds:
    two submissions for the same recording at different times have
    different keys and both join the queue; two submissions in the same
    millisecond share their key and the second is dropped. *)
Theorem dedup_keys :
  (forall rid w,
     queue (snd (addProcessingJob rid w)) =
       enqueue JobType.EXTRACT_AUDIO {| recordingId := rid; data_targetLanguage := None |}
         ("extract-audio-" +:+ rid) (queue w)) /\
  (forall cur next rid w, nextJobMap cur = Some next ->
     next <> JobType.AI_PROCESS /\
     queue (snd (addNextJob cur rid w)) =
       enqueue next {| recordingId := rid; data_targetLanguage := None |}
         (stageKey next rid) (queue w)) /\
  (forall rid, stageKey JobType.EXTRACT_AUDIO rid <> "extract-audio-" +:+ rid) /\
  (forall n d k q,
     keyLive k (enqueue n d k q) = true /\
     enqueue n d k (enqueue n d k q) = enqueue n d k q /\
     (keyLive k q = false ->
        length (liveWithKey k (enqueue n d k (enqueue n d k q))) = 1) /\
     (forall i j, enqueue n d k q !! i = Some j -> live j = true ->
        enqueue n d k (<[i := setState Active j]> (enqueue n d k q)) =
          <[i := setState Active j]> (enqueue n d k q))) /\
  (forall cur rid w,
     queue (snd (addProcessingJob rid (snd (addProcessingJob rid w)))) =
       queue (snd (addProcessingJob rid w)) /\
     queue (snd (addNextJob cur rid (snd (addNextJob cur rid w)))) =
       queue (snd (addNextJob cur rid w)) /\
     (keyLive ("extract-audio-" +:+ rid) (queue w) = false ->
        length (liveWithKey ("extract-audio-" +:+ rid)
                  (queue (snd (addProcessingJob rid (snd (addProcessingJob rid w)))))) = 1) /\
     (forall next, nextJobMap cur = Some next ->
        keyLive (stageKey next rid) (queue w) = false ->
        length (liveWithKey (stageKey next rid)
                  (queue (snd (addNextJob cur rid (snd (addNextJob cur rid w)))))) = 1)) /\
  (forall id lang1 lang2 t1 t2 w,
     (t1 <> t2 ->
        aiProcessKey id t1 <> aiProcessKey id t2 /\
        (keyLive (aiProcessKey id t1) (queue w) = false ->
         keyLive (aiProcessKey id t2) (queue w) = false ->
         queue (snd (addFinalProcessingJob t2 id lang2
                       (snd (addFinalProcessingJob t1 id lang1 w)))) =
           queue w ++ [ aiProcessJob id (default (Lang "en") lang1) t1;
                        aiProcessJob id (default (Lang "en") lang2) t2 ])) /\
     (t1 = t2 ->
        queue (snd (addFinalProcessingJob t2 id lang2
                      (snd (addFinalProcessingJob t1 id lang1 w)))) =
          queue (snd (addFinalProcessingJob t1 id lang1 w)))).
Proof.
  split; [|split; [|split; [|split; [|split]]]].
  - reflexivity.
  - intros cur next rid w H. split.
    + destruct cur; simpl in H; inversion H; discriminate.
    + unfold addNextJob. rewrite H. reflexivity.
  - exact stageKey_extractAudio.
  - intros n d k q. pose proof (keyLive_enqueue n d k q) as Hl.
    split; [exact Hl|]. split; [now apply enqueue_live|]. split.
    + intros H. rewrite (enqueue_live n d k _ Hl). now apply liveWithKey_enqueue.
    + intros i j Hi Hj. apply enqueue_live.
      rewrite (keyLive_setState k _ i j Active Hi Hj eq_refl). exact Hl.
  - intros cur rid w. split; [|split; [|split]].
    + unfold addProcessingJob. unfold_prims. cbn. apply enqueue_live, keyLive_enqueue.
    + unfold addNextJob. destruct (nextJobMap cur); [|reflexivity].
      unfold_prims. cbn. apply enqueue_live, keyLive_enqueue.
    + intros H. unfold addProcessingJob. unfold_prims. cbn.
      rewrite (enqueue_live _ _ _ _ (keyLive_enqueue _ _ _ _)).
      now apply liveWithKey_enqueue.
    + intros next Hnext H. unfold addNextJob. rewrite Hnext. unfold_prims. cbn.
      fold (stageKey next rid).
      rewrite (enqueue_live _ _ _ _ (keyLive_enqueue _ _ _ _)).
      now apply liveWithKey_enqueue.
  - intros id lang1 lang2 t1 t2 w. split.
    + intros Hne. split.
      * intros H. now apply aiProcessKey_inj in H.
      * intros H1 H2. unfold addFinalProcessingJob. unfold_prims. cbn.
        fold (aiProcessKey id t1). fold (aiProcessKey id t2).
        rewrite (enqueue_fresh _ _ _ _ H1). rewrite enqueue_fresh.
        -- now rewrite <- app_assoc.
        -- rewrite keyLive_app, H2. unfold keyLive.
           cbn [existsb live state jobId andb orb].
           destruct (String.eqb_spec (aiProcessKey id t1) (aiProcessKey id t2)) as [E|E];
             [now apply aiProcessKey_inj in E | reflexivity].
    + intros <-. apply same_millisecond_submissions.
Qed.

(** ** Failures of the synthesis server and retries *)

Lemma processWithAI_rejected c t evs rid lang e w :
  axios_post c = Rejected e ->
  processWithAI c t evs rid lang w =
    (Throw (processingError (synthesisMessage e)),
     with_synthesisCalls (fun l => l ++
       [ {| sc_transcript := t; sc_domEvents := evs;
            sc_target_language := default (Lang "en") lang |} ]) w).
Proof.
  intros H. unfold processWithAI, synthesisMessage, isProcessingError, isError.
  unfold_prims. rewrite H. destruct e as [cl msg]. cbn.
  destruct cl as [| | |code status detail|]; cbn; try reflexivity.
  repeat case_match; reflexivity.
Qed.

Lemma synthesisMessage_truthy e : failureKind e <> None -> truthy (synthesisMessage e) = true.
Proof.
  unfold failureKind, synthesisMessage. destruct (class e); try congruence.
  repeat case_match; try congruence; reflexivity.
Qed.

Lemma processAI_rejected c rid lang w r evs e :
  db w !! rid = Some r ->
  needsSynthesis r = true ->
  files w !! Paths.events (getRecordingPaths rid) = Some (Json evs) ->
  axios_post c = Rejected e ->
  fst (processAI c rid lang w) = Throw (processingError (synthesisMessage e)) /\
  queue (snd (processAI c rid lang w)) = queue w /\
  db (snd (processAI c rid lang w)) =
    alter (assignAll [Set_currentStep ProcessingStep.AI_PROCESSING]) rid (db w).
Proof.
  intros Hr Hneed Hev Hax. unfold processAI. unfold_prims.
  cbn [fst snd db with_db with_published files].
  rewrite lookup_alter_eq, Hr. cbn [fmap option_fmap option_map].
  assert (Ht : transcript (assignAll [Set_currentStep ProcessingStep.AI_PROCESSING] r)
               = transcript r) by now destruct r.
  rewrite Ht. unfold needsSynthesis in Hneed. apply negb_true_iff in Hneed.
  rewrite Hneed. cbn in Hev |- *. rewrite Hev. cbn.
  rewrite (processWithAI_rejected _ _ _ _ _ e _ Hax). cbn. auto.
Qed.

(** C9 (as amended).  When the synthesis server fails, the AI_PROCESS
    handler throws and the job is treated like any failed job, whatever the
    kind of failure -- rejected input (HTTP 400) as well as "unreachable"
    and "timed out": the attempt is counted, the record is marked FAILED
    with the error message, and the job is delayed for a retry with
    exponential backoff while fewer than [attempts] (2) attempts were made,
    and parked after that. *)
Theorem synthesis_failure_retried c i job w r evs e :
  queue w !! i = Some job ->
  name job = JobType.AI_PROCESS ->
  recordingId (data job) <> EmptyString ->
  db w !! recordingId (data job) = Some r ->
  needsSynthesis r = true ->
  files w !! Paths.events (getRecordingPaths (recordingId (data job))) = Some (Json evs) ->
  axios_post c = Rejected e ->
  failureKind e <> None ->
  let w' := snd (runJob c i job w) in
  (exists j', queue w' !! i = Some j' /\
     attemptsMade j' = S (attemptsMade job) /\
     state j' = (if (S (attemptsMade job) <? attempts)%nat
                 then Delayed (backoff_delay * 2 ^ N.of_nat (attemptsMade job))
                 else Parked) /\
     (retried j' <-> (S (attemptsMade job) < attempts)%nat)) /\
  (exists r', db w' !! recordingId (data job) = Some r' /\
     status r' = RecordingStatus.FAILED /\
     errorMessage r' = Some (synthesisMessage e)).
Proof.
  intros Hi Hn Hid Hr Hneed Hev Hax Hkind w'. subst w'. unfold runJob, recordingWorker.
  rewrite Hn. unfold tryCatch.
  set (w1 := with_queue _ w).
  destruct (processAI_rejected c (recordingId (data job)) (data_targetLanguage (data job))
              w1 r evs e Hr Hneed Hev Hax) as (Hres & Hq & Hdb).
  destruct (processAI c _ _ w1) as [[a|e'] w2]; simpl in Hres, Hq, Hdb; [discriminate|].
  injection Hres as ->. unfold throw. cbn [fst snd].
  assert (Hlen : (i < length (queue w))%nat) by (eapply lookup_lt_Some; exact Hi).
  assert (Hrid : truthy (recordingId (data job)) = true)
    by (destruct (recordingId (data job)); [congruence | reflexivity]).
  unfold onFailed. cbn [countAttempt data recordingId]. rewrite Hrid.
  unfold_prims. cbn. rewrite Hq. subst w1. cbn. split.
  - exists (setState (afterFailure (S (attemptsMade job))) (countAttempt job)).
    split; [|split; [reflexivity|split]].
    + rewrite list_insert_insert_eq. apply list_lookup_insert_eq. exact Hlen.
    + unfold afterFailure. cbn. now rewrite Nat.sub_0_r.
    + unfold retried. cbn [state setState countAttempt attemptsMade]. unfold afterFailure.
      destruct (S (attemptsMade job) <? attempts)%nat eqn:E.
      * apply Nat.ltb_lt in E. split; eauto.
      * apply Nat.ltb_ge in E. split; [intros [d Hd]; discriminate | lia].
  - rewrite Hdb, !lookup_alter_eq, Hr. cbn. eexists. split; [reflexivity|].
    rewrite (synthesisMessage_truthy e Hkind). now destruct r.
Qed.

(** * Further properties of the code *)

(** ** Token lifetimes *)

Lemma splitLast_app s u : splitLast (s +:+ String u EmptyString) = Some (s, u).
Proof. induction s as [|ch s IH]; simpl; [reflexivity | now rewrite IH]. Qed.

Lemma pretty_N_char_digit x : isDigit (pretty_N_char x) = true.
Proof. unfold pretty_N_char. repeat case_match; reflexivity. Qed.

Lemma pretty_N_char_value x : (x < 10)%N -> digitValue (pretty_N_char x) = x.
Proof.
  intros H.
  assert (x = 0 \/ x = 1 \/ x = 2 \/ x = 3 \/ x = 4 \/ x = 5 \/ x = 6 \/ x = 7 \/
          x = 8 \/ x = 9)%N as Hx by lia.
  repeat (destruct Hx as [->|Hx]; [reflexivity|]). now subst.
Qed.

Lemma pretty_N_go_digits x s : allDigits s = true -> allDigits (pretty_N_go x s) = true.
Proof.
  revert s. induction (N.lt_wf_0 x) as [x _ IH]; intros s Hs.
  assert (x = 0 \/ 0 < x)%N as [->|Hx] by lia; [now rewrite pretty_N_go_0|].
  rewrite pretty_N_go_step by exact Hx. apply IH; [now apply N.div_lt|].
  cbn. now rewrite pretty_N_char_digit.
Qed.

Lemma pretty_N_go_truthy x s : truthy s = true -> truthy (pretty_N_go x s) = true.
Proof.
  revert s. induction (N.lt_wf_0 x) as [x _ IH]; intros s Hs.
  assert (x = 0 \/ 0 < x)%N as [->|Hx] by lia; [now rewrite pretty_N_go_0|].
  rewrite pretty_N_go_step by exact Hx. apply IH; [now apply N.div_lt | reflexivity].
Qed.

Lemma parseIntFrom_pretty_N_go x :
  exists k, forall acc s,
    parseIntFrom acc (pretty_N_go x s) = parseIntFrom (acc * 10 ^ k + x)%N s.
Proof.
  induction (N.lt_wf_0 x) as [x _ IH].
  assert (x = 0 \/ 0 < x)%N as [->|Hx] by lia.
  - exists 0%N. intros acc s. rewrite pretty_N_go_0. f_equal. lia.
  - destruct (IH (x `div` 10)%N) as [k Hk]; [now apply N.div_lt|].
    exists (k + 1)%N. intros acc s. rewrite pretty_N_go_step by exact Hx.
    rewrite Hk. cbn [parseIntFrom]. f_equal.
    rewrite pretty_N_char_value by (apply N.mod_lt; lia).
    rewrite N.pow_add_r, N.pow_1_r.
    pose proof (N.div_mod x 10 ltac:(lia)) as Hdm. lia.
Qed.

Lemma allDigits_pretty (n : N) : allDigits (pretty n) = true.
Proof.
  unfold pretty, pretty_N. case_decide; [reflexivity|]. now apply pretty_N_go_digits.
Qed.

Lemma truthy_pretty (n : N) : truthy (pretty n) = true.
Proof.
  unfold pretty, pretty_N. case_decide; [reflexivity|].
  assert (0 < n)%N as Hn by lia. rewrite pretty_N_go_step by exact Hn.
  now apply pretty_N_go_truthy.
Qed.

Lemma parseInt_pretty (n : N) : parseInt (pretty n) = n.
Proof.
  unfold parseInt, pretty, pretty_N. case_decide as Hn; [now subst|].
  destruct (parseIntFrom_pretty_N_go n) as [k Hk]. rewrite Hk. cbn. lia.
Qed.

Lemma splitLast_digits s init last :
  splitLast s = Some (init, last) -> allDigits s = true -> isDigit last = true.
Proof.
  revert init. induction s as [|ch s IH]; intros init; cbn; [discriminate|].
  destruct (splitLast s) as [[i l]|] eqn:E.
  - intros [= <- <-] H. apply andb_true_iff in H as [_ H]. now apply (IH i).
  - intros [= <- <-] H. now apply andb_true_iff in H as [H _].
Qed.

Lemma isDigit_not_unit ch : isDigit ch = true -> isUnit ch = false.
Proof.
  unfold isDigit, isUnit. intros H.
  destruct (Ascii.eqb_spec ch "s") as [->|_]; [discriminate|].
  destruct (Ascii.eqb_spec ch "m") as [->|_]; [discriminate|].
  destruct (Ascii.eqb_spec ch "h") as [->|_]; [discriminate|].
  destruct (Ascii.eqb_spec ch "d") as [->|_]; [discriminate|]. reflexivity.
Qed.

(** X1.  [parseExpiryToMs] reads the decimal numeral of a number [n] followed
    by one of the units s, m, h, d as [n] times the length of that unit in
    milliseconds (as long as the product is below 2^53, where JavaScript's
    numbers are exact), and the numeral alone, without a unit, as the
    default of seven days. *)
Theorem parseExpiryToMs_numeral (n : N) (u : ascii) :
  isUnit u = true ->
  (n * unitMs u < 2 ^ 53)%N ->
  parseExpiryToMs (pretty n +:+ String u EmptyString) = (n * unitMs u)%N /\
  parseExpiryToMs (pretty n) = 604800000%N.
Proof.
  intros Hu _. split.
  - unfold parseExpiryToMs, matchExpiry.
    rewrite splitLast_app, truthy_pretty, allDigits_pretty, Hu. cbn [andb].
    rewrite parseInt_pretty. unfold unitMs, isUnit in *.
    destruct (Ascii.eqb u "s"); [lia|]. destruct (Ascii.eqb u "m"); [lia|].
    destruct (Ascii.eqb u "h"); [lia|]. destruct (Ascii.eqb u "d"); [lia|discriminate].
  - unfold parseExpiryToMs, matchExpiry.
    destruct (splitLast (pretty n)) as [[digits u']|] eqn:E; [|reflexivity].
    rewrite (isDigit_not_unit u' (splitLast_digits _ _ _ E (allDigits_pretty n))).
    now rewrite andb_false_r.
Qed.

(** ** A job run stays within its recording *)

Lemma altersOnly_storeOnly rid d0 : storeOnly (altersOnly rid d0).
Proof. intros w w' Hd _ [f Hf]. exists f. now rewrite Hd. Qed.

Lemma altersOnly_refl rid w : altersOnly rid (db w) w.
Proof. exists id. symmetry. apply alter_id. auto. Qed.

Lemma alters_update rid d0 us (E : Assertion) :
  hoare (altersOnly rid d0) (findByIdAndUpdate rid us) (fun _ => altersOnly rid d0) E.
Proof.
  intros w [f Hf]. exists (assignAll us ∘ f). cbn. rewrite Hf. apply alter_alter_eq.
Qed.

Lemma alters_addNextJob rid d0 cur id (E : Assertion) :
  hoare (altersOnly rid d0) (addNextJob cur id) (fun _ => altersOnly rid d0) E.
Proof.
  unfold addNextJob. destruct (nextJobMap cur); [|now apply hoare_ret].
  intros w H. exact H.
Qed.

Lemma alters_frame {A} rid d0 (m : M A) :
  frame m -> hoare (altersOnly rid d0) m (fun _ => altersOnly rid d0) (altersOnly rid d0).
Proof. intros Hm. apply hoare_frame; [apply altersOnly_storeOnly | exact Hm]. Qed.

Ltac astep :=
  cbn zeta;
  lazymatch goal with
  | |- hoare _ (bind _ _) _ _ => eapply hoare_bind; [ | intros ? ]
  | |- hoare _ (tryCatch _ _) _ _ => eapply hoare_tryCatch; [ | intros ? ]
  | |- hoare _ (match ?x with _ => _ end) _ _ => destruct x
  | |- hoare _ (findByIdAndUpdate _ _) _ _ => apply alters_update
  | |- hoare _ (addNextJob _ _) _ _ => apply alters_addNextJob
  | |- hoare _ (ret _) _ _ => apply hoare_ret; intros ? H; exact H
  | |- hoare _ (throw _) _ _ => apply hoare_throw; intros ? H; exact H
  | |- hoare _ _ _ _ => apply alters_frame; solve [frm]
  end.

Lemma recordingWorker_alters c job d0 :
  hoare (altersOnly (recordingId (data job)) d0) (recordingWorker c job)
        (fun _ => altersOnly (recordingId (data job)) d0)
        (altersOnly (recordingId (data job)) d0).
Proof.
  unfold recordingWorker, processExtractAudio, processTranscribe, processAI, processZoom,
    processMerge.
  repeat astep.
Qed.

Lemma onFailed_alters job error d0 :
  hoare (altersOnly (recordingId (data job)) d0) (onFailed job error)
        (fun _ => altersOnly (recordingId (data job)) d0)
        (altersOnly (recordingId (data job)) d0).
Proof. unfold onFailed. repeat astep. Qed.

Lemma processRecording_alters t id language d0 :
  hoare (altersOnly id d0) (processRecording t id language)
        (fun _ => altersOnly id d0) (altersOnly id d0).
Proof.
  unfold processRecording. repeat astep.
  unfold addFinalProcessingJob. intros w H. exact H.
Qed.

Lemma altersOnly_sameRecordsBut rid w w' :
  altersOnly rid (db w) w' -> sameRecordsBut rid w w'.
Proof.
  intros [f Hf]. split.
  - intros id Hne. rewrite Hf. now apply lookup_alter_ne.
  - intros id. rewrite Hf. destruct (decide (rid = id)) as [<-|Hne].
    + rewrite lookup_alter_eq. apply fmap_is_Some.
    + now rewrite lookup_alter_ne.
Qed.

(** X2.  Whatever the collaborators answer and whether it returns or throws,
    the processor of the unified worker changes no record but the one its
    job names, and it neither creates nor removes a record -- a job left
    over for a deleted recording does not bring the record back; the same
    holds for the worker's "failed" listener and for the process request. *)
Theorem job_touches_one_record c job error t id language w :
  sameRecordsBut (recordingId (data job)) w (snd (recordingWorker c job w)) /\
  sameRecordsBut (recordingId (data job)) w (snd (onFailed job error w)) /\
  sameRecordsBut id w (snd (processRecording t id language w)).
Proof.
  split; [|split]; apply altersOnly_sameRecordsBut.
  - exact (hoare_snd _ _ _ _ (recordingWorker_alters c job (db w)) (altersOnly_refl _ w)).
  - exact (hoare_snd _ _ _ _ (onFailed_alters job error (db w)) (altersOnly_refl _ w)).
  - exact (hoare_snd _ _ _ _ (processRecording_alters t id language (db w))
             (altersOnly_refl _ w)).
Qed.

(** ** Files are written in the recording's directory only *)

Lemma inDirectory_join dirPath n : inDirectory dirPath (path_join dirPath n) = true.
Proof.
  unfold inDirectory, path_join. induction dirPath as [|ch s IH]; simpl.
  - destruct (ascii_dec "/" "/"); [|congruence]. now destruct n.
  - destruct (ascii_dec ch ch); [exact IH | congruence].
Qed.

Lemma writes_same {A} dirPath (m : M A) :
  (forall w, files (snd (m w)) = files w) -> writesUnder dirPath m.
Proof. intros H w p _. now rewrite H. Qed.

Lemma writes_ret {A} dirPath (a : A) : writesUnder dirPath (ret a).
Proof. now apply writes_same. Qed.

Lemma writes_throw {A} dirPath (e : Error) : writesUnder dirPath (@throw A e).
Proof. now apply writes_same. Qed.

Lemma writes_bind {A B} dirPath (m : M A) (k : A -> M B) :
  writesUnder dirPath m -> (forall a, writesUnder dirPath (k a)) ->
  writesUnder dirPath (bind m k).
Proof.
  intros Hm Hk w p Hp. unfold bind. specialize (Hm w p Hp).
  destruct (m w) as [[a|e] w']; simpl in *; [|exact Hm].
  now rewrite (Hk a w' p Hp).
Qed.

Lemma writes_tryCatch {A} dirPath (m : M A) (h : Error -> M A) :
  writesUnder dirPath m -> (forall e, writesUnder dirPath (h e)) ->
  writesUnder dirPath (tryCatch m h).
Proof.
  intros Hm Hh w p Hp. unfold tryCatch. specialize (Hm w p Hp).
  destruct (m w) as [[a|e] w']; simpl in *; [exact Hm|].
  now rewrite (Hh e w' p Hp).
Qed.

Lemma writes_saveFile dirPath p d :
  inDirectory dirPath p = true -> writesUnder dirPath (saveFile p d).
Proof.
  intros Hin w q Hq. cbn. apply lookup_insert_ne. intros ->. congruence.
Qed.

Lemma writes_findByIdAndUpdate dirPath id us : writesUnder dirPath (findByIdAndUpdate id us).
Proof. now apply writes_same. Qed.

Lemma writes_findByIdAndDelete dirPath id : writesUnder dirPath (findByIdAndDelete id).
Proof. now apply writes_same. Qed.

Lemma writes_saveNew dirPath r : writesUnder dirPath (saveNew r).
Proof. now apply writes_same. Qed.

Lemma writes_findById dirPath id : writesUnder dirPath (findById id).
Proof. now apply writes_same. Qed.

Lemma writes_emitProcessingUpdate dirPath rid s :
  writesUnder dirPath (emitProcessingUpdate rid s).
Proof. now apply writes_same. Qed.

Lemma writes_emitError dirPath rid s : writesUnder dirPath (emitError rid s).
Proof. now apply writes_same. Qed.

Lemma writes_consoleLog dirPath s : writesUnder dirPath (consoleLog s).
Proof. now apply writes_same. Qed.

Lemma writes_recordingQueue_add dirPath n d k : writesUnder dirPath (recordingQueue_add n d k).
Proof. now apply writes_same. Qed.

Lemma writes_addNextJob dirPath cur rid : writesUnder dirPath (addNextJob cur rid).
Proof.
  unfold addNextJob. destruct (nextJobMap cur);
    [apply writes_recordingQueue_add | apply writes_ret].
Qed.

Lemma writes_addFinalProcessingJob dirPath t rid lang :
  writesUnder dirPath (addFinalProcessingJob t rid lang).
Proof. apply writes_recordingQueue_add. Qed.

Lemma writes_addProcessingJob dirPath rid : writesUnder dirPath (addProcessingJob rid).
Proof. apply writes_recordingQueue_add. Qed.

Lemma writes_readFileSync dirPath p : writesUnder dirPath (readFileSync p).
Proof. apply writes_same. intros w. unfold readFileSync. now destruct (files w !! p). Qed.

Lemma writes_readJsonFile dirPath p : writesUnder dirPath (readJsonFile p).
Proof.
  apply writes_bind; [apply writes_readFileSync|].
  intros [s|evs|b]; first [apply writes_ret | apply writes_throw].
Qed.

Lemma writes_existsSync dirPath p : writesUnder dirPath (existsSync p).
Proof. now apply writes_same. Qed.

Lemma writes_copyFileSync dirPath a b :
  inDirectory dirPath b = true -> writesUnder dirPath (copyFileSync a b).
Proof.
  intros H. apply writes_bind; [apply writes_readFileSync|].
  intros d. now apply writes_saveFile.
Qed.

Lemma writes_writeFileSync dirPath p s :
  inDirectory dirPath p = true -> writesUnder dirPath (writeFileSync p s).
Proof. apply writes_saveFile. Qed.

Lemma writes_saveBase64File dirPath p s :
  inDirectory dirPath p = true -> writesUnder dirPath (saveBase64File p s).
Proof. apply writes_saveFile. Qed.

Lemma writes_deleteDirectory dirPath : writesUnder dirPath (deleteDirectory dirPath).
Proof.
  intros w p Hp. cbn. rewrite map_lookup_filter.
  destruct (files w !! p) as [d|]; [|reflexivity]. cbn.
  apply option_guard_True. exact Hp.
Qed.

Lemma writes_extractAudio dirPath c a b :
  inDirectory dirPath b = true -> writesUnder dirPath (extractAudio c a b).
Proof.
  intros H. unfold extractAudio. destruct (ffmpeg_extractAudio c);
    [now apply writes_saveFile | apply writes_throw].
Qed.

Lemma writes_applyZoomEffects dirPath c a b evs rid :
  inDirectory dirPath b = true -> writesUnder dirPath (applyZoomEffects c a b evs rid).
Proof.
  intros H. unfold applyZoomEffects.
  destruct (ffmpeg_applyZoomEffects c); [|apply writes_throw].
  destruct (filterEvents _ evs); [now apply writes_saveFile | apply writes_throw].
Qed.

Lemma writes_mergeAudioVideo dirPath c a b o rid :
  inDirectory dirPath o = true -> writesUnder dirPath (mergeAudioVideo c a b o rid).
Proof.
  intros H. apply writes_bind; [now apply writes_same|]. intros _.
  destruct (ffmpeg_mergeAudioVideo c); [now apply writes_saveFile | apply writes_throw].
Qed.

Lemma writes_transcribeAudio dirPath c p rid : writesUnder dirPath (transcribeAudio c p rid).
Proof. apply writes_same. intros w. now rewrite transcribeAudio_world. Qed.

Lemma writes_processWithAI dirPath c t evs rid lang :
  writesUnder dirPath (processWithAI c t evs rid lang).
Proof.
  apply writes_tryCatch.
  - apply writes_bind; [now apply writes_same|]. intros _.
    destruct (axios_post c) as [[cs vo]|err]; [|apply writes_throw].
    destruct (_ || _); first [apply writes_ret | apply writes_throw].
  - intros e. destruct (isProcessingError e); [apply writes_throw|].
    destruct (class e); try apply writes_throw.
    repeat (case_match; try apply writes_throw).
Qed.

Create HintDb writes.
#[local] Hint Resolve inDirectory_join writes_ret writes_throw writes_saveFile
  writes_findByIdAndUpdate writes_findByIdAndDelete writes_saveNew writes_findById
  writes_emitProcessingUpdate writes_emitError writes_consoleLog
  writes_recordingQueue_add writes_addNextJob writes_addFinalProcessingJob
  writes_addProcessingJob writes_readFileSync writes_readJsonFile writes_existsSync
  writes_copyFileSync writes_writeFileSync writes_saveBase64File writes_deleteDirectory
  writes_extractAudio writes_applyZoomEffects writes_mergeAudioVideo
  writes_transcribeAudio writes_processWithAI : writes.

Ltac wstep :=
  cbn zeta;
  lazymatch goal with
  | |- writesUnder _ (bind _ _) => apply writes_bind; [ | intros ? ]
  | |- writesUnder _ (tryCatch _ _) => apply writes_tryCatch; [ | intros ? ]
  | |- writesUnder _ (match ?x with _ => _ end) => destruct x
  | |- writesUnder _ _ => solve [eauto with writes]
  end.

Ltac wrt :=
  unfold getRecordingPaths;
  cbn [Paths.directory Paths.rawVideo Paths.events Paths.audio Paths.transcript
       Paths.voiceover Paths.zoomedVideo Paths.finalVideo];
  repeat wstep.

Lemma recordingWorker_writes c job :
  writesUnder (getRecordingDirectory (recordingId (data job))) (recordingWorker c job).
Proof.
  unfold recordingWorker, processExtractAudio, processTranscribe, processAI, processZoom,
    processMerge.
  wrt.
Qed.

Lemma deleteRecording_writes id : writesUnder (getRecordingDirectory id) (deleteRecording id).
Proof. unfold deleteRecording. wrt. Qed.

Lemma processRecording_files t id language w :
  files (snd (processRecording t id language w)) = files w.
Proof.
  unfold processRecording, addFinalProcessingJob. unfold_prims.
  destruct (db w !! id); [|reflexivity]. now destruct (negb _ && negb _ && negb _).
Qed.

(** X3.  Every file written or removed for a recording lies in that
    recording's directory: a file outside it is the same before and after
    the processor of the unified worker has run a job (whether it returns
    or throws; an ffmpeg run writes its output file only) and before and
    after a deletion; the "failed" listener and the process request change
    no file at all. *)
Theorem files_outside_directory_untouched p :
  (forall c job w,
     inDirectory (getRecordingDirectory (recordingId (data job))) p = false ->
     files (snd (recordingWorker c job w)) !! p = files w !! p) /\
  (forall id w,
     inDirectory (getRecordingDirectory id) p = false ->
     files (snd (deleteRecording id w)) !! p = files w !! p) /\
  (forall job error w, files (snd (onFailed job error w)) = files w) /\
  (forall t id language w, files (snd (processRecording t id language w)) = files w).
Proof.
  split; [|split; [|split]].
  - intros c job w Hp. now apply recordingWorker_writes.
  - intros id w Hp. now apply deleteRecording_writes.
  - intros job error w. unfold onFailed. unfold_prims.
    now destruct (truthy (recordingId (data job))).
  - intros t id language w. apply processRecording_files.
Qed.

(** ** The records follow the file layout *)

Lemma Conventional_storeOnly : storeOnly Conventional.
Proof. intros w w' Hd _ H. unfold Conventional. now rewrite Hd. Qed.

Lemma conv_update rid us (E : Assertion) :
  (forall r, conventional rid r -> conventional rid (assignAll us r)) ->
  hoare Conventional (findByIdAndUpdate rid us) (fun _ => Conventional) E.
Proof.
  intros Hus w Hw id r'. cbn. destruct (decide (rid = id)) as [<-|Hne].
  - rewrite lookup_alter_eq. destruct (db w !! rid) as [r|] eqn:Hr; [|discriminate].
    intros [= <-]. apply Hus. now apply Hw.
  - rewrite lookup_alter_ne by exact Hne. apply Hw.
Qed.

Lemma conv_addNextJob cur id (E : Assertion) :
  hoare Conventional (addNextJob cur id) (fun _ => Conventional) E.
Proof.
  unfold addNextJob. destruct (nextJobMap cur); [|now apply hoare_ret].
  intros w H. exact H.
Qed.

Lemma conv_addFinalProcessingJob t id lang (E : Assertion) :
  hoare Conventional (addFinalProcessingJob t id lang) (fun _ => Conventional) E.
Proof. intros w H. exact H. Qed.

Lemma conv_frame {A} (m : M A) :
  frame m -> hoare Conventional m (fun _ => Conventional) Conventional.
Proof. intros Hm. apply hoare_frame; [apply Conventional_storeOnly | exact Hm]. Qed.

Ltac conv :=
  let r := fresh "r" in
  intros r; destruct r; unfold conventional, assignAll; cbn;
  intros (? & ? & ? & ? & ? & ? & ? & ? & ? & ? & ? & ?);
  repeat split;
  first [ assumption | tauto | intros ? [= <-]; auto | intros _; eauto | eauto ].

Ltac cstep :=
  cbn zeta;
  lazymatch goal with
  | |- hoare _ (bind _ _) _ _ => eapply hoare_bind; [ | intros ? ]
  | |- hoare _ (tryCatch _ _) _ _ => eapply hoare_tryCatch; [ | intros ? ]
  | |- hoare _ (match ?x with _ => _ end) _ _ => destruct x
  | |- hoare _ (findByIdAndUpdate _ _) _ _ => apply conv_update; conv
  | |- hoare _ (addNextJob _ _) _ _ => apply conv_addNextJob
  | |- hoare _ (addFinalProcessingJob _ _ _) _ _ => apply conv_addFinalProcessingJob
  | |- hoare _ (ret _) _ _ => apply hoare_ret; intros ? H; exact H
  | |- hoare _ (throw _) _ _ => apply hoare_throw; intros ? H; exact H
  | |- hoare _ _ _ _ => apply conv_frame; solve [frm]
  end.

Lemma recordingWorker_Conventional c job :
  hoare Conventional (recordingWorker c job) (fun _ => Conventional) Conventional.
Proof.
  unfold recordingWorker, processExtractAudio, processTranscribe, processAI, processZoom,
    processMerge.
  repeat cstep.
Qed.

Lemma onFailed_Conventional job error :
  hoare Conventional (onFailed job error) (fun _ => Conventional) Conventional.
Proof. unfold onFailed. repeat cstep. Qed.

Lemma processRecording_Conventional t id language :
  hoare Conventional (processRecording t id language) (fun _ => Conventional) Conventional.
Proof. unfold processRecording. repeat cstep. Qed.

Lemma truthy_app_r s t : truthy t = true -> truthy (s +:+ t) = true.
Proof. destruct s; [auto | reflexivity]. Qed.

Lemma truthy_path_join a b : truthy (path_join a b) = true.
Proof. unfold path_join. now apply truthy_app_r. Qed.

Lemma uploadRecording_Conventional rid video events title description userId w :
  Conventional w ->
  Conventional (snd (uploadRecording rid video events title description userId w)).
Proof.
  intros Hw id r. cbn. intros H.
  apply lookup_insert_Some in H as [[<- <-]|[_ H]]; [|now apply Hw].
  unfold conventional. cbn.
  repeat split; try discriminate; try (intros [x Hx]; discriminate); eauto.
  destruct title as [[|ch t]|]; cbn; eauto.
Qed.

Lemma deleteRecording_Conventional id w :
  Conventional w -> Conventional (snd (deleteRecording id w)).
Proof.
  intros Hw. unfold deleteRecording, bind, findById, gets. simpl.
  destruct (db w !! id) as [r0|]; simpl; [|exact Hw].
  intros id' r H. cbn in H. apply lookup_delete_Some in H as [_ H]. now apply Hw.
Qed.

Lemma step_Conventional w w' : step w w' -> Conventional w -> Conventional w'.
Proof.
  intros Hs Hw. destruct Hs as [rid video events title description userId w Hf Hq
                               | t id language w | id w | c i job w Hi Hrun].
  - now apply uploadRecording_Conventional.
  - now apply (hoare_snd _ _ _ _ (processRecording_Conventional t id language)).
  - now apply deleteRecording_Conventional.
  - unfold runJob. set (w1 := with_queue _ w).
    pose proof (recordingWorker_Conventional c job w1 Hw) as H2.
    destruct (recordingWorker c job w1) as [[a|e] w2]; [exact H2|].
    now apply (hoare_snd _ _ _ _ (onFailed_Conventional (countAttempt job) e)).
Qed.

Lemma reachable_Conventional w : reachable w -> Conventional w.
Proof.
  unfold reachable. intros H. revert w H. apply rtc_ind_r.
  - intros id r H. simpl in H. now rewrite lookup_empty in H.
  - intros y z _ Hs IH. eapply step_Conventional; eassumption.
Qed.

(** X4.  In every reachable state of the pipeline a record is stored under
    its own id and points into its own recording's directory: the raw video
    and events paths are the conventional ones, every artifact path that is
    set is the conventional path of that artifact (the zoomed video path may
    be the raw video's), the transcript is set exactly when its path is, the
    cleaned script exactly when the voiceover path is, the final video path
    exactly when the completion time is, and the title is never empty. *)
Theorem reachable_records_conventional w id r :
  reachable w ->
  db w !! id = Some r ->
  conventional id r.
Proof. intros Hreach Hr. exact (reachable_Conventional w Hreach id r Hr). Qed.

(** ** Serving the raw and the final video *)

Lemma containsDot_app s t : containsDot (s +:+ t) = containsDot s || containsDot t.
Proof.
  unfold containsDot. induction s as [|ch s IH]; simpl; [reflexivity|].
  now rewrite IH, orb_assoc.
Qed.

Lemma lastSegment_app s t : containsDot t = true -> lastSegment (s +:+ t) = lastSegment t.
Proof.
  intros Ht. induction s as [|ch s IH]; simpl; [reflexivity|].
  now rewrite containsDot_app, Ht, orb_true_r.
Qed.

Lemma rawVideo_extension rid :
  toLowerCase (lastSegment (Paths.rawVideo (getRecordingPaths rid))) = "webm".
Proof.
  cbn [getRecordingPaths Paths.rawVideo]. unfold path_join.
  now rewrite lastSegment_app.
Qed.

Lemma rawVideo_truthy rid : truthy (Paths.rawVideo (getRecordingPaths rid)) = true.
Proof. cbn [getRecordingPaths Paths.rawVideo]. unfold path_join. now apply truthy_app_r. Qed.


(** X5.  Right after an upload the raw-video endpoint serves what was
    uploaded, from the conventional raw path, for inline playback with byte
    ranges, and announces it as video/webm -- the stored name decides, not
    the format of the uploaded file. *)
Theorem streamRawVideo_after_upload rid video events title description userId w :
  streamRawVideo rid (snd (uploadRecording rid video events title description userId w)) =
    inr {| contentType := HeaderString "video/webm";
           contentDisposition := None;
           acceptRanges := Some "bytes";
           streamedPath := Paths.rawVideo (getRecordingPaths rid);
           body := video |}.
Proof.
  unfold streamRawVideo.
  assert (Hdb : exists r, db (snd (uploadRecording rid video events title description userId w))
                  !! rid = Some r /\ filePath r = Paths.rawVideo (getRecordingPaths rid)).
  { cbn. eexists. split; [apply lookup_insert_eq | reflexivity]. }
  destruct Hdb as (r & -> & ->).
  assert (Hf : files (snd (uploadRecording rid video events title description userId w))
                 !! Paths.rawVideo (getRecordingPaths rid) = Some video).
  { cbn. rewrite lookup_insert_ne; [apply lookup_insert_eq|].
    unfold path_join. intros H. do 2 apply append_inj_r in H. discriminate. }
  rewrite Hf, rawVideo_truthy, rawVideo_extension. reflexivity.
Qed.

(** X6.  In every reachable state the raw-video endpoint either answers 404
    (no such recording, or its raw file is gone) or streams the file at the
    recording's conventional raw path with content type video/webm. *)
Theorem streamRawVideo_reachable w id :
  reachable w ->
  match streamRawVideo id w with
  | inl e =>
      statusCode e = 404%N /\
      (db w !! id = None \/ files w !! Paths.rawVideo (getRecordingPaths id) = None)
  | inr resp =>
      is_Some (db w !! id) /\
      contentType resp = HeaderString "video/webm" /\
      streamedPath resp = Paths.rawVideo (getRecordingPaths id) /\
      files w !! Paths.rawVideo (getRecordingPaths id) = Some (body resp)
  end.
Proof.
  intros Hreach. unfold streamRawVideo.
  destruct (db w !! id) as [r|] eqn:Hr; [|split; [reflexivity | now left]].
  destruct (reachable_Conventional w Hreach id r Hr) as (_ & -> & _).
  rewrite rawVideo_truthy, rawVideo_extension. cbn [negb].
  destruct (files w !! Paths.rawVideo (getRecordingPaths id)) as [d|] eqn:Hf.
  - cbn. eauto.
  - split; [reflexivity | now right].
Qed.

Lemma processMerge_final c rid w r d :
  db w !! rid = Some r ->
  ffmpeg_mergeAudioVideo c = Resolved d ->
  let paths := getRecordingPaths rid in
  let w' := snd (processMerge c rid w) in
  files w' !! Paths.finalVideo paths = Some d /\
  exists r', db w' !! rid = Some r' /\
    status r' = RecordingStatus.COMPLETED /\
    finalVideoPath r' = Some (Paths.finalVideo paths) /\
    title r' = title r.
Proof.
  intros Hr Hd paths w'. subst w' paths. unfold processMerge, mergeAudioVideo. unfold_prims.
  cbn [fst snd db with_db with_published].
  rewrite lookup_alter_eq, Hr. cbn [fmap option_fmap option_map]. rewrite Hd. cbn.
  split; [apply lookup_insert_eq|].
  rewrite !lookup_alter_eq, Hr. cbn. eexists. split; [reflexivity|]. now destruct r.
Qed.




(** ** The stages: what each one leaves behind *)

Ltac fields r := destruct r; cbn; repeat split; reflexivity.

(** X9.  The EXTRACT_AUDIO stage marks the recording PROCESSING at step
    EXTRACTING_AUDIO and publishes that step before ffmpeg runs.  When
    ffmpeg succeeds, its output is the audio file, [audioPath] is set to it
    and the TRANSCRIBE job is submitted under "transcribe-" and the id; when
    ffmpeg fails, the handler throws a ProcessingError "Audio extraction
    failed: ..." and neither the audio path nor the queue has changed. *)
Theorem processExtractAudio_outcome c rid w r :
  db w !! rid = Some r ->
  let paths := getRecordingPaths rid in
  let w' := snd (processExtractAudio c rid w) in
  published w' = published w ++ [ stepUpdate rid ProcessingStep.EXTRACTING_AUDIO ] /\
  (exists r', db w' !! rid = Some r' /\
     status r' = RecordingStatus.PROCESSING /\
     currentStep r' = Some ProcessingStep.EXTRACTING_AUDIO /\
     processingStartedAt r' = Some (now c) /\
     audioPath r' = match ffmpeg_extractAudio c with
                    | Resolved _ => Some (Paths.audio paths)
                    | Rejected _ => audioPath r
                    end) /\
  match ffmpeg_extractAudio c with
  | Resolved d =>
      fst (processExtractAudio c rid w) = Ok (Success "audioPath" (Paths.audio paths)) /\
      files w' !! Paths.audio paths = Some d /\
      queue w' = enqueue JobType.TRANSCRIBE (stageData rid) ("transcribe-" +:+ rid) (queue w)
  | Rejected e =>
      fst (processExtractAudio c rid w) =
        Throw (processingError ("Audio extraction failed: " +:+ message e)) /\
      queue w' = queue w
  end.
Proof.
  intros Hr paths w'. subst w' paths. unfold processExtractAudio, extractAudio, addNextJob.
  cbn [nextJobMap]. unfold_prims.
  destruct (ffmpeg_extractAudio c) as [d|e]; cbn.
  - split; [reflexivity|]. split.
    + rewrite !lookup_alter_eq, Hr. cbn. eexists. split; [reflexivity|]. fields r.
    + split; [reflexivity|]. split; [apply lookup_insert_eq | reflexivity].
  - split; [reflexivity|]. split; [|auto].
    rewrite !lookup_alter_eq, Hr. cbn. eexists. split; [reflexivity|]. fields r.
Qed.

Lemma transcribeAudio_files c p rid w1 w2 :
  files w1 = files w2 ->
  fst (transcribeAudio c p rid w1) = fst (transcribeAudio c p rid w2).
Proof.
  intros H. unfold transcribeAudio. unfold_prims. rewrite H.
  destruct (files w2 !! p); [|now destruct (isProcessingError _)].
  destruct (deepgram_transcribeFile c) as [[res [err|]]|err]; simpl;
    try reflexivity; now destruct (isProcessingError _).
Qed.

Lemma transcribeAudio_cases c p rid w :
  snd (transcribeAudio c p rid w) = w /\
  match fst (transcribeAudio c p rid w) with
  | Ok t =>
      is_Some (files w !! p) /\
      exists result, deepgram_transcribeFile c = Resolved (result, None) /\
                     t = orElse result EmptyString
  | Throw e =>
      isProcessingError e = true /\
      (files w !! p = None ->
         message e = "Transcription failed: " +:+ message (enoent p)) /\
      (is_Some (files w !! p) ->
         forall result error, deepgram_transcribeFile c = Resolved (result, Some error) ->
         message e = "Deepgram transcription error: " +:+ error)
  end.
Proof.
  split; [now rewrite transcribeAudio_world|].
  unfold transcribeAudio. unfold_prims.
  destruct (files w !! p) as [d|] eqn:Hf.
  - destruct (deepgram_transcribeFile c) as [[res [err|]]|err] eqn:Hd; cbn.
    + split; [reflexivity|]. split; [discriminate|]. now intros _ result error [= _ <-].
    + split; [eauto|]. eauto.
    + destruct (isProcessingError err) eqn:E; cbn.
      * split; [exact E|]. split; [discriminate | intros _ result error H; discriminate].
      * split; [reflexivity|]. split; [discriminate | intros _ result error H; discriminate].
  - cbn. split; [reflexivity|]. split; [reflexivity|]. intros [x Hx]. discriminate.
Qed.

(** X10.  The transcription client changes nothing in the world.  It returns
    exactly when the audio file can be read and the service answers without
    an error, and what it returns is then the transcript of the reply (the
    empty string when the reply has none); in every other case it throws,
    and every error it throws is a ProcessingError: a missing audio file
    gives "Transcription failed: " and the file error, an error in the
    reply gives "Deepgram transcription error: " and its message. *)
Theorem transcribeAudio_outcome c p rid w :
  snd (transcribeAudio c p rid w) = w /\
  (forall t,
     fst (transcribeAudio c p rid w) = Ok t <->
     is_Some (files w !! p) /\
     exists result, deepgram_transcribeFile c = Resolved (result, None) /\
                    t = orElse result EmptyString) /\
  (forall e,
     fst (transcribeAudio c p rid w) = Throw e ->
     isProcessingError e = true /\
     (files w !! p = None \/
      (forall result, deepgram_transcribeFile c <> Resolved (result, None))) /\
     (files w !! p = None ->
        message e = "Transcription failed: " +:+ message (enoent p)) /\
     (is_Some (files w !! p) ->
        forall result error, deepgram_transcribeFile c = Resolved (result, Some error) ->
        message e = "Deepgram transcription error: " +:+ error)).
Proof.
  destruct (transcribeAudio_cases c p rid w) as [Hw Hcases].
  split; [exact Hw|]. split.
  - intros t. split.
    + intros Ht. rewrite Ht in Hcases. exact Hcases.
    + intros (Hf & result & Hc & ->). now apply transcribeAudio_empty.
  - intros e He. rewrite He in Hcases. destruct Hcases as (Hpe & Hmissing & Hreply).
    split; [exact Hpe|]. split; [|split; [exact Hmissing | exact Hreply]].
    destruct (files w !! p) as [d|] eqn:Hf; [right | now left].
    intros result Hc.
    rewrite (transcribeAudio_empty c p rid w result) in He; [discriminate | | exact Hc].
    rewrite Hf. eauto.
Qed.

(** X11.  The TRANSCRIBE stage publishes its step before calling the
    transcription client.  When the client returns a transcript, the same
    text is written to the transcript file and stored on the record together
    with the file's path, and the COMPLETED step is published; when the
    client throws, the handler throws the same ProcessingError and the
    record's transcript, transcript path and status, the files and the
    queue are as before. *)
Theorem processTranscribe_outcome c rid w r :
  db w !! rid = Some r ->
  let paths := getRecordingPaths rid in
  let w' := snd (processTranscribe c rid w) in
  match fst (transcribeAudio c (Paths.audio paths) rid w) with
  | Ok t =>
      fst (processTranscribe c rid w) = Ok (Success "transcript" t) /\
      files w' = <[Paths.transcript paths := Text t]> (files w) /\
      (exists r', db w' !! rid = Some r' /\
         transcript r' = Some t /\
         transcriptPath r' = Some (Paths.transcript paths) /\
         audioPath r' = audioPath r) /\
      published w' = published w ++
        [ stepUpdate rid ProcessingStep.TRANSCRIBING;
          stepUpdate rid ProcessingStep.COMPLETED ]
  | Throw e =>
      fst (processTranscribe c rid w) = Throw e /\
      isProcessingError e = true /\
      files w' = files w /\
      queue w' = queue w /\
      (exists r', db w' !! rid = Some r' /\
         transcript r' = transcript r /\
         transcriptPath r' = transcriptPath r /\
         status r' = status r /\
         currentStep r' = Some ProcessingStep.TRANSCRIBING) /\
      published w' = published w ++ [ stepUpdate rid ProcessingStep.TRANSCRIBING ]
  end.
Proof.
  intros Hr paths w'. subst w'.
  pose proof (transcribeAudio_cases c (Paths.audio paths) rid w) as [_ Hout].
  remember (fst (transcribeAudio c (Paths.audio paths) rid w)) as out eqn:Eout.
  unfold processTranscribe. unfold_prims. rewrite transcribeAudio_world.
  match goal with
  | |- context [fst (transcribeAudio c ?p rid ?w1)] =>
      rewrite (transcribeAudio_files c p rid w1 w eq_refl)
  end.
  fold paths. rewrite <- Eout. destruct out as [t|e]; cbn.
  - split; [reflexivity|]. split; [reflexivity|]. split; [|rewrite <- app_assoc; reflexivity].
    rewrite !lookup_alter_eq, Hr. cbn. eexists. split; [reflexivity|]. fields r.
  - destruct Hout as [He _]. split; [reflexivity|]. split; [exact He|].
    split; [reflexivity|]. split; [reflexivity|]. split; [|reflexivity].
    rewrite !lookup_alter_eq, Hr. cbn. eexists. split; [reflexivity|]. fields r.
Qed.

(** X12.  The synthesis client posts exactly one request, carrying the
    transcript, the events and the target language ("en" when none is
    given), and touches nothing else; it returns the reply's script and
    voiceover exactly when the reply holds both and neither is empty, and
    every error it throws -- an invalid reply, a refused connection, a
    timeout, a rejection, anything else -- is a ProcessingError. *)
Theorem processWithAI_outcome c t evs rid lang w :
  snd (processWithAI c t evs rid lang w) =
    with_synthesisCalls (fun l => l ++
      [ {| sc_transcript := t; sc_domEvents := evs;
           sc_target_language := default (Lang "en") lang |} ]) w /\
  match fst (processWithAI c t evs rid lang w) with
  | Ok (cs, vo) => validReply c cs vo
  | Throw e => isProcessingError e = true /\ forall cs vo, ~ validReply c cs vo
  end.
Proof.
  unfold processWithAI, validReply. unfold_prims.
  destruct (axios_post c) as [[cs vo]|err] eqn:Hax.
  - destruct cs as [[|a cs]|], vo as [[|b vo]|]; cbn;
      first [ split; [reflexivity|]; split; [reflexivity|];
              intros cs' vo' (H & H1 & H2); inversion H; subst; discriminate
            | split; [reflexivity|]; repeat split ].
  - assert (Hno : forall cs vo,
              ~ (Rejected err = Resolved (Some cs, Some vo) /\
                 truthy cs = true /\ truthy vo = true))
      by (intros cs vo (H & _); discriminate).
    unfold isProcessingError at 1. destruct err as [cl msg]. cbn.
    destruct cl as [| | |code status detail|]; cbn;
      try (split; [reflexivity|]; split; [reflexivity | exact Hno]).
    destruct (bool_decide (code = Some "ECONNREFUSED"));
      [|destruct (bool_decide (code = Some "ETIMEDOUT") ||
                  bool_decide (code = Some "ECONNABORTED"));
        [|destruct (bool_decide (status = Some 400%N))]];
      cbn; (split; [reflexivity|]; split; [reflexivity | exact Hno]).
Qed.

Lemma processAI_synthesis_run c rid lang w r evs cs vo :
  db w !! rid = Some r ->
  needsSynthesis r = true ->
  files w !! Paths.events (getRecordingPaths rid) = Some (Json evs) ->
  validReply c cs vo ->
  let paths := getRecordingPaths rid in
  let w' := snd (processAI c rid lang w) in
  fst (processAI c rid lang w) = Ok (Success "cleanedScript" cs) /\
  synthesisCalls w' = synthesisCalls w ++
    [ {| sc_transcript := orElse (transcript r) EmptyString; sc_domEvents := evs;
         sc_target_language := default (Lang "en") lang |} ] /\
  files w' = <[Paths.voiceover paths := Media vo]> (files w) /\
  (exists r', db w' !! rid = Some r' /\
     cleanedScript r' = Some cs /\
     voiceoverPath r' = Some (Paths.voiceover paths) /\
     status r' = status r) /\
  queue w' = enqueue JobType.APPLY_ZOOM (stageData rid) ("applyZoom-" +:+ rid) (queue w) /\
  published w' = published w ++ [ stepUpdate rid ProcessingStep.AI_PROCESSING ].
Proof.
  intros Hr Hneed Hev (Hax & Hcs & Hvo) paths w'. subst w' paths.
  unfold processAI, processWithAI, addNextJob. cbn [nextJobMap]. unfold_prims.
  cbn [fst snd db with_db with_published files].
  rewrite lookup_alter_eq, Hr. cbn [fmap option_fmap option_map].
  assert (Ht : transcript (assignAll [Set_currentStep ProcessingStep.AI_PROCESSING] r)
               = transcript r) by now destruct r.
  rewrite Ht. unfold needsSynthesis in Hneed. apply negb_true_iff in Hneed.
  rewrite Hneed. cbn in Hev |- *. rewrite Hev. cbn. rewrite Hax. cbn.
  rewrite Hcs, Hvo. cbn.
  split; [reflexivity|]. split; [now destruct lang|]. split; [reflexivity|].
  split; [|split; reflexivity].
  rewrite !lookup_alter_eq, Hr. cbn. eexists. split; [reflexivity|]. fields r.
Qed.

(** X13.  For a recording whose transcript is neither empty nor blank, with
    its events file readable and a valid reply of the synthesis server, the
    AI_PROCESS stage sends that transcript, the recorded events and the
    target language in one request, stores the reply's script as
    [cleanedScript], writes the reply's voiceover to the voiceover file,
    sets [voiceoverPath] to it and submits the APPLY_ZOOM job; the status
    is left as it was. *)
Theorem processAI_synthesis c rid lang w r evs cs vo :
  db w !! rid = Some r ->
  needsSynthesis r = true ->
  files w !! Paths.events (getRecordingPaths rid) = Some (Json evs) ->
  validReply c cs vo ->
  let paths := getRecordingPaths rid in
  let w' := snd (processAI c rid lang w) in
  fst (processAI c rid lang w) = Ok (Success "cleanedScript" cs) /\
  synthesisCalls w' = synthesisCalls w ++
    [ {| sc_transcript := orElse (transcript r) EmptyString; sc_domEvents := evs;
         sc_target_language := default (Lang "en") lang |} ] /\
  files w' = <[Paths.voiceover paths := Media vo]> (files w) /\
  (exists r', db w' !! rid = Some r' /\
     cleanedScript r' = Some cs /\
     voiceoverPath r' = Some (Paths.voiceover paths) /\
     status r' = status r) /\
  queue w' = enqueue JobType.APPLY_ZOOM (stageData rid) ("applyZoom-" +:+ rid) (queue w) /\
  published w' = published w ++ [ stepUpdate rid ProcessingStep.AI_PROCESSING ].
Proof. exact (processAI_synthesis_run c rid lang w r evs cs vo). Qed.

(** X14.  The AI_PROCESS stage reads the events file before it looks at the
    transcript: when that file is missing or does not hold the events
    array, the handler throws -- also for an empty transcript, which would
    otherwise take the fallback -- and it has called no collaborator,
    written no file, submitted no job and set neither the cleaned script nor
    the voiceover path. *)
Theorem processAI_needs_events c rid lang w r :
  db w !! rid = Some r ->
  (forall evs, files w !! Paths.events (getRecordingPaths rid) <> Some (Json evs)) ->
  let w' := snd (processAI c rid lang w) in
  (exists e, fst (processAI c rid lang w) = Throw e /\ isProcessingError e = false) /\
  synthesisCalls w' = synthesisCalls w /\
  files w' = files w /\
  queue w' = queue w /\
  exists r', db w' !! rid = Some r' /\
    cleanedScript r' = cleanedScript r /\ voiceoverPath r' = voiceoverPath r /\
    status r' = status r.
Proof.
  intros Hr Hev w'. subst w'. unfold processAI. unfold_prims.
  cbn [fst snd db with_db with_published files].
  rewrite lookup_alter_eq, Hr. cbn [fmap option_fmap option_map].
  cbn in Hev |- *.
  destruct (files w !! path_join (getRecordingDirectory rid) "events.json")
    as [[s|evs|b]|] eqn:Hf; cbn.
  2: { now destruct (Hev evs). }
  all: split; [eexists; split; reflexivity|]; do 3 (split; [reflexivity|]);
    rewrite !lookup_alter_eq, Hr; cbn; eexists; (split; [reflexivity|]); fields r.
Qed.

Ltac zoom_db :=
  do 3 (split; [reflexivity|]); rewrite !lookup_alter_eq; split;
  [ let r := fresh "r" in
    let Hr := fresh "Hr" in
    intros r Hr; rewrite Hr; cbn; eexists; split; [reflexivity|]; fields r
  | let Hr := fresh "Hr" in
    intros Hr; rewrite Hr; reflexivity ].

Lemma processZoom_run c rid w :
  let paths := getRecordingPaths rid in
  let w' := snd (processZoom c rid w) in
  published w' = published w ++ [ stepUpdate rid ProcessingStep.APPLYING_ZOOM_EFFECTS ] /\
  (noNull (recordedEvents w rid) = true ->
     fst (processZoom c rid w) = Ok (Success "zoomedVideoPath" (Paths.zoomedVideo paths)) /\
     queue w' = enqueue JobType.MERGE (stageData rid) ("merge-" +:+ rid) (queue w) /\
     files w' = match rendered c w rid with
                | Some d => <[Paths.zoomedVideo paths := d]> (files w)
                | None => files w
                end /\
     (forall r, db w !! rid = Some r ->
        exists r', db w' !! rid = Some r' /\
          zoomedVideoPath r' = Some (match rendered c w rid with
                                     | Some _ => Paths.zoomedVideo paths
                                     | None => Paths.rawVideo paths
                                     end) /\
          status r' = status r /\ errorMessage r' = errorMessage r) /\
     (db w !! rid = None -> db w' !! rid = None)) /\
  (noNull (recordedEvents w rid) = false ->
     fst (processZoom c rid w) = Throw (nullTypeError "type") /\
     queue w' = queue w /\
     files w' = files w /\
     (forall r, db w !! rid = Some r ->
        exists r', db w' !! rid = Some r' /\
          zoomedVideoPath r' = zoomedVideoPath r /\
          currentStep r' = Some ProcessingStep.APPLYING_ZOOM_EFFECTS /\
          status r' = status r /\ errorMessage r' = errorMessage r) /\
     (db w !! rid = None -> db w' !! rid = None)).
Proof.
  intros paths w'. subst w' paths. unfold rendered, recordedEvents.
  unfold processZoom, applyZoomEffects, addNextJob. cbn [nextJobMap]. unfold_prims.
  cbn [getRecordingPaths Paths.events Paths.zoomedVideo Paths.rawVideo].
  assert (Hret : orElse (Some (path_join (getRecordingDirectory rid) "zoomed.mp4"))
                   (path_join (getRecordingDirectory rid) "raw.webm") =
                 path_join (getRecordingDirectory rid) "zoomed.mp4").
  { unfold orElse. now rewrite truthy_path_join. }
  rewrite Hret. clear Hret.
  cbn [fst snd files with_db with_published].
  destruct (files w !! path_join (getRecordingDirectory rid) "events.json")
    as [[s|evs|b]|] eqn:Hev; cbn.
  1,3,4: split; [reflexivity|]; split; [ intros _; zoom_db | discriminate ].
  destruct (noNull evs) eqn:Hnn.
  - rewrite !(filterEvents_objects _ evs Hnn). fold (clicks evs).
    destruct (clicks evs) as [|e es] eqn:Hclicks; cbn;
      [split; [reflexivity|]; split; [intros _; zoom_db | discriminate]|].
    destruct (ffmpeg_applyZoomEffects c) as [d|err]; cbn;
      (split; [reflexivity|]; split; [intros _; zoom_db | discriminate]).
  - rewrite (filterEvents_null _ evs Hnn). cbn. split; [reflexivity|].
    split; [discriminate|]. intros _. zoom_db.
Qed.

(** X15.  The APPLY_ZOOM stage of the unified worker publishes its step and
    leaves the status and the error message alone.  When the events hold no
    [null] element (or the events file cannot be read) it never throws and
    always submits the MERGE job, whatever the zoom-effects collaborator
    answers: the record's [zoomedVideoPath] is the zoomed file exactly when
    a zoomed file was rendered (the events hold a click with coordinates
    and the collaborator succeeded, its output being the zoomed file) and
    the raw video otherwise; without such a click the collaborator is not
    called and no file changes; the value returned names the zoomed file in
    every case.  When the events hold a [null] element, filtering them
    throws a TypeError that nothing catches: the handler throws it, no MERGE
    job is submitted, no file changes and [zoomedVideoPath] is as before. *)
Theorem processZoom_outcome c rid w :
  let paths := getRecordingPaths rid in
  let w' := snd (processZoom c rid w) in
  published w' = published w ++ [ stepUpdate rid ProcessingStep.APPLYING_ZOOM_EFFECTS ] /\
  (noNull (recordedEvents w rid) = true ->
     fst (processZoom c rid w) = Ok (Success "zoomedVideoPath" (Paths.zoomedVideo paths)) /\
     queue w' = enqueue JobType.MERGE (stageData rid) ("merge-" +:+ rid) (queue w) /\
     (clicks (recordedEvents w rid) = [] -> files w' = files w) /\
     (forall d, rendered c w rid = Some d -> files w' !! Paths.zoomedVideo paths = Some d) /\
     (forall r, db w !! rid = Some r ->
        exists r', db w' !! rid = Some r' /\
          zoomedVideoPath r' = Some (match rendered c w rid with
                                     | Some _ => Paths.zoomedVideo paths
                                     | None => Paths.rawVideo paths
                                     end) /\
          status r' = status r /\ errorMessage r' = errorMessage r) /\
     (db w !! rid = None -> db w' !! rid = None)) /\
  (noNull (recordedEvents w rid) = false ->
     fst (processZoom c rid w) = Throw (nullTypeError "type") /\
     queue w' = queue w /\
     files w' = files w /\
     (forall r, db w !! rid = Some r ->
        exists r', db w' !! rid = Some r' /\
          zoomedVideoPath r' = zoomedVideoPath r /\
          currentStep r' = Some ProcessingStep.APPLYING_ZOOM_EFFECTS /\
          status r' = status r /\ errorMessage r' = errorMessage r) /\
     (db w !! rid = None -> db w' !! rid = None)).
Proof.
  intros paths w'.
  destruct (processZoom_run c rid w) as (Hp & Hgood & Hnull).
  fold paths in Hgood. fold w' in Hp, Hgood, Hnull.
  split; [exact Hp|]. split; [|exact Hnull].
  intros Hnn. destruct (Hgood Hnn) as (Hok & Hq & Hf & Hr & Hnone).
  split; [exact Hok|]. split; [exact Hq|].
  split; [|split; [|split; [exact Hr | exact Hnone]]].
  - intros Hclicks. rewrite Hf. unfold rendered. now rewrite Hclicks.
  - intros d Hd. rewrite Hf, Hd. apply lookup_insert_eq.
Qed.

(** X16.  When the MERGE stage cannot finish, nothing says COMPLETED.  For a
    recording that no longer exists the handler throws "Recording not
    found: " and the id without calling the mux, and no record or file has
    changed; when the mux fails it throws a ProcessingError "Merge failed:
    ..." and the record's status, final video path and completion time are
    as before.  In both cases the only event published is the MERGING
    step. *)
Theorem processMerge_failure c rid w :
  let w' := snd (processMerge c rid w) in
  (db w !! rid = None ->
     fst (processMerge c rid w) =
       Throw {| class := PlainError; message := "Recording not found: " +:+ rid |} /\
     published w' = published w ++ [ stepUpdate rid ProcessingStep.MERGING ] /\
     muxCalls w' = muxCalls w /\ db w' = db w /\ files w' = files w) /\
  (forall r e, db w !! rid = Some r -> ffmpeg_mergeAudioVideo c = Rejected e ->
     fst (processMerge c rid w) = Throw (processingError ("Merge failed: " +:+ message e)) /\
     published w' = published w ++ [ stepUpdate rid ProcessingStep.MERGING ] /\
     exists r', db w' !! rid = Some r' /\
       status r' = status r /\ finalVideoPath r' = finalVideoPath r /\
       processingCompletedAt r' = processingCompletedAt r /\
       currentStep r' = Some ProcessingStep.MERGING).
Proof.
  intros w'. subst w'. unfold processMerge, mergeAudioVideo. unfold_prims.
  cbn [fst snd db with_db with_published].
  rewrite lookup_alter_eq. destruct (db w !! rid) as [r|] eqn:Hr; cbn.
  - destruct (ffmpeg_mergeAudioVideo c) as [d|err] eqn:Hm; cbn.
    + split; [discriminate|]. intros r0 e _ H. discriminate.
    + split; [discriminate|].
      intros r0 e [= <-] [= <-]. split; [reflexivity|]. split; [reflexivity|].
      rewrite lookup_alter_eq, Hr. cbn. eexists. split; [reflexivity|]. fields r.
  - split.
    + intros _. split; [reflexivity|]. split; [reflexivity|]. split; [reflexivity|].
      split; [|reflexivity]. apply alter_id'. exact Hr.
    + intros r0 e H. discriminate.
Qed.

Lemma truthy_failureMessage error : truthy (failureMessage error) = true.
Proof. unfold failureMessage. now destruct (truthy (message error)) eqn:E. Qed.

Lemma onFailed_run job error w :
  let rid := recordingId (data job) in
  let w' := snd (onFailed job error w) in
  fst (onFailed job error w) = Ok tt /\
  files w' = files w /\ queue w' = queue w /\
  (rid = EmptyString -> w' = w) /\
  (rid <> EmptyString ->
     truthy (failureMessage error) = true /\
     published w' = published w ++
       [ stepUpdate rid ProcessingStep.FAILED; errorEvent rid (failureMessage error) ] /\
     forall r, db w !! rid = Some r ->
       exists r', db w' !! rid = Some r' /\
         status r' = RecordingStatus.FAILED /\
         currentStep r' = Some ProcessingStep.FAILED /\
         errorMessage r' = Some (failureMessage error) /\
         sameArtifacts r r' /\ sameInputs r r').
Proof.
  intros rid w'. subst w' rid. unfold onFailed, failureMessage.
  destruct (recordingId (data job)) as [|ch s] eqn:Hid; cbn [truthy].
  - cbn. do 3 (split; [reflexivity|]). split; [reflexivity | congruence].
  - unfold_prims. cbn. do 3 (split; [reflexivity|]). split; [discriminate|]. intros _.
    split; [apply truthy_failureMessage|]. split; [now rewrite <- app_assoc|].
    intros r Hr. rewrite lookup_alter_eq, Hr. cbn. eexists. split; [reflexivity|].
    unfold sameArtifacts, sameInputs. fields r.
Qed.

(** X17.  The "failed" listener of the unified worker, for a job that names a
    recording: the record becomes FAILED at step FAILED with an error
    message that is never empty (the error's own message, or "Unknown error
    occurred during processing"), the FAILED step and then the same message
    are published, and no artifact, no file and no job is touched; for a job
    without a recording id it does nothing at all. *)
Theorem onFailed_marks_failed job error w :
  let rid := recordingId (data job) in
  let w' := snd (onFailed job error w) in
  fst (onFailed job error w) = Ok tt /\
  files w' = files w /\ queue w' = queue w /\
  (rid = EmptyString -> w' = w) /\
  (rid <> EmptyString ->
     truthy (failureMessage error) = true /\
     published w' = published w ++
       [ stepUpdate rid ProcessingStep.FAILED; errorEvent rid (failureMessage error) ] /\
     forall r, db w !! rid = Some r ->
       exists r', db w' !! rid = Some r' /\
         status r' = RecordingStatus.FAILED /\
         currentStep r' = Some ProcessingStep.FAILED /\
         errorMessage r' = Some (failureMessage error) /\
         sameArtifacts r r' /\ sameInputs r r').
Proof. exact (onFailed_run job error w). Qed.

(** X18.  Deleting a recording removes its record and every file of its
    directory -- the raw video, the events and each artifact -- and nothing
    else: other records, files outside the directory and the queue are as
    before, so jobs still queued for the recording stay queued; afterwards
    the raw-video and download endpoints answer 404.  Deleting an unknown
    id throws "Recording not found" and changes nothing. *)
Theorem deleteRecording_removes id w :
  let paths := getRecordingPaths id in
  let w' := snd (deleteRecording id w) in
  (db w !! id = None -> deleteRecording id w = (Throw notFound, w)) /\
  (is_Some (db w !! id) ->
     fst (deleteRecording id w) = Ok tt /\
     db w' = delete id (db w) /\
     (forall p, inDirectory (Paths.directory paths) p = true -> files w' !! p = None) /\
     (forall p, inDirectory (Paths.directory paths) p = false ->
        files w' !! p = files w !! p) /\
     queue w' = queue w /\
     streamRawVideo id w' = inl (NotFound "Recording") /\
     downloadRecording id w' = inl (NotFound "Recording")).
Proof.
  intros paths w'. subst w' paths. unfold deleteRecording. unfold_prims. split.
  - intros ->. reflexivity.
  - intros [r ->]. cbn. split; [reflexivity|]. split; [reflexivity|].
    split; [|split; [|split; [reflexivity|]]].
    + intros p Hp. apply map_lookup_filter_None. right. intros d _ Hfalse.
      unfold inDirectory in Hp. cbn in Hfalse. congruence.
    + intros p Hp. rewrite map_lookup_filter.
      destruct (files w !! p) as [d|]; [|reflexivity]. cbn.
      apply option_guard_True. exact Hp.
    + unfold streamRawVideo, downloadRecording. cbn. now rewrite lookup_delete_eq.
Qed.

(** ** The two halves of the pipeline, end to end *)






(** ** The stage-specific workers *)

Lemma caught_marks_failed {A} (body : M A) rid fallback w e r :
  hoare (altersOnly rid (db w)) body
        (fun _ => altersOnly rid (db w)) (altersOnly rid (db w)) ->
  db w !! rid = Some r ->
  let m := tryCatch body (fun error => failedWith rid error fallback >> throw error) in
  fst (m w) = Throw e ->
  (exists r', db (snd (m w)) !! rid = Some r' /\
     status r' = RecordingStatus.FAILED /\
     currentStep r' = Some ProcessingStep.FAILED /\
     errorMessage r' = Some (if isError e then message e else fallback)) /\
  last (published (snd (m w))) = Some (stepUpdate rid ProcessingStep.FAILED).
Proof.
  intros Hbody Hr m. subst m. unfold tryCatch.
  pose proof (Hbody w (altersOnly_refl rid w)) as Hw.
  destruct (body w) as [[a|e0] w2]; [discriminate|].
  destruct Hw as [f Hf]. unfold failedWith. unfold_prims. cbn.
  intros [= <-]. split.
  - rewrite Hf, !lookup_alter_eq, Hr. cbn. eexists. split; [reflexivity|].
    destruct (f r). cbn. repeat split.
  - apply last_snoc.
Qed.

(** X21.  Each stage-specific worker ignores the jobs of the other stages --
    it returns at once and leaves the world as it is -- and, for a job of
    its own stage on an existing recording, whenever it throws it has first
    marked the record FAILED at step FAILED with the error's message (its
    own fallback message when the value thrown is not an Error) and
    published the FAILED step last. *)
Theorem stageWorkers_mark_failed worker stage fallback c job w :
  (worker, stage, fallback) ∈ stageWorkers ->
  (name job <> stage -> worker c job w = (Ok Skipped, w)) /\
  (forall e r,
     db w !! recordingId (data job) = Some r ->
     fst (worker c job w) = Throw e ->
     name job = stage /\
     (exists r', db (snd (worker c job w)) !! recordingId (data job) = Some r' /\
        status r' = RecordingStatus.FAILED /\
        currentStep r' = Some ProcessingStep.FAILED /\
        errorMessage r' = Some (if isError e then message e else fallback)) /\
     last (published (snd (worker c job w))) =
       Some (stepUpdate (recordingId (data job)) ProcessingStep.FAILED)).
Proof.
  intros Hin. unfold stageWorkers in Hin.
  repeat (apply elem_of_cons in Hin as [Hin|Hin]; [injection Hin as -> -> ->|]).
  6: now apply elem_of_nil in Hin.
  all: split;
    [ intros Hne;
      unfold extractAudioWorker, transcriptionWorker, aiWorker, zoomWorker, mergeWorker;
      destruct (name job); try congruence; reflexivity
    | intros e r Hr Hthrow;
      lazymatch goal with
      | |- name _ = ?s /\ _ =>
          assert (Hn : name job = s)
            by (unfold extractAudioWorker, transcriptionWorker, aiWorker, zoomWorker,
                  mergeWorker in Hthrow;
                destruct (name job); try reflexivity; discriminate Hthrow)
      end;
      split; [exact Hn|]; revert Hthrow ].
  - unfold extractAudioWorker. rewrite Hn. cbn [JobType.eqb negb].
    apply caught_marks_failed with (r := r); [repeat astep | exact Hr].
  - unfold transcriptionWorker. rewrite Hn. cbn [JobType.eqb negb].
    apply caught_marks_failed with (r := r); [repeat astep | exact Hr].
  - unfold aiWorker. rewrite Hn. cbn [JobType.eqb negb].
    apply caught_marks_failed with (r := r); [repeat astep | exact Hr].
  - unfold zoomWorker. rewrite Hn. cbn [JobType.eqb negb].
    apply caught_marks_failed with (r := r); [repeat astep | exact Hr].
  - unfold mergeWorker. rewrite Hn. cbn [JobType.eqb negb].
    apply caught_marks_failed with (r := r); [repeat astep | exact Hr].
Qed.

(** ** The error message outlives a retry *)

Lemma recordHas_storeOnly P rid : storeOnly (recordHas P rid).
Proof. intros w w' Hd _ (r & Hr & HP). exists r. now rewrite Hd. Qed.

Lemma has_update P rid id us (E : Assertion) :
  (forall r, P r -> P (assignAll us r)) ->
  hoare (recordHas P rid) (findByIdAndUpdate id us) (fun _ => recordHas P rid) E.
Proof.
  intros Hus w (r & Hr & HP). cbn. destruct (decide (id = rid)) as [->|Hne].
  - exists (assignAll us r). cbn [db with_db]. rewrite lookup_alter_eq, Hr.
    split; [reflexivity | now apply Hus].
  - exists r. cbn [db with_db]. now rewrite lookup_alter_ne.
Qed.

Lemma has_addNextJob P rid cur id (E : Assertion) :
  hoare (recordHas P rid) (addNextJob cur id) (fun _ => recordHas P rid) E.
Proof.
  unfold addNextJob. destruct (nextJobMap cur); [|now apply hoare_ret].
  intros w H. exact H.
Qed.

Lemma has_frame {A} P rid (m : M A) :
  frame m -> hoare (recordHas P rid) m (fun _ => recordHas P rid) (recordHas P rid).
Proof. intros Hm. apply hoare_frame; [apply recordHas_storeOnly | exact Hm]. Qed.

Ltac fstep :=
  cbn zeta;
  lazymatch goal with
  | |- hoare _ (bind _ _) _ _ => eapply hoare_bind; [ | intros ? ]
  | |- hoare _ (tryCatch _ _) _ _ => eapply hoare_tryCatch; [ | intros ? ]
  | |- hoare _ (match ?x with _ => _ end) _ _ => destruct x
  | |- hoare _ (findByIdAndUpdate _ _) _ _ =>
      apply has_update;
      let r0 := fresh "r0" in
      let H := fresh "H" in
      intros r0 H; destruct r0; exact H
  | |- hoare _ (addNextJob _ _) _ _ => apply has_addNextJob
  | |- hoare _ (ret _) _ _ => apply hoare_ret; intros ? H; exact H
  | |- hoare _ (throw _) _ _ => apply hoare_throw; intros ? H; exact H
  | |- hoare _ _ _ _ => apply has_frame; solve [frm]
  end.

Lemma recordingWorker_keeps_errorMessage c job o rid :
  hoare (recordHas (fun r => errorMessage r = o) rid) (recordingWorker c job)
        (fun _ => recordHas (fun r => errorMessage r = o) rid)
        (recordHas (fun r => errorMessage r = o) rid).
Proof.
  unfold recordingWorker, processExtractAudio, processTranscribe, processAI, processZoom,
    processMerge.
  repeat fstep.
Qed.

Lemma recordingWorker_merge c job w :
  name job = JobType.MERGE ->
  snd (recordingWorker c job w) = snd (processMerge c (recordingId (data job)) w).
Proof.
  intros Hn. unfold recordingWorker, tryCatch. rewrite Hn.
  now destruct (processMerge c (recordingId (data job)) w) as [[a|e] w'].
Qed.

(** X22.  No stage handler of the unified worker writes or clears the error
    message: whatever a job run does to a record, its [errorMessage] is as
    before (only the "failed" listener sets it and only the process request
    clears it).  So when an attempt of the MERGE job has failed and the
    listener has marked the record, a later attempt that succeeds leaves the
    record COMPLETED with the message of the failed attempt still stored. *)
Theorem errorMessage_survives_retry c job w r :
  db w !! recordingId (data job) = Some r ->
  (exists r', db (snd (recordingWorker c job w)) !! recordingId (data job) = Some r' /\
     errorMessage r' = errorMessage r) /\
  (forall error c' d,
     recordingId (data job) <> EmptyString ->
     name job = JobType.MERGE ->
     ffmpeg_mergeAudioVideo c' = Resolved d ->
     let w1 := snd (onFailed job error (snd (recordingWorker c job w))) in
     let w2 := snd (recordingWorker c' job w1) in
     exists r2, db w2 !! recordingId (data job) = Some r2 /\
       status r2 = RecordingStatus.COMPLETED /\
       errorMessage r2 = Some (failureMessage error)).
Proof.
  intros Hr.
  assert (Hkeep : forall c0 w0 r0, db w0 !! recordingId (data job) = Some r0 ->
            exists r', db (snd (recordingWorker c0 job w0)) !! recordingId (data job)
                       = Some r' /\ errorMessage r' = errorMessage r0).
  { intros c0 w0 r0 Hr0.
    apply (hoare_snd _ _ _ _
             (recordingWorker_keeps_errorMessage c0 job (errorMessage r0) _)).
    exists r0. auto. }
  split; [now apply Hkeep|].
  intros error c' d Hid Hn Hmux w1 w2.
  destruct (Hkeep c w r Hr) as (r0 & Hr0 & _).
  destruct (onFailed_run job error (snd (recordingWorker c job w)))
    as (_ & _ & _ & _ & Hfail).
  destruct (Hfail Hid) as (_ & _ & Hrec).
  destruct (Hrec r0 Hr0) as (r1 & Hr1 & _ & _ & Hmsg & _). fold w1 in Hr1.
  destruct (Hkeep c' w1 r1 Hr1) as (r2 & Hr2 & Hmsg2). fold w2 in Hr2.
  exists r2. split; [exact Hr2|]. split; [|congruence].
  subst w2. rewrite (recordingWorker_merge c' job w1 Hn) in Hr2.
  destruct (processMerge_final c' _ w1 r1 d Hr1 Hmux) as (_ & r4 & Hr4 & Hst & _).
  congruence.
Qed.

(** ** Authentication *)

Lemma untilSpace_word t rest :
  noSpace t = true ->
  rest = EmptyString \/ (exists r, rest = String " " r) ->
  untilSpace (t +:+ rest) = t.
Proof.
  intros Ht Hrest. induction t as [|ch t IH]; simpl in *.
  - destruct Hrest as [->|[r ->]]; reflexivity.
  - apply andb_true_iff in Ht as [Hch Ht]. apply negb_true_iff in Hch.
    rewrite Hch. now rewrite IH.
Qed.

Lemma secondWord_bearer t rest :
  noSpace t = true ->
  rest = EmptyString \/ (exists r, rest = String " " r) ->
  secondWord ("Bearer " +:+ t +:+ rest) = Some t.
Proof.
  intros Ht Hrest. unfold secondWord.
  change (afterSpace ("Bearer " +:+ t +:+ rest)) with (Some (t +:+ rest)).
  cbn [option_map]. f_equal. now apply untilSpace_word.
Qed.

Lemma append_empty_r s : s +:+ EmptyString = s.
Proof.
  induction s as [|ch s IH]; [reflexivity|].
  change (String ch (s +:+ EmptyString) = String ch s). now rewrite IH.
Qed.

Lemma isBearer_header x : isBearer (Some ("Bearer " +:+ x)) = true.
Proof. cbn. now destruct x. Qed.

(** X23.  [authMiddleware] lets a request through only with a token that
    verifies, and [req.user] is then what that token decodes to.  When the
    Authorization header is "Bearer " followed by a word, the request is
    judged by that word alone -- whatever follows the next space and
    whatever the query holds -- so a request with an empty or invalid
    bearer token is refused with 401 even if its query token is valid; the
    query token counts only when there is no such header.
    [optionalAuthMiddleware] never looks at the query token. *)
Theorem authMiddleware_header_first verify req :
  (forall user, authMiddleware verify req = Next user ->
     exists token, token <> EmptyString /\ verify token = Some user) /\
  (forall t rest,
     authorization req = Some ("Bearer " +:+ t +:+ rest) ->
     noSpace t = true ->
     rest = EmptyString \/ (exists r, rest = String " " r) ->
     authMiddleware verify req = judged verify t /\
     optionalAuthMiddleware verify req = verify t) /\
  (isBearer (authorization req) = false ->
     authMiddleware verify req =
       match query_token req with
       | QueryString s => judged verify s
       | QueryAbsent | QueryOther => Denied 401 "Access token required" "NO_TOKEN"
       end /\
     optionalAuthMiddleware verify req = None).
Proof.
  split; [|split].
  - intros user. unfold authMiddleware.
    destruct (truthy (default EmptyString _)) eqn:Ht; cbn [negb]; [|discriminate].
    destruct (verify (default EmptyString _)) as [d|] eqn:Hv; [|discriminate].
    intros [= <-]. eexists. split; [|exact Hv].
    intros E. rewrite E in Ht. discriminate.
  - intros t rest Hh Ht Hrest. unfold authMiddleware, optionalAuthMiddleware, judged.
    rewrite Hh, isBearer_header. cbn [from_option Datatypes.id].
    rewrite (secondWord_bearer t rest Ht Hrest). cbn [from_option Datatypes.id].
    split; [|reflexivity]. destruct (truthy t); reflexivity.
  - intros Hb. unfold authMiddleware, optionalAuthMiddleware, judged. rewrite Hb.
    split; [|reflexivity].
    destruct (query_token req) as [|s|]; cbn; try reflexivity.
    destruct s; reflexivity.
Qed.

(** X24.  The uploader recorded at an upload is the user of the bearer token
    of the Authorization header when that token verifies; an upload with no
    such header, or with a token that does not verify, creates the
    recording all the same, without a user id -- a token in the query is
    not looked at. *)
Theorem postRecording_owner verify req rid video events title description w :
  let w' := snd (postRecording verify req rid video events title description w) in
  fst (postRecording verify req rid video events title description w) = Ok tt /\
  exists r, db w' !! rid = Some r /\
    status r = RecordingStatus.UPLOADED /\
    userId r = option_map tok_userId (optionalAuthMiddleware verify req) /\
    (isBearer (authorization req) = false -> userId r = None) /\
    (forall t, authorization req = Some ("Bearer " +:+ t) -> noSpace t = true ->
       userId r = option_map tok_userId (verify t)).
Proof.
  intros w'. subst w'. unfold postRecording. cbn. split; [reflexivity|].
  eexists. split; [apply lookup_insert_eq|]. cbn.
  split; [reflexivity|]. split; [reflexivity|]. split.
  - intros Hb. unfold optionalAuthMiddleware. now rewrite Hb.
  - intros t Hh Ht. unfold optionalAuthMiddleware. rewrite Hh, isBearer_header.
    cbn [from_option Datatypes.id].
    pose proof (secondWord_bearer t EmptyString Ht (or_introl eq_refl)) as Hw.
    rewrite append_empty_r in Hw. now rewrite Hw.
Qed.

End Pipeline.

(** * One recording followed through the pipeline *)

Module Scenario.

Definition dir : string := "uploads".
Definition rid : string := "rec-1".

Definition click : DOMEvent :=
  {| type := "click"; timestamp := 1000;
     coordinates := Some (10, 20)%Z; viewport := Some (100, 100)%Z |}.

(** Collaborators that all answer. *)
Definition good : Collab :=
  {| now := 1700000000000;
     ffmpeg_extractAudio := Resolved (Media "pcm");
     deepgram_transcribeFile := Resolved (Some "click the button", None);
     axios_post := Resolved (Some "Click the button.", Some "UklGRg==");
     ffmpeg_applyZoomEffects := Resolved (Media "h264-zoomed");
     ffmpeg_mergeAudioVideo := Resolved (Media "h264-final") |}.

(** The speech-to-text service is down. *)
Definition deaf : Collab :=
  {| now := 1700000000000;
     ffmpeg_extractAudio := Resolved (Media "pcm");
     deepgram_transcribeFile :=
       Rejected {| class := PlainError; message := "socket hang up" |};
     axios_post := Resolved (Some "Click the button.", Some "UklGRg==");
     ffmpeg_applyZoomEffects := Resolved (Media "h264-zoomed");
     ffmpeg_mergeAudioVideo := Resolved (Media "h264-final") |}.

(** The speech-to-text service hears nothing. *)
Definition silent : Collab :=
  {| now := 1700000000000;
     ffmpeg_extractAudio := Resolved (Media "pcm");
     deepgram_transcribeFile := Resolved (Some EmptyString, None);
     axios_post := Resolved (Some "Click the button.", Some "UklGRg==");
     ffmpeg_applyZoomEffects := Resolved (Media "h264-zoomed");
     ffmpeg_mergeAudioVideo := Resolved (Media "h264-final") |}.

(** The zoom render fails. *)
Definition blurred : Collab :=
  {| now := 1700000000000;
     ffmpeg_extractAudio := Resolved (Media "pcm");
     deepgram_transcribeFile := Resolved (Some "click the button", None);
     axios_post := Resolved (Some "Click the button.", Some "UklGRg==");
     ffmpeg_applyZoomEffects :=
       Rejected (processingError "Zoom effects failed: ffmpeg exited with code 1");
     ffmpeg_mergeAudioVideo := Resolved (Media "h264-final") |}.

(** The synthesis server answers 400. *)
Definition badRequest : Error :=
  {| class := AxiosError (Some "ERR_BAD_REQUEST") (Some 400%N) (Some "Transcript is empty");
     message := "Request failed with status code 400" |}.

Definition rejecting : Collab :=
  {| now := 1700000000000;
     ffmpeg_extractAudio := Resolved (Media "pcm");
     deepgram_transcribeFile := Resolved (Some "click the button", None);
     axios_post := Rejected badRequest;
     ffmpeg_applyZoomEffects := Resolved (Media "h264-zoomed");
     ffmpeg_mergeAudioVideo := Resolved (Media "h264-final") |}.

Definition stageJob (n : JobType.t) (key : string) : Job :=
  {| name := n;
     data := {| recordingId := rid; data_targetLanguage := None |};
     jobId := key; attemptsMade := 0; state := Waiting |}.

Definition extractJob : Job := stageJob JobType.EXTRACT_AUDIO "extract-audio-rec-1".
Definition transcribeJob : Job := stageJob JobType.TRANSCRIBE "transcribe-rec-1".
Definition zoomJob : Job := stageJob JobType.APPLY_ZOOM "applyZoom-rec-1".
Definition mergeJob : Job := stageJob JobType.MERGE "merge-rec-1".

Definition blank : Recording :=
  {| _id := EmptyString; filePath := EmptyString; eventsPath := EmptyString;
     audioPath := None; transcriptPath := None; zoomedVideoPath := None;
     voiceoverPath := None; finalVideoPath := None; cleanedScript := None;
     transcript := None; status := RecordingStatus.UPLOADED; currentStep := None;
     title := None; description := None; targetLanguage := None; userId := None;
     errorMessage := None; processingStartedAt := None; processingCompletedAt := None |}.

Definition recordOf (w : World) : Recording := default blank (db w !! rid).

(** The run: upload, extraction, transcription, a request for French, the
    three stages of the tail, and a request for German. *)
Definition uploaded : World :=
  snd (uploadRecording dir rid (Media "vp9") [Some click] None None None emptyWorld).
Definition extracted : World := snd (runJob dir good 0 extractJob uploaded).
Definition drafted : World := snd (runJob dir good 1 transcribeJob extracted).
Definition requested : World :=
  snd (processRecording 1700000001000 rid (Some (Lang "fr")) drafted).
Definition synthesized : World :=
  snd (runJob dir good 2 (aiProcessJob rid (Lang "fr") 1700000001000) requested).
Definition zoomed : World := snd (runJob dir good 3 zoomJob synthesized).
Definition completed : World := snd (runJob dir good 4 mergeJob zoomed).
Definition requestedAgain : World :=
  snd (processRecording 1700000002000 rid (Some (Lang "de")) completed).

(** A second run: transcription fails, the user asks for processing all
    the same, and the tail runs on the extracted audio. *)
Definition undrafted : World := snd (runJob dir deaf 1 transcribeJob extracted).
Definition retriggered : World :=
  snd (processRecording 1700000001000 rid None undrafted).
Definition unscripted : World :=
  snd (runJob dir good 2 (aiProcessJob rid (Lang "en") 1700000001000) retriggered).
Definition unzoomed : World := snd (runJob dir good 3 zoomJob unscripted).
Definition finished : World := snd (runJob dir good 4 mergeJob unzoomed).

(** The transcription job has been picked up and is still running. *)
Definition transcribing : World :=
  with_queue <[1 := setState Active transcribeJob]> extracted.

(** The zoom render of the first run fails instead. *)
Definition fellBack : World := snd (runJob dir blurred 3 zoomJob synthesized).

(** A third run: the events array of the upload holds a [null] and
    nothing else; the recording is drafted, a process request is made and
    the AI stage has run. *)
Definition uploadedNull : World :=
  snd (uploadRecording dir rid (Media "vp9") [None] None None None emptyWorld).
Definition extractedNull : World := snd (runJob dir good 0 extractJob uploadedNull).
Definition draftedNull : World := snd (runJob dir good 1 transcribeJob extractedNull).
Definition requestedNull : World :=
  snd (processRecording 1700000001000 rid (Some (Lang "fr")) draftedNull).
Definition synthesizedNull : World :=
  snd (runJob dir good 2 (aiProcessJob rid (Lang "fr") 1700000001000) requestedNull).

(** The events file of the recording has been lost. *)
Definition eventless : World :=
  with_files (delete "uploads/rec-1/events.json") requested.

(** The same loss in the second run, where the recording has no
    transcript. *)
Definition eventlessBlank : World :=
  with_files (delete "uploads/rec-1/events.json") retriggered.

(** The mux fails. *)
Definition unmuxed : Collab :=
  {| now := 1700000000000;
     ffmpeg_extractAudio := Resolved (Media "pcm");
     deepgram_transcribeFile := Resolved (Some "click the button", None);
     axios_post := Resolved (Some "Click the button.", Some "UklGRg==");
     ffmpeg_applyZoomEffects := Resolved (Media "h264-zoomed");
     ffmpeg_mergeAudioVideo :=
       Rejected {| class := PlainError; message := "ffmpeg exited with code 1" |} |}.

(** A token check that accepts one token, and a request whose header
    carries another while its query carries that one. *)
Definition verifyDemo (token : string) : option DecodedToken :=
  if String.eqb token "good-token"
  then Some {| tok_userId := "user-1"; tok_email := "user@example.org" |}
  else None.

Definition shadowed : Request :=
  {| authorization := Some "Bearer stale-token"; query_token := QueryString "good-token" |}.

Definition signedIn : Request :=
  {| authorization := Some "Bearer good-token"; query_token := QueryAbsent |}.

Definition uploadedRecord : Recording := Eval vm_compute in recordOf uploaded.
Definition extractedRecord : Recording := Eval vm_compute in recordOf extracted.
Definition requestedRecord : Recording := Eval vm_compute in recordOf requested.
Definition synthesizedRecord : Recording := Eval vm_compute in recordOf synthesized.
Definition zoomedRecord : Recording := Eval vm_compute in recordOf zoomed.
Definition completedRecord : Recording := Eval vm_compute in recordOf completed.
Definition requestedAgainRecord : Recording := Eval vm_compute in recordOf requestedAgain.
Definition finishedRecord : Recording := Eval vm_compute in recordOf finished.
Definition retriggeredRecord : Recording := Eval vm_compute in recordOf retriggered.

End Scenario.

Import Scenario.

Lemma reachable_uploaded : reachable dir uploaded.
Proof.
  eapply rtc_r; [apply rtc_refl|]. unfold uploaded. apply step_upload.
  - reflexivity.
  - intros j Hj. exfalso. vm_compute in Hj. now apply not_elem_of_nil in Hj.
Qed.

Lemma reachable_extracted : reachable dir extracted.
Proof.
  eapply rtc_r; [apply reachable_uploaded|]. unfold extracted.
  apply step_job; vm_compute; reflexivity.
Qed.

Lemma reachable_drafted : reachable dir drafted.
Proof.
  eapply rtc_r; [apply reachable_extracted|]. unfold drafted.
  apply step_job; vm_compute; reflexivity.
Qed.

Lemma reachable_requested : reachable dir requested.
Proof. eapply rtc_r; [apply reachable_drafted|]. apply step_process. Qed.

Lemma reachable_synthesized : reachable dir synthesized.
Proof.
  eapply rtc_r; [apply reachable_requested|]. unfold synthesized.
  apply step_job; vm_compute; reflexivity.
Qed.

Lemma reachable_zoomed : reachable dir zoomed.
Proof.
  eapply rtc_r; [apply reachable_synthesized|]. unfold zoomed.
  apply step_job; vm_compute; reflexivity.
Qed.

Lemma reachable_completed : reachable dir completed.
Proof.
  eapply rtc_r; [apply reachable_zoomed|]. unfold completed.
  apply step_job; vm_compute; reflexivity.
Qed.

Lemma reachable_requestedAgain : reachable dir requestedAgain.
Proof. eapply rtc_r; [apply reachable_completed|]. apply step_process. Qed.

Lemma reachable_finished : reachable dir finished.
Proof.
  assert (H1 : reachable dir undrafted).
  { eapply rtc_r; [apply reachable_extracted|]. unfold undrafted.
    apply step_job; vm_compute; reflexivity. }
  assert (H2 : reachable dir retriggered).
  { eapply rtc_r; [apply H1|]. apply step_process. }
  assert (H3 : reachable dir unscripted).
  { eapply rtc_r; [apply H2|]. unfold unscripted.
    apply step_job; vm_compute; reflexivity. }
  assert (H4 : reachable dir unzoomed).
  { eapply rtc_r; [apply H3|]. unfold unzoomed.
    apply step_job; vm_compute; reflexivity. }
  eapply rtc_r; [apply H4|]. unfold finished.
  apply step_job; vm_compute; reflexivity.
Qed.

Lemma reachable_synthesizedNull : reachable dir synthesizedNull.
Proof.
  assert (H0 : reachable dir uploadedNull).
  { eapply rtc_r; [apply rtc_refl|]. unfold uploadedNull. apply step_upload.
    - reflexivity.
    - intros j Hj. exfalso. vm_compute in Hj. now apply not_elem_of_nil in Hj. }
  assert (H1 : reachable dir extractedNull).
  { eapply rtc_r; [apply H0|]. unfold extractedNull.
    apply step_job; vm_compute; reflexivity. }
  assert (H2 : reachable dir draftedNull).
  { eapply rtc_r; [apply H1|]. unfold draftedNull.
    apply step_job; vm_compute; reflexivity. }
  assert (H3 : reachable dir requestedNull).
  { eapply rtc_r; [apply H2|]. apply step_process. }
  eapply rtc_r; [apply H3|]. unfold synthesizedNull.
  apply step_job; vm_compute; reflexivity.
Qed.

(** * The theorems at work on the scenario *)

Lemma status_invariant_witness :
  (status completedRecord = RecordingStatus.COMPLETED ->
     is_Some (finalVideoPath completedRecord) /\ is_Some (voiceoverPath completedRecord) /\
     is_Some (zoomedVideoPath completedRecord)) /\
  (status completedRecord = RecordingStatus.FAILED ->
     is_Some (errorMessage completedRecord)).
Proof.
  apply (status_invariant dir completed rid completedRecord).
  - exact reachable_completed.
  - vm_compute. reflexivity.
Defined.

Lemma processTranscribe_pauses_at_draft_witness :
  fst (processTranscribe dir silent rid extracted) = Ok (Success "transcript" EmptyString) /\
  queue (snd (processTranscribe dir silent rid extracted)) = queue extracted /\
  status (recordOf (snd (processTranscribe dir silent rid extracted))) =
    RecordingStatus.DRAFT_READY.
Proof.
  destruct (processTranscribe_pauses_at_draft dir silent rid extracted extractedRecord)
    as [H1 H2].
  - vm_compute. reflexivity.
  - destruct (H2 (Some EmptyString)) as [Hok _].
    + vm_compute. eexists. reflexivity.
    + reflexivity.
    + reflexivity.
    + destruct (H1 _ Hok) as (Hq & r' & Hr' & Hs & _).
      split; [exact Hok|]. split; [exact Hq|].
      unfold recordOf. rewrite Hr'. exact Hs.
Defined.

Lemma processAI_empty_transcript_witness :
  synthesisCalls (snd (processAI dir good rid (Some (Lang "en")) retriggered)) =
    synthesisCalls retriggered /\
  files (snd (processAI dir good rid (Some (Lang "en")) retriggered))
    !! "uploads/rec-1/voiceover.wav" = Some (Media "pcm") /\
  cleanedScript (recordOf (snd (processAI dir good rid (Some (Lang "en")) retriggered))) =
    Some "[No transcript available]".
Proof.
  destruct (processAI_empty_transcript dir good rid (Some (Lang "en")) retriggered
              retriggeredRecord)
    as [Hcalls Hrest].
  - vm_compute. reflexivity.
  - exact I.
  - destruct (Hrest [Some click]) as (_ & (r' & Hr' & Hcs & _) & Hfile & _).
    + vm_compute. reflexivity.
    + split; [exact Hcalls|]. split.
      * transitivity (Some (default (Text EmptyString)
                        (files retriggered !! Paths.audio (getRecordingPaths dir rid)))).
        -- exact Hfile.
        -- vm_compute. reflexivity.
      * unfold recordOf. rewrite Hr'. exact Hcs.
Defined.

Lemma processZoom_absorbs_failure_witness :
  zoomedVideoPath (recordOf (snd (processZoom dir blurred rid synthesized))) =
    Some "uploads/rec-1/raw.webm" /\
  status (recordOf (snd (processZoom dir blurred rid synthesized))) =
    RecordingStatus.PROCESSING /\
  status (recordOf (snd (processMerge dir good rid
            (snd (processZoom dir blurred rid synthesized))))) =
    RecordingStatus.COMPLETED.
Proof.
  destruct (processZoom_absorbs_failure dir blurred rid synthesized synthesizedRecord)
    as (_ & (r' & Hr' & Hz & Hs & _) & _ & Hmerge).
  - vm_compute. reflexivity.
  - vm_compute. reflexivity.
  - right. split.
    + vm_compute. discriminate.
    + eexists. reflexivity.
  - destruct (Hmerge good (Media "h264-final") eq_refl) as (_ & r'' & Hr'' & Hst & _).
    split; [|split].
    + unfold recordOf. rewrite Hr'. exact Hz.
    + unfold recordOf. rewrite Hr'. exact Hs.
    + unfold recordOf. rewrite Hr''. exact Hst.
Defined.

Lemma processMerge_uses_recorded_path_witness :
  (exists call,
     muxCalls (snd (processMerge dir good rid zoomed)) = muxCalls zoomed ++ [call] /\
     mux_video call = "uploads/rec-1/zoomed.mp4") /\
  (exists call,
     muxCalls (snd (processMerge dir good rid fellBack)) = muxCalls fellBack ++ [call] /\
     mux_video call = "uploads/rec-1/raw.webm") /\
  status (recordOf (snd (processMerge dir good rid fellBack))) =
    RecordingStatus.COMPLETED.
Proof.
  destruct (processMerge_uses_recorded_path dir good rid zoomed zoomedRecord)
    as [(call1 & Hcall1 & Hp1 & _) _]; [vm_compute; reflexivity|].
  destruct (processMerge_uses_recorded_path dir good rid fellBack (recordOf fellBack))
    as [(call2 & Hcall2 & Hp2 & _) Hdone]; [vm_compute; reflexivity|].
  destruct (Hdone (Media "h264-final") eq_refl) as (_ & r' & Hr' & Hst & _).
  split; [|split].
  - exists call1. split; [exact Hcall1|]. apply Hp1; [reflexivity | discriminate].
  - exists call2. split; [exact Hcall2|]. apply Hp2; [vm_compute; reflexivity | discriminate].
  - unfold recordOf at 1. rewrite Hr'. exact Hst.
Defined.


Lemma processRecording_any_status_witness :
  status extractedRecord = RecordingStatus.PROCESSING /\
  fst (processRecording 1700000001000 rid None transcribing) = Ok tt /\
  queue (snd (processRecording 1700000001000 rid None transcribing)) =
    queue transcribing ++ [ aiProcessJob rid (Lang "en") 1700000001000 ].
Proof.
  destruct (processRecording_any_status 1700000001000 rid None transcribing extractedRecord)
    as (Hok & _ & _ & Hfresh).
  - vm_compute. reflexivity.
  - split; [reflexivity|]. split; [exact Hok|].
    apply Hfresh. vm_compute. reflexivity.
Defined.

Lemma reprocessing_keeps_inputs_witness :
  keepsInputs completedRecord rid
    (snd (processMerge dir good rid
       (snd (processZoom dir blurred rid
          (snd (processAI dir good rid (Some (Lang "de"))
             (snd (processRecording 1700000002000 rid (Some (Lang "de")) completed)))))))).
Proof.
  destruct (reprocessing_keeps_inputs dir 1700000002000 (Some (Lang "de")) good blurred good
              rid completed completedRecord) as (_ & _ & _ & H4).
  - vm_compute. reflexivity.
  - reflexivity.
  - exact H4.
Defined.

Lemma synthesis_failure_retried_witness :
  exists j',
    queue (snd (runJob dir rejecting 2 (aiProcessJob rid (Lang "fr") 1700000001000) requested))
      !! 2%nat = Some j' /\
    attemptsMade j' = 1%nat /\ state j' = Delayed 30000 /\ retried j'.
Proof.
  destruct (synthesis_failure_retried dir rejecting 2 (aiProcessJob rid (Lang "fr") 1700000001000)
              requested requestedRecord [Some click] badRequest)
    as ((j' & Hj' & Ha & Hs & Hr) & _).
  - vm_compute. reflexivity.
  - reflexivity.
  - discriminate.
  - vm_compute. reflexivity.
  - vm_compute. reflexivity.
  - vm_compute. reflexivity.
  - reflexivity.
  - vm_compute. discriminate.
  - exists j'. split; [exact Hj'|]. split; [exact Ha|]. split; [exact Hs|].
    apply Hr. vm_compute. lia.
Defined.

(** * Where the specification's wording fails *)

(** C1, as stated, fails: after a COMPLETED recording is sent through a new
    process request, every artifact path is still set while the status is
    PROCESSING again. *)
Lemma completed_iff_artifacts_counterexample : ~ completed_iff_artifacts dir.
Proof.
  intros H.
  destruct (H requestedAgain rid requestedAgainRecord reachable_requestedAgain)
    as [[_ Hback] _].
  - vm_compute. reflexivity.
  - assert (Hset : artifactsSet requestedAgainRecord)
      by (repeat split; eexists; reflexivity).
    specialize (Hback Hset). discriminate Hback.
Qed.

(** Nor are the audio-stage artifacts implied by COMPLETED: when the
    transcription failed and the user asked for processing all the same,
    the recording completes without a transcript path. *)
Lemma completed_without_transcript :
  reachable dir finished /\
  db finished !! rid = Some finishedRecord /\
  status finishedRecord = RecordingStatus.COMPLETED /\
  transcriptPath finishedRecord = None.
Proof.
  split; [exact reachable_finished|]. split; [vm_compute; reflexivity|].
  split; reflexivity.
Qed.

(** C9, as stated, fails: the first attempt of an AI_PROCESS job that the
    synthesis server rejects with HTTP 400 is delayed for a retry like any
    other failure. *)
Lemma rejected_input_not_retried_counterexample : ~ rejected_input_not_retried dir.
Proof.
  intros H.
  apply (H rejecting 2%nat (aiProcessJob rid (Lang "fr") 1700000001000) requested
           requestedRecord [Some click] badRequest)
    with (j' := {| name := JobType.AI_PROCESS;
                   data := {| recordingId := rid; data_targetLanguage := Some (Lang "fr") |};
                   jobId := aiProcessKey rid 1700000001000;
                   attemptsMade := 1;
                   state := Delayed 30000 |}).
  - vm_compute. reflexivity.
  - reflexivity.
  - discriminate.
  - vm_compute. reflexivity.
  - vm_compute. reflexivity.
  - vm_compute. reflexivity.
  - reflexivity.
  - vm_compute. reflexivity.
  - vm_compute. reflexivity.
  - exists 30000%N. reflexivity.
Qed.

(** C2, as stated, fails for the stage-specific worker of the TRANSCRIBE
    stage: [transcriptionWorker] succeeds and leaves the recording
    PROCESSING at the TRANSCRIBING step. *)
Lemma pauses_at_draft_counterexample : ~ pauses_at_draft (transcriptionWorker dir).
Proof.
  intros H.
  destruct (H good transcribeJob extracted extractedRecord
              (Success "transcript" "click the button"))
    as (_ & r' & Hr' & Hs & _).
  - reflexivity.
  - vm_compute. reflexivity.
  - vm_compute. reflexivity.
  - vm_compute in Hr'. injection Hr' as <-. discriminate Hs.
Qed.

(** C3, as stated, fails for both handlers of the AI_PROCESS stage:
    [aiWorker] sends the absent transcript of the second run to the
    synthesis server; and the handler of the unified worker, when the
    events file cannot be read, throws before it has set the sentinel. *)
Lemma skips_synthesis_counterexample :
  ~ skips_synthesis dir (aiWorker dir) /\ ~ skips_synthesis dir (recordingWorker dir).
Proof.
  split; intros H.
  - destruct (H good (aiProcessJob rid (Lang "en") 1700000001000) retriggered
                retriggeredRecord) as (Hcalls & _).
    + reflexivity.
    + vm_compute. reflexivity.
    + exact I.
    + vm_compute in Hcalls. discriminate Hcalls.
  - destruct (H good (aiProcessJob rid (Lang "en") 1700000001000) eventlessBlank
                retriggeredRecord) as (_ & (r' & Hr' & Hcs & _) & _).
    + reflexivity.
    + vm_compute. reflexivity.
    + exact I.
    + vm_compute in Hr'. injection Hr' as <-. discriminate Hcs.
Qed.

(** C4, as stated, fails for both handlers of the APPLY_ZOOM stage: when
    the events of the upload are one [null] -- no click among them -- the
    handler of the unified worker throws and [zoomedVideoPath] stays unset;
    and [zoomWorker] throws when the render fails. *)
Lemma absorbs_zoom_failure_counterexample :
  ~ absorbs_zoom_failure dir (recordingWorker dir) /\
  ~ absorbs_zoom_failure dir (zoomWorker dir).
Proof.
  split; intros H.
  - destruct (H good zoomJob synthesizedNull (recordOf synthesizedNull))
      as [Hnone _].
    + reflexivity.
    + vm_compute. reflexivity.
    + destruct Hnone as (r' & Hr' & Hz); [vm_compute; reflexivity|].
      vm_compute in Hr'. injection Hr' as <-. discriminate Hz.
  - destruct (H blurred zoomJob synthesized synthesizedRecord) as [_ Hfail].
    + reflexivity.
    + vm_compute. reflexivity.
    + destruct Hfail as ((a & Ha) & _).
      * vm_compute. discriminate.
      * eexists. reflexivity.
      * vm_compute in Ha. discriminate Ha.
Qed.

(** C5, as stated, fails for the stage-specific worker of the MERGE stage:
    the record names the raw video after the fallback, and [mergeWorker]
    muxes the conventional zoomed file all the same. *)
Lemma muxes_recorded_path_counterexample : ~ muxes_recorded_path (mergeWorker dir).
Proof.
  intros H.
  destruct (H good mergeJob fellBack (recordOf fellBack) "uploads/rec-1/raw.webm")
    as (call & Hcall & Hvideo).
  - reflexivity.
  - vm_compute. reflexivity.
  - vm_compute. reflexivity.
  - discriminate.
  - vm_compute in Hcall. injection Hcall as <-. discriminate Hvideo.
Qed.

(** C6, as stated, fails twice.  No function of the stage and the id gives
    the key of every job: an EXTRACT_AUDIO job for one recording is keyed
    "extract-audio-rec-1" by [addProcessingJob] and "extractAudio-rec-1" by
    [addNextJob].  And two AI-processing submissions made in the same
    millisecond do not coexist: the second is dropped. *)
Lemma dedup_keys_counterexample : ~ key_of_stage_and_id /\ ~ ai_submissions_coexist.
Proof.
  split.
  - intros [key H].
    pose proof (H rid emptyWorld extractJob) as H1.
    pose proof (H rid emptyWorld (stageJob JobType.EXTRACT_AUDIO "extractAudio-rec-1")) as H2.
    assert (E1 : jobId extractJob = key JobType.EXTRACT_AUDIO rid).
    { apply H1; [left; vm_compute; constructor | apply not_elem_of_nil]. }
    assert (E2 : jobId (stageJob JobType.EXTRACT_AUDIO "extractAudio-rec-1") =
                 key JobType.EXTRACT_AUDIO rid).
    { apply H2; [right; exists JobType.START_PROCESSING; vm_compute; constructor
                | apply not_elem_of_nil]. }
    rewrite <- E1 in E2. discriminate E2.
  - intros H.
    specialize (H rid (Some (Lang "fr")) (Some (Lang "de")) 1700000001000%N 1700000001000%N
                  emptyWorld eq_refl eq_refl).
    vm_compute in H. discriminate H.
Qed.

(** * The stage-specific workers on the same inputs

    They differ from the handlers of the unified worker exactly where the
    pipeline pauses, falls back or reads the record. *)

(** [transcriptionWorker] returns normally but leaves the recording
    PROCESSING at the TRANSCRIBING step. *)
Example transcriptionWorker_leaves_processing :
  fst (transcriptionWorker dir good transcribeJob extracted) =
    Ok (Success "transcript" "click the button") /\
  status (recordOf (snd (transcriptionWorker dir good transcribeJob extracted))) =
    RecordingStatus.PROCESSING /\
  currentStep (recordOf (snd (transcriptionWorker dir good transcribeJob extracted))) =
    Some ProcessingStep.TRANSCRIBING.
Proof. vm_compute. repeat split. Qed.

(** [aiWorker] sends an absent transcript to the synthesis server. *)
Example aiWorker_calls_synthesis_without_transcript :
  synthesisCalls
    (snd (aiWorker dir good (aiProcessJob rid (Lang "en") 1700000001000) retriggered)) =
    [ {| sc_transcript := EmptyString; sc_domEvents := [Some click];
         sc_target_language := Lang "en" |} ].
Proof. vm_compute. reflexivity. Qed.

(** [zoomWorker] throws at a [null] event as well, whatever ffmpeg would
    answer. *)
Example zoomWorker_fails_on_null_event :
  fst (zoomWorker dir good zoomJob synthesizedNull) = Throw (nullTypeError "type") /\
  status (recordOf (snd (zoomWorker dir good zoomJob synthesizedNull))) =
    RecordingStatus.FAILED.
Proof. vm_compute. split; reflexivity. Qed.

(** [zoomWorker] fails the recording when the render fails. *)
Example zoomWorker_fails_on_render_failure :
  status (recordOf (snd (zoomWorker dir blurred zoomJob synthesized))) =
    RecordingStatus.FAILED.
Proof. vm_compute. reflexivity. Qed.

(** [mergeWorker] muxes the conventional zoomed file although the record
    names the raw video. *)
Example mergeWorker_assumes_zoomed_file :
  zoomedVideoPath (recordOf fellBack) = Some "uploads/rec-1/raw.webm" /\
  muxCalls (snd (mergeWorker dir good mergeJob fellBack)) =
    [ {| mux_video := "uploads/rec-1/zoomed.mp4";
         mux_audio := "uploads/rec-1/voiceover.wav";
         mux_output := "uploads/rec-1/final.mp4" |} ].
Proof. vm_compute. split; reflexivity. Qed.

(** * A [null] in the request and in the events

    What the pipeline does with the two [null]s it can receive. *)

(** A process request that says [null] for the language stores and queues
    [null], and the synthesis server is then asked for the language
    [null]. *)
Example null_language_travels :
  let w1 := snd (processRecording 1700000001000 rid (Some NullLanguage) drafted) in
  targetLanguage (recordOf w1) = Some NullLanguage /\
  queue w1 = queue drafted ++ [ aiProcessJob rid NullLanguage 1700000001000 ] /\
  synthesisCalls
    (snd (runJob dir good 2 (aiProcessJob rid NullLanguage 1700000001000) w1)) =
    [ {| sc_transcript := "click the button"; sc_domEvents := [Some click];
         sc_target_language := NullLanguage |} ].
Proof. vm_compute. repeat split. Qed.

(** A [null] among the uploaded events fails the APPLY_ZOOM job of the
    unified worker: the job is delayed for a retry, the record is FAILED
    with the TypeError's message, and no MERGE job is queued. *)
Example null_event_fails_the_zoom_job :
  let w' := snd (runJob dir good 3 zoomJob synthesizedNull) in
  status (recordOf w') = RecordingStatus.FAILED /\
  errorMessage (recordOf w') = Some "Cannot read properties of null (reading 'type')" /\
  zoomedVideoPath (recordOf w') = None /\
  option_map state (queue w' !! 3%nat) = Some (Delayed 30000) /\
  length (queue w') = 4%nat.
Proof. vm_compute. repeat split. Qed.

(** * The further properties at work on the scenario *)

Lemma parseExpiryToMs_numeral_witness :
  parseExpiryToMs "15m" = 900000%N /\ parseExpiryToMs "15" = 604800000%N.
Proof.
  apply (parseExpiryToMs_numeral 15 "m").
  - reflexivity.
  - vm_compute. reflexivity.
Defined.

Lemma reachable_records_conventional_witness : conventional dir rid completedRecord.
Proof.
  apply (reachable_records_conventional dir completed rid completedRecord).
  - exact reachable_completed.
  - vm_compute. reflexivity.
Defined.

Lemma streamRawVideo_reachable_witness :
  exists resp, streamRawVideo rid uploaded = inr resp /\
    contentType resp = HeaderString "video/webm" /\
    streamedPath resp = "uploads/rec-1/raw.webm" /\
    body resp = Media "vp9".
Proof.
  pose proof (streamRawVideo_reachable dir uploaded rid reachable_uploaded) as H.
  destruct (streamRawVideo rid uploaded) as [e|resp] eqn:E.
  - vm_compute in E. discriminate.
  - destruct H as (_ & Hct & Hp & Hb). exists resp. split; [reflexivity|].
    split; [exact Hct|]. split; [exact Hp|].
    vm_compute in Hb. now injection Hb.
Defined.



Lemma processExtractAudio_outcome_witness :
  fst (processExtractAudio dir good rid uploaded) =
    Ok (Success "audioPath" "uploads/rec-1/audio.wav") /\
  files (snd (processExtractAudio dir good rid uploaded)) !! "uploads/rec-1/audio.wav" =
    Some (Media "pcm").
Proof.
  destruct (processExtractAudio_outcome dir good rid uploaded uploadedRecord)
    as (_ & _ & Hok & Hf & _).
  - vm_compute. reflexivity.
  - split; [exact Hok | exact Hf].
Defined.

Lemma processTranscribe_outcome_witness :
  fst (processTranscribe dir good rid extracted) =
    Ok (Success "transcript" "click the button") /\
  files (snd (processTranscribe dir good rid extracted)) !! "uploads/rec-1/transcript.txt" =
    Some (Text "click the button") /\
  (exists e, fst (processTranscribe dir deaf rid extracted) = Throw e /\
     isProcessingError e = true).
Proof.
  pose proof (processTranscribe_outcome dir good rid extracted extractedRecord) as H1.
  pose proof (processTranscribe_outcome dir deaf rid extracted extractedRecord) as H2.
  cbv zeta in H1, H2.
  replace (fst (transcribeAudio good (Paths.audio (getRecordingPaths dir rid)) rid extracted))
    with (@Ok string "click the button") in H1 by (vm_compute; reflexivity).
  replace (fst (transcribeAudio deaf (Paths.audio (getRecordingPaths dir rid)) rid extracted))
    with (@Throw string (processingError "Transcription failed: socket hang up")) in H2
    by (vm_compute; reflexivity).
  destruct H1 as (Hok & Hf & _); [vm_compute; reflexivity|].
  destruct H2 as (Hthrow & He & _); [vm_compute; reflexivity|].
  split; [exact Hok|]. split; [rewrite Hf; apply lookup_insert_eq|].
  eexists. split; [exact Hthrow | exact He].
Defined.

Lemma processAI_synthesis_witness :
  fst (processAI dir good rid (Some (Lang "fr")) requested) =
    Ok (Success "cleanedScript" "Click the button.") /\
  synthesisCalls (snd (processAI dir good rid (Some (Lang "fr")) requested)) =
    [ {| sc_transcript := "click the button"; sc_domEvents := [Some click];
         sc_target_language := Lang "fr" |} ] /\
  files (snd (processAI dir good rid (Some (Lang "fr")) requested))
    !! "uploads/rec-1/voiceover.wav" = Some (Media "UklGRg==").
Proof.
  destruct (processAI_synthesis dir good rid (Some (Lang "fr")) requested requestedRecord
              [Some click] "Click the button." "UklGRg==") as (Hok & Hcalls & Hf & _).
  - vm_compute. reflexivity.
  - vm_compute. reflexivity.
  - vm_compute. reflexivity.
  - split; [reflexivity|]. split; reflexivity.
  - split; [exact Hok|]. split; [exact Hcalls|]. rewrite Hf. apply lookup_insert_eq.
Defined.

Lemma processAI_needs_events_witness :
  (exists e, fst (processAI dir good rid (Some (Lang "fr")) eventless) = Throw e) /\
  synthesisCalls (snd (processAI dir good rid (Some (Lang "fr")) eventless)) = [] /\
  queue (snd (processAI dir good rid (Some (Lang "fr")) eventless)) = queue eventless.
Proof.
  destruct (processAI_needs_events dir good rid (Some (Lang "fr")) eventless requestedRecord)
    as ((e & He & _) & Hcalls & _ & Hq & _).
  - vm_compute. reflexivity.
  - intros evs. vm_compute. discriminate.
  - split; [eauto|]. split; [exact Hcalls | exact Hq].
Defined.



Lemma stageWorkers_mark_failed_witness :
  exists r',
    db (snd (zoomWorker dir blurred zoomJob synthesized)) !! rid = Some r' /\
    status r' = RecordingStatus.FAILED /\
    errorMessage r' = Some "Zoom effects failed: ffmpeg exited with code 1".
Proof.
  destruct (stageWorkers_mark_failed dir (zoomWorker dir) JobType.APPLY_ZOOM
              "Zoom effects failed" blurred zoomJob synthesized) as [_ H].
  - unfold stageWorkers. do 3 apply list_elem_of_further. apply list_elem_of_here.
  - destruct (H (processingError "Zoom effects failed: ffmpeg exited with code 1")
                synthesizedRecord) as (_ & (r' & Hr' & Hst & _ & Hmsg) & _).
    + vm_compute. reflexivity.
    + vm_compute. reflexivity.
    + exists r'. split; [exact Hr'|]. split; [exact Hst | exact Hmsg].
Defined.

Lemma errorMessage_survives_retry_witness :
  exists r2,
    db (snd (recordingWorker dir good mergeJob
          (snd (onFailed mergeJob (processingError "Merge failed: ffmpeg exited with code 1")
             (snd (recordingWorker dir unmuxed mergeJob zoomed)))))) !! rid = Some r2 /\
    status r2 = RecordingStatus.COMPLETED /\
    errorMessage r2 = Some "Merge failed: ffmpeg exited with code 1".
Proof.
  destruct (errorMessage_survives_retry dir unmuxed mergeJob zoomed zoomedRecord) as [_ H].
  - vm_compute. reflexivity.
  - apply (H (processingError "Merge failed: ffmpeg exited with code 1") good
             (Media "h264-final")).
    + discriminate.
    + reflexivity.
    + reflexivity.
Defined.

Lemma files_outside_directory_untouched_witness :
  files (snd (recordingWorker dir good extractJob uploaded)) !! "uploads/rec-2/raw.webm" =
    files uploaded !! "uploads/rec-2/raw.webm" /\
  files (snd (deleteRecording dir rid completed)) !! "uploads/rec-2/raw.webm" =
    files completed !! "uploads/rec-2/raw.webm".
Proof.
  destruct (files_outside_directory_untouched dir "uploads/rec-2/raw.webm")
    as (Hjob & Hdel & _).
  split.
  - apply Hjob. vm_compute. reflexivity.
  - apply Hdel. vm_compute. reflexivity.
Defined.

Lemma processZoom_outcome_witness :
  zoomedVideoPath (recordOf (snd (processZoom dir good rid synthesized))) =
    Some "uploads/rec-1/zoomed.mp4" /\
  zoomedVideoPath (recordOf (snd (processZoom dir blurred rid synthesized))) =
    Some "uploads/rec-1/raw.webm" /\
  fst (processZoom dir good rid synthesizedNull) =
    Throw (nullTypeError "type") /\
  queue (snd (processZoom dir good rid synthesizedNull)) = queue synthesizedNull.
Proof.
  destruct (processZoom_outcome dir good rid synthesized) as (_ & H1 & _).
  destruct (processZoom_outcome dir blurred rid synthesized) as (_ & H2 & _).
  destruct (processZoom_outcome dir good rid synthesizedNull) as (_ & _ & H3).
  destruct H1 as (_ & _ & _ & _ & H1 & _); [vm_compute; reflexivity|].
  destruct H2 as (_ & _ & _ & _ & H2 & _); [vm_compute; reflexivity|].
  destruct H3 as (Hthrow & Hq & _); [vm_compute; reflexivity|].
  destruct (H1 synthesizedRecord) as (r1 & Hr1 & Hz1 & _); [vm_compute; reflexivity|].
  destruct (H2 synthesizedRecord) as (r2 & Hr2 & Hz2 & _); [vm_compute; reflexivity|].
  split; [|split; [|split; [exact Hthrow | exact Hq]]].
  - unfold recordOf. rewrite Hr1.
    change (zoomedVideoPath r1 = Some "uploads/rec-1/zoomed.mp4").
    rewrite Hz1. vm_compute. reflexivity.
  - unfold recordOf. rewrite Hr2.
    change (zoomedVideoPath r2 = Some "uploads/rec-1/raw.webm").
    rewrite Hz2. vm_compute. reflexivity.
Defined.

Lemma processMerge_failure_witness :
  fst (processMerge dir unmuxed rid zoomed) =
    Throw (processingError "Merge failed: ffmpeg exited with code 1") /\
  status (recordOf (snd (processMerge dir unmuxed rid zoomed))) = RecordingStatus.PROCESSING.
Proof.
  destruct (processMerge_failure dir unmuxed rid zoomed) as (_ & H).
  destruct (H zoomedRecord {| class := PlainError; message := "ffmpeg exited with code 1" |})
    as (Hthrow & _ & r' & Hr' & Hst & _).
  - vm_compute. reflexivity.
  - reflexivity.
  - split; [exact Hthrow|]. unfold recordOf. rewrite Hr'.
    change (status r' = RecordingStatus.PROCESSING). rewrite Hst. reflexivity.
Defined.

Lemma onFailed_marks_failed_witness :
  status (recordOf (snd (onFailed mergeJob
            (processingError "Merge failed: ffmpeg exited with code 1") zoomed))) =
    RecordingStatus.FAILED /\
  errorMessage (recordOf (snd (onFailed mergeJob
            (processingError "Merge failed: ffmpeg exited with code 1") zoomed))) =
    Some "Merge failed: ffmpeg exited with code 1".
Proof.
  destruct (onFailed_marks_failed mergeJob
              (processingError "Merge failed: ffmpeg exited with code 1") zoomed)
    as (_ & _ & _ & _ & H).
  destruct H as (_ & _ & H); [discriminate|].
  destruct (H zoomedRecord) as (r' & Hr' & Hst & _ & Hmsg & _); [vm_compute; reflexivity|].
  change (recordingId (data mergeJob)) with rid in Hr'.
  split; unfold recordOf; rewrite Hr'; [exact Hst | exact Hmsg].
Defined.

Lemma deleteRecording_removes_witness :
  db (snd (deleteRecording dir rid completed)) !! rid = None /\
  files (snd (deleteRecording dir rid completed)) !! "uploads/rec-1/final.mp4" = None /\
  queue (snd (deleteRecording dir rid completed)) = queue completed.
Proof.
  destruct (deleteRecording_removes dir rid completed) as [_ H].
  destruct H as (_ & Hdb & Hin & _ & Hq & _); [vm_compute; eexists; reflexivity|].
  split; [rewrite Hdb; apply lookup_delete_eq|]. split; [|exact Hq].
  apply Hin. vm_compute. reflexivity.
Defined.

Lemma authMiddleware_header_first_witness :
  authMiddleware verifyDemo shadowed =
    Denied 401 "Invalid or expired access token" "INVALID_TOKEN" /\
  optionalAuthMiddleware verifyDemo shadowed = None.
Proof.
  destruct (authMiddleware_header_first verifyDemo shadowed) as (_ & H & _).
  destruct (H "stale-token" EmptyString) as [H1 H2].
  - reflexivity.
  - reflexivity.
  - left. reflexivity.
  - split; [exact H1 | exact H2].
Defined.

Lemma postRecording_owner_witness :
  exists r,
    db (snd (postRecording dir verifyDemo signedIn rid (Media "vp9") [Some click] None None
               emptyWorld)) !! rid = Some r /\
    userId r = Some "user-1".
Proof.
  destruct (postRecording_owner dir verifyDemo signedIn rid (Media "vp9") [Some click] None None
              emptyWorld) as (_ & r & Hr & _ & _ & _ & Hu).
  exists r. split; [exact Hr|].
  apply (Hu "good-token"); reflexivity.
Defined.
